(** * Admission, rate limiting, retry and pagination engine of the relay bot

    A shallow embedding of the TypeScript sources

    - [src/services/messageService.ts]   (formatting and pagination),
    - [src/utils/keyboards.ts]           (the keyboard of a paginated answer),
    - [src/services/openRouterService.ts] (upstream client, rate limiter),
    - [src/imageProcessor.ts]            (image jobs with retry),
    - [src/bot.ts], [nonBlockingImageHandler] (per-user admission),
    - [src/services/userService.ts]      (histories and tracked messages),

    followed by the terms the properties are stated with and by the
    properties of the specification, each stated over the embedded
    functions.

    Conventions of the embedding.
    - A JavaScript string that the code measures, trims or matches with a
      regular expression is a list of UTF-16 code units ([jsstr]).  Strings
      that are only concatenated, compared or used as map keys (map keys,
      error messages) are [string]s.
    - A JavaScript number that holds an id, a counter or a time stamp in
      milliseconds is a [Z]; lengths are [nat].
    - [Map] and [Set] objects are [gmap] and [gset]; an instance with mutable
      fields is a record that is passed in and returned.
    - [Date.now()], the outcome of a network call and the time a call takes
      are inputs of the embedded function.
    - Handlers of the event loop run one at a time and give way only at an
      [await]; a handler is embedded as the steps between its awaits, and a
      schedule is a list of such steps.
    - Writes to the console and to files and the text of replies to the
      user are left out, and so is the conversation history where the
      handlers and the retry loops pass it on: no property stated here
      reads them. *)

From stdpp Require Import gmap strings list pretty.
From Stdlib Require Import ZArith Lia Ascii.

Local Open Scope Z_scope.

(* ===================================================================== *)
(** * Part I: the embedded program                                        *)
(* ===================================================================== *)

(** ** JavaScript string primitives *)

Module Js.

(** A string as its sequence of UTF-16 code units. *)
Abbreviation jsstr := (list N).

Definition TAB : N := 9.
Definition LF : N := 10.
Definition VT : N := 11.
Definition FF : N := 12.
Definition CR : N := 13.
Definition SP : N := 32.
Definition NBSP : N := 160.
Definition LS : N := 8232.       (* U+2028 *)
Definition PS : N := 8233.       (* U+2029 *)
Definition SPARKLES : N := 10024. (* U+2728, the glyph of /^✨\s*/gm *)
Definition HEAVY_RULE : N := 9473. (* U+2501, the glyph of /━+/g *)

(** LineTerminator of ECMAScript: what [^] looks behind for under the [m]
    flag. *)
Definition is_line_terminator (c : N) : bool :=
  ((c =? LF) || (c =? CR) || (c =? LS) || (c =? PS))%N.

(** WhiteSpace and LineTerminator of ECMAScript: the class [\s] of a regular
    expression and the code units [String.prototype.trim] removes. *)
Definition is_ws (c : N) : bool :=
  ((c =? TAB) || (c =? LF) || (c =? VT) || (c =? FF) || (c =? CR) ||
   (c =? SP) || (c =? NBSP) || (c =? 5760) ||
   ((8192 <=? c) && (c <=? 8202)) ||
   (c =? LS) || (c =? PS) || (c =? 8239) || (c =? 8287) ||
   (c =? 12288) || (c =? 65279))%N.

(** Truthiness of a string: non-empty. *)
Definition truthy (s : jsstr) : bool :=
  match s with [] => false | _ :: _ => true end.

Fixpoint trimStart (s : jsstr) : jsstr :=
  match s with
  | [] => []
  | c :: s' => if is_ws c then trimStart s' else s
  end.

Fixpoint trimEnd (s : jsstr) : jsstr :=
  match s with
  | [] => []
  | c :: s' =>
      match trimEnd s' with
      | [] => if is_ws c then [] else [c]
      | t => c :: t
      end
  end.

(** [s.trim()] *)
Definition trim (s : jsstr) : jsstr := trimEnd (trimStart s).

(** Puts a code unit in front of the first piece of a split. *)
Definition cons_first (c : N) (pieces : list jsstr) : list jsstr :=
  match pieces with
  | [] => [[c]]
  | p :: ps => (c :: p) :: ps
  end.

(** [s.split('\n\n')]: the separator is matched from the left, without
    overlap; the empty string splits into one empty piece. *)
Fixpoint split_blank_line (s : jsstr) : list jsstr :=
  match s with
  | [] => [[]]
  | c :: s' =>
      match s' with
      | d :: s'' =>
          if ((c =? LF) && (d =? LF))%N then [] :: split_blank_line s''
          else cons_first c (split_blank_line s')
      | [] => [[c]]
      end
  end.

(** [s.split(' ')] *)
Fixpoint split_space (s : jsstr) : list jsstr :=
  match s with
  | [] => [[]]
  | c :: s' =>
      if (c =? SP)%N then [] :: split_space s'
      else cons_first c (split_space s')
  end.

(** [s.replace(/^✨\s*/gm, '')].  The scan keeps two facts about the code
    unit before the current one: whether it was a line terminator or the
    start of the input ([bol], what [^] tests on the original string), and
    whether a match is still consuming its [\s*] ([eating]). *)
Fixpoint replace_sparkles (bol eating : bool) (s : jsstr) : jsstr :=
  match s with
  | [] => []
  | c :: s' =>
      if eating && is_ws c then replace_sparkles (is_line_terminator c) true s'
      else if bol && (c =? SPARKLES)%N then replace_sparkles false true s'
      else c :: replace_sparkles (is_line_terminator c) false s'
  end.

(** [s.replace(/━+/g, '')] *)
Definition replace_rules (s : jsstr) : jsstr :=
  filter (λ c, c ≠ HEAVY_RULE) s.

(** [s.replace(/\n{3,}/g, '\n\n')]: [run] counts the line feeds of the
    current run that were already copied; a third and later one is dropped. *)
Fixpoint replace_blank_runs (run : nat) (s : jsstr) : jsstr :=
  match s with
  | [] => []
  | c :: s' =>
      if (c =? LF)%N then
        if (2 <=? run)%nat then replace_blank_runs run s'
        else c :: replace_blank_runs (S run) s'
      else c :: replace_blank_runs 0 s'
  end.

(** [pieces.join('\n')] *)
Fixpoint join_lines (pieces : list jsstr) : jsstr :=
  match pieces with
  | [] => []
  | [p] => p
  | p :: ps => p ++ LF :: join_lines ps
  end.

(** [s.startsWith(p)] on keys and identifiers. *)
Fixpoint startsWith (s p : string) {struct p} : bool :=
  match p with
  | EmptyString => true
  | String a p' =>
      match s with
      | EmptyString => false
      | String b s' => if decide (a = b) then startsWith s' p' else false
      end
  end.

(** Truthiness of a number that may be [undefined]: defined and not zero. *)
Definition truthy_num (v : option Z) : bool :=
  match v with
  | Some n => negb (n =? 0)
  | None => false
  end.


(** [s.includes(sub)], also [/sub/.test(s)] for a pattern without special
    characters. *)
Fixpoint includes (s sub : string) : bool :=
  startsWith s sub ||
  match s with
  | EmptyString => false
  | String _ s' => includes s' sub
  end.

End Js.

(** ** messageService.ts *)

Module MessageService.
Import Js.

Definition MAX_PAGE_LENGTH : nat := 3500.
Definition MAX_CACHE_SIZE : nat := 100.

(** The two memo tables of the class.  [paginationStates] is not read by the
    functions embedded here. *)
Record t := mk {
  responseCache : gmap jsstr jsstr;
  splitCache : gmap jsstr (list jsstr)
}.

Definition empty : t := {| responseCache := ∅; splitCache := ∅ |}.

(** [stripDecor] *)
Definition stripDecor (text : jsstr) : jsstr :=
  trim (replace_blank_runs 0 (replace_rules (replace_sparkles true false text))).

(** [formatResponse]: a cached answer is returned as it is; a computed one is
    stored while the table has room. *)
Definition formatResponse (this : t) (text : jsstr) : jsstr * t :=
  match responseCache this !! text with
  | Some cached => (cached, this)
  | None =>
      let trimmed := trim text in
      let cleaned := stripDecor trimmed in
      if (size (responseCache this) <? MAX_CACHE_SIZE)%nat then
        (cleaned,
         {| responseCache := <[text := cleaned]> (responseCache this);
            splitCache := splitCache this |})
      else (cleaned, this)
  end.

(** Body of the inner loop [for (const word of words)]; the state is
    [(chunks, wordChunk)]. *)
Definition word_step (st : list jsstr * jsstr) (word : jsstr)
  : list jsstr * jsstr :=
  let '(chunks, wordChunk) := st in
  if (length wordChunk + length word + 1 <=? MAX_PAGE_LENGTH)%nat then
    (chunks, wordChunk ++ (if truthy wordChunk then [SP] else []) ++ word)
  else
    ((if truthy wordChunk then chunks ++ [trim wordChunk] else chunks), word).

(** Body of the outer loop [for (const paragraph of paragraphs)]; the state
    is [(chunks, current)]. *)
Definition paragraph_step (st : list jsstr * jsstr) (paragraph : jsstr)
  : list jsstr * jsstr :=
  let '(chunks, current) := st in
  if (length current + length paragraph + 2 <=? MAX_PAGE_LENGTH)%nat then
    (chunks, current ++ (if truthy current then [LF; LF] else []) ++ paragraph)
  else
    let chunks1 := if truthy current then chunks ++ [trim current] else chunks in
    if (MAX_PAGE_LENGTH <? length paragraph)%nat then
      let words := split_space paragraph in
      let '(chunks2, wordChunk) := fold_left word_step words (chunks1, []) in
      ((if truthy wordChunk then chunks2 ++ [trim wordChunk] else chunks2), [])
    else
      (chunks1, paragraph).

(** The uncached part of [splitMessage]. *)
Definition split_pages (text : jsstr) : list jsstr :=
  if (length text <=? MAX_PAGE_LENGTH)%nat then [text]
  else
    let paragraphs := split_blank_line text in
    let '(chunks, current) := fold_left paragraph_step paragraphs ([], []) in
    if truthy current then chunks ++ [trim current] else chunks.

(** [splitMessage] *)
Definition splitMessage (this : t) (text : jsstr) : list jsstr * t :=
  match splitCache this !! text with
  | Some cached => (cached, this)
  | None =>
      let result := split_pages text in
      if (size (splitCache this) <? MAX_CACHE_SIZE)%nat then
        (result,
         {| responseCache := responseCache this;
            splitCache := <[text := result]> (splitCache this) |})
      else (result, this)
  end.

(** The tables hold nothing but results of the functions they memoise.  This
    holds of [empty] and is kept by both methods; [clearCaches] empties the
    tables. *)
Definition cache_ok (this : t) : Prop :=
  (∀ text cleaned, responseCache this !! text = Some cleaned →
     cleaned = stripDecor (trim text)) ∧
  (∀ text pages, splitCache this !! text = Some pages →
     pages = split_pages text).

End MessageService.

(** ** The rate limiter (second class of openRouterService.ts) *)

Module RateLimitService.
Import Js.

(** A number that the limiter computes: an integer, or [NaN], which
    arithmetic on [undefined] gives. *)
Inductive number :=
  | Int (z : Z)
  | NaN.

Record RateLimitRule := mkRule {
  maxRequests : Z;
  windowMs : Z;
  blockDurationMs : option Z
}.

Record UserLimitInfo := mkInfo {
  count : Z;
  resetTime : number;
  blockedUntil : option Z;
  violations : Z
}.

(** The instance: [limits], [rules] and [vipUsers].  The field
    [globalLimits] is never read or written.  [rules] is a plain object:
    [rules] holds the properties of its own, and [rules_prototype] the rule
    object that an assignment to the name [__proto__] has put between the
    table and [Object.prototype], if there was one. *)
Record t := mk {
  limits : gmap string UserLimitInfo;
  rules : gmap string RateLimitRule;
  rules_prototype : option RateLimitRule;
  vipUsers : gset Z
}.

(** The rule table the class starts with. *)
Definition default_rules : gmap string RateLimitRule :=
  list_to_map
    [ ("text_message", mkRule 30 60000 (Some 300000));
      ("image_processing", mkRule 10 300000 (Some 600000));
      ("settings_change", mkRule 5 60000 (Some 60000));
      ("command", mkRule 20 60000 None);
      ("global", mkRule 50 3600000 (Some 1800000)) ]%string.

Definition initial : t :=
  {| limits := ∅; rules := default_rules; rules_prototype := None;
     vipUsers := ∅ |}.

(** The text of [reason] is kept as the data it is built from. *)
Inductive Reason :=
  | BlockedUntil (until : Z)
  | LimitExceeded (max window : option Z).

Record CheckResult := mkResult {
  allowed : bool;
  remaining : number;
  result_resetTime : number;
  result_blockedUntil : option Z;
  reason : option Reason
}.

(** [`${userId}:${action}`] *)
Definition limit_key (userId : Z) (action : string) : string :=
  pretty userId +:+ ":" +:+ action.

(** What reading a property of the rule table gives: a rule object, a number
    (a field of the rule object that is the prototype of the table), a member
    of [Object.prototype] (a function, or that object itself), or
    [undefined]. *)
Inductive Value :=
  | VRule (rule : RateLimitRule)
  | VNumber (n : Z)
  | VBuiltin
  | VUndefined.

(** The names that every plain object inherits from [Object.prototype]. *)
Definition object_prototype_members : list string :=
  [ "constructor"; "__defineGetter__"; "__defineSetter__"; "hasOwnProperty";
    "__lookupGetter__"; "__lookupSetter__"; "isPrototypeOf";
    "propertyIsEnumerable"; "toString"; "valueOf"; "__proto__";
    "toLocaleString" ]%string.

(** The property [name] of a rule object. *)
Definition rule_field (rule : RateLimitRule) (name : string) : option Z :=
  if decide (name = "maxRequests"%string) then Some (maxRequests rule)
  else if decide (name = "windowMs"%string) then Some (windowMs rule)
  else if decide (name = "blockDurationMs"%string) then blockDurationMs rule
  else None.

(** [this.rules[name]]: the property of the table's own, or else what the
    prototype chain has under the name.  The name [__proto__] reads the
    prototype of the table. *)
Definition get_rule (this : t) (name : string) : Value :=
  match rules this !! name with
  | Some rule => VRule rule
  | None =>
      if decide (name = "__proto__"%string) then
        match rules_prototype this with
        | Some prototype => VRule prototype
        | None => VBuiltin
        end
      else
        match rules_prototype this ≫= λ prototype, rule_field prototype name with
        | Some n => VNumber n
        | None =>
            if decide (name ∈ object_prototype_members) then VBuiltin
            else VUndefined
        end
  end.

(** Truthiness of such a value. *)
Definition truthy_value (v : Value) : bool :=
  match v with
  | VRule _ | VBuiltin => true
  | VNumber n => negb (n =? 0)
  | VUndefined => false
  end.

(** [this.rules[action] || this.rules.global] *)
Definition rule_for (this : t) (action : string) : Value :=
  let found := get_rule this action in
  if truthy_value found then found else get_rule this "global".

(** [rule.maxRequests], [rule.windowMs] and [rule.blockDurationMs] of a
    value that is not [undefined]: a rule object has the fields, on any
    other value they read [undefined]. *)
Definition maxRequests_of (rule : Value) : option Z :=
  match rule with VRule r => Some (maxRequests r) | _ => None end.

Definition windowMs_of (rule : Value) : option Z :=
  match rule with VRule r => Some (windowMs r) | _ => None end.

Definition blockDurationMs_of (rule : Value) : option Z :=
  match rule with VRule r => blockDurationMs r | _ => None end.

(** [a + b] and [b - a] for a number [a] and a [b] that may be [undefined],
    and the comparisons [a >= b] and [a > r], which are false on [undefined]
    and on [NaN]. *)
Definition plus (a : Z) (b : option Z) : number :=
  match b with Some b => Int (a + b) | None => NaN end.

Definition minus (b : option Z) (a : Z) : number :=
  match b with Some b => Int (b - a) | None => NaN end.

Definition at_least (a : Z) (b : option Z) : bool :=
  match b with Some b => b <=? a | None => false end.

Definition after (a : Z) (r : number) : bool :=
  match r with Int r => r <? a | NaN => false end.

Definition set_limit (this : t) (key : string) (info : UserLimitInfo) : t :=
  {| limits := <[key := info]> (limits this);
     rules := rules this;
     rules_prototype := rules_prototype this;
     vipUsers := vipUsers this |}.

(** [userLimit?.blockedUntil && now < userLimit.blockedUntil] *)
Definition blocked_at (now : Z) (userLimit : option UserLimitInfo) : bool :=
  match userLimit with
  | Some ul =>
      truthy_num (blockedUntil ul) &&
      match blockedUntil ul with Some b => now <? b | None => false end
  | None => false
  end.

(** [checkLimit(userId, action)] at time [now]; the callers pass the action,
    the default ['global'] of the parameter is the string ["global"].
    [None] is the [TypeError] of reading a field of an undefined rule. *)
Definition checkLimit (now : Z) (this : t) (userId : Z) (action : string)
  : option (CheckResult * t) :=
  let rule := rule_for this action in
  let key := limit_key userId action in
  let userLimit := limits this !! key in
  match userLimit, blocked_at now userLimit with
  | Some ul, true =>
      Some (mkResult false (Int 0) (resetTime ul) (blockedUntil ul)
              (BlockedUntil <$> blockedUntil ul), this)
  | _, _ =>
      match rule with
      | VUndefined => None
      | _ =>
          (* reset of the window *)
          let expired :=
            match userLimit with
            | None => true
            | Some ul => after now (resetTime ul)
            end in
          let fresh :=
            mkInfo 0 (plus now (windowMs_of rule)) None
              (match userLimit with Some ul => violations ul | None => 0 end) in
          let ul1 := if expired then fresh else default fresh userLimit in
          let this1 := if expired then set_limit this key ul1 else this in
          if at_least (count ul1) (maxRequests_of rule) then
            let ul2 :=
              mkInfo (count ul1) (resetTime ul1)
                (if truthy_num (blockDurationMs_of rule)
                 then (λ d, now + d) <$> blockDurationMs_of rule
                 else blockedUntil ul1)
                (violations ul1 + 1) in
            Some (mkResult false (Int 0) (resetTime ul2) (blockedUntil ul2)
                    (Some (LimitExceeded (maxRequests_of rule)
                             (windowMs_of rule))),
                  set_limit this1 key ul2)
          else
            let ul3 :=
              mkInfo (count ul1 + 1) (resetTime ul1) (blockedUntil ul1)
                (violations ul1) in
            Some (mkResult true (minus (maxRequests_of rule) (count ul3))
                    (resetTime ul3) None None,
                  set_limit this1 key ul3)
      end
  end.

(** [resetUserLimits(userId, action?)]; an empty [action] is falsy. *)
Definition resetUserLimits (this : t) (userId : Z) (action : option string) : t :=
  let limits' :=
    match action with
    | Some (String a rest) =>
        delete (limit_key userId (String a rest)) (limits this)
    | _ =>
        let keys := (map_to_list (limits this)).*1 in
        let keysToDelete :=
          filter (λ key, Is_true (startsWith key (pretty userId +:+ ":"))) keys in
        foldl (λ m key, delete key m) (limits this) keysToDelete
    end in
  {| limits := limits'; rules := rules this;
     rules_prototype := rules_prototype this; vipUsers := vipUsers this |}.

Definition addVipUser (this : t) (userId : Z) : t :=
  {| limits := limits this; rules := rules this;
     rules_prototype := rules_prototype this;
     vipUsers := {[userId]} ∪ vipUsers this |}.

Definition removeVipUser (this : t) (userId : Z) : t :=
  {| limits := limits this; rules := rules this;
     rules_prototype := rules_prototype this;
     vipUsers := vipUsers this ∖ {[userId]} |}.

Definition isVipUser (this : t) (userId : Z) : bool :=
  bool_decide (userId ∈ vipUsers this).

(** [updateRule(action, rule)], the assignment [this.rules[action] = rule].
    It writes the property of the table's own; for the name [__proto__],
    which the table has as the accessor of [Object.prototype], it makes the
    rule object the prototype of the table and adds no property. *)
Definition updateRule (this : t) (action : string) (rule : RateLimitRule) : t :=
  match rules this !! action with
  | None =>
      if decide (action = "__proto__"%string) then
        {| limits := limits this; rules := rules this;
           rules_prototype := Some rule; vipUsers := vipUsers this |}
      else
        {| limits := limits this; rules := <[action := rule]> (rules this);
           rules_prototype := rules_prototype this;
           vipUsers := vipUsers this |}
  | Some _ =>
      {| limits := limits this; rules := <[action := rule]> (rules this);
         rules_prototype := rules_prototype this; vipUsers := vipUsers this |}
  end.

(** What the middleware of [createMiddleware(action)] does with an update:
    hand it on with [next()], with or without [ctx.rateLimit] set, or answer
    the user and stop. *)
Inductive MiddlewareOutcome :=
  | Next (rateLimit : option (number * number))
  | Replied (result : CheckResult).

(** [createMiddleware(action)] applied to an update whose [ctx.from?.id] is
    [from]; [None] is the exception of [checkLimit]. *)
Definition createMiddleware (action : string) (now : Z) (this : t)
    (from : option Z) : option (MiddlewareOutcome * t) :=
  match from with
  | None => Some (Next None, this)
  | Some userId =>
      if userId =? 0 then Some (Next None, this)
      else if isVipUser this userId then Some (Next None, this)
      else
        match checkLimit now this userId action with
        | None => None
        | Some (limitResult, this') =>
            if allowed limitResult
            then Some (Next (Some (remaining limitResult,
                                   result_resetTime limitResult)), this')
            else Some (Replied limitResult, this')
        end
  end.

(** Consecutive checks of one user and action at the given times; the
    results are listed in call order. *)
Fixpoint check_many (times : list Z) (this : t) (userId : Z) (action : string)
  : option (list CheckResult * t) :=
  match times with
  | [] => Some ([], this)
  | now :: times' =>
      match checkLimit now this userId action with
      | None => None
      | Some (r, this') =>
          match check_many times' this' userId action with
          | None => None
          | Some (rs, this'') => Some (r :: rs, this'')
          end
      end
  end.

(** One entry of what [getUserLimitInfo] returns. *)
Record LimitReport := mkReport {
  report_current : Z;
  report_max : Z;
  report_resetTime : Z;
  report_blocked : bool;
  report_violations : Z
}.

(** The entry of [getUserLimitInfo] for one [action] and its [rule]; the
    fallbacks [|| 0] and [|| now + rule.windowMs] replace a missing or zero
    number and [NaN]. *)
Definition report_for (now : Z) (this : t) (userId : Z) (action : string)
    (rule : RateLimitRule) : LimitReport :=
  let userLimit := limits this !! limit_key userId action in
  {| report_current :=
       match userLimit with Some ul => count ul | None => 0 end;
     report_max := maxRequests rule;
     report_resetTime :=
       match userLimit with
       | Some ul =>
           match resetTime ul with
           | Int r => if r =? 0 then now + windowMs rule else r
           | NaN => now + windowMs rule
           end
       | None => now + windowMs rule
       end;
     report_blocked := blocked_at now userLimit;
     report_violations :=
       match userLimit with Some ul => violations ul | None => 0 end |}.

(** [getUserLimitInfo(userId)] at time [now]: one entry for each action that
    the rule table has of its own. *)
Definition getUserLimitInfo (now : Z) (this : t) (userId : Z)
  : gmap string LimitReport :=
  map_imap (λ action rule, Some (report_for now this userId action rule))
    (rules this).



End RateLimitService.

(** ** The upstream client (first class of openRouterService.ts) *)

Module OpenRouterService.
Import Js.

(** [message.content] of a validated response: a string, or an array of
    blocks of which only the optional [text] matters. *)
Inductive Content :=
  | ContentString (s : jsstr)
  | ContentBlocks (texts : list (option jsstr)).

(** What [response.json()] and the schema make of a body. *)
Inductive Body :=
  | InvalidJson (message : string)
  | BadShape (message : string)
  | Parsed (content : Content).

(** What one [fetch] does: it rejects (network error, abort on timeout), or
    it resolves to a response with a status, the body as text and the body as
    parsed. *)
Inductive FetchOutcome :=
  | FetchRejected (message : string)
  | Response (status : Z) (text : string) (body : Body).

Definition response_ok (status : Z) : bool :=
  (200 <=? status) && (status <=? 299).

(** [extractContentText] *)
Definition extractContentText (content : Content) : jsstr :=
  match content with
  | ContentString s => s
  | ContentBlocks texts =>
      let textParts :=
        filter (λ s, Is_true (truthy s)) (map (default []) texts) in
      trim (join_lines textParts)
  end.

(** The body of [try] for one attempt: the content, or the message of the
    error that is thrown. *)
Definition attempt_once (outcome : FetchOutcome) : jsstr + string :=
  match outcome with
  | FetchRejected message => inr message
  | Response status text body =>
      if negb (response_ok status) then
        if (status =? 429) || (500 <=? status) then
          inr ("Сервис вернул статус "%string +:+ pretty status)
        else
          inr ("Ошибка OpenRouter: "%string +:+ pretty status +:+ " "%string +:+ text)
      else
        match body with
        | InvalidJson message => inr message
        | BadShape message =>
            inr ("Не удалось распарсить ответ OpenRouter: "%string +:+ message)
        | Parsed content =>
            let content := trim (extractContentText content) in
            if truthy content then inl content
            else inr "OpenRouter не вернул содержимое ответа."%string
        end
  end.

(** The counters of the instance and the pool of running calls.  A queued
    closure is named by the call it belongs to. *)
Record t := mk {
  totalRequests : Z;
  totalErrors : Z;
  currentRequests : Z;
  requestQueue : list nat
}.

Definition initial : t :=
  {| totalRequests := 0; totalErrors := 0; currentRequests := 0;
     requestQueue := [] |}.

Definition MAX_CONCURRENT_REQUESTS : Z := 5.

(** What the operation passed to [executeWithConcurrencyLimit] leaves behind:
    the value it returns or the message of the error it throws, the number of
    [fetch] calls it made and the delays it slept, in order. *)
Record CallReport := mkReport {
  outcome : jsstr + string;
  attempts : nat;
  delays : list Z
}.

(** The loop [while (attempt < 3)] of [callOpenRouter]; [fetch n] is what the
    [fetch] of the iteration entered with [attempt = n] does.  Each iteration
    that does not return adds one to [attempt], so [fuel = 3] covers the
    loop. *)
Fixpoint attempt_loop (fuel : nat) (fetch : Z → FetchOutcome) (attempt : Z)
    (lastError : option string) (made : nat) (slept : list Z) (this : t)
  : CallReport * t :=
  let exhausted :=
    (mkReport
       (inr ("Не удалось получить ответ от OpenRouter: " +:+
             default "Неизвестная ошибка" lastError)%string)
       made slept, this) in
  match fuel with
  | O => exhausted
  | S fuel' =>
      if attempt <? 3 then
        let this1 :=
          {| totalRequests := totalRequests this + 1;
             totalErrors := totalErrors this;
             currentRequests := currentRequests this;
             requestQueue := requestQueue this |} in
        match attempt_once (fetch attempt) with
        | inl content => (mkReport (inl content) (S made) slept, this1)
        | inr message =>
            let this2 :=
              {| totalRequests := totalRequests this1;
                 totalErrors := totalErrors this1 + 1;
                 currentRequests := currentRequests this1;
                 requestQueue := requestQueue this1 |} in
            let attempt' := attempt + 1 in
            let slept' :=
              if attempt' <? 3 then slept ++ [400 * 2 ^ (attempt' - 1)]
              else slept in
            attempt_loop fuel' fetch attempt' (Some message) (S made) slept' this2
        end
      else exhausted
  end.

(** The operation of [callOpenRouter] once it is dispatched. *)
Definition callOpenRouter_operation (fetch : Z → FetchOutcome) (this : t)
  : CallReport * t :=
  attempt_loop 3 fetch 0 None 0 [] this.

(** The synchronous start of [execute]: the counter goes up and the
    operation begins. *)
Definition execute_start (this : t) : t :=
  {| totalRequests := totalRequests this; totalErrors := totalErrors this;
     currentRequests := currentRequests this + 1;
     requestQueue := requestQueue this |}.

(** [executeWithConcurrencyLimit] for the call [id]: the state after it, and
    whether the call was started at once. *)
Definition executeWithConcurrencyLimit (this : t) (id : nat) : t * bool :=
  if currentRequests this <? MAX_CONCURRENT_REQUESTS then
    (execute_start this, true)
  else
    ({| totalRequests := totalRequests this; totalErrors := totalErrors this;
        currentRequests := currentRequests this;
        requestQueue := requestQueue this ++ [id] |}, false).

(** [processQueue]: the state after it, and the call it started, if any. *)
Definition processQueue (this : t) : t * option nat :=
  if (0 <? length (requestQueue this))%nat &&
     (currentRequests this <? MAX_CONCURRENT_REQUESTS) then
    match requestQueue this with
    | nextRequest :: rest =>
        (execute_start
           {| totalRequests := totalRequests this;
              totalErrors := totalErrors this;
              currentRequests := currentRequests this;
              requestQueue := rest |}, Some nextRequest)
    | [] => (this, None)
    end
  else (this, None).

(** The [finally] of [execute], run when the operation of a started call
    settles. *)
Definition execute_finally (this : t) : t * option nat :=
  processQueue
    {| totalRequests := totalRequests this; totalErrors := totalErrors this;
       currentRequests := currentRequests this - 1;
       requestQueue := requestQueue this |}.

(** *** The client under a schedule of events

    The event loop runs one of two things at a time: a caller submits a call,
    or the operation of a running call settles.  Next to the instance the
    system records which calls run and the orders of submission and of
    dispatch. *)
Inductive Event :=
  | Submit (id : nat)
  | Settle (id : nat).

Record System := mkSystem {
  service : t;
  running : list nat;
  submitted : list nat;
  dispatched : list nat
}.

(** Takes the settled call out of the calls that run. *)
Fixpoint remove_one (id : nat) (ids : list nat) : list nat :=
  match ids with
  | [] => []
  | x :: ids' => if decide (x = id) then ids' else x :: remove_one id ids'
  end.

Definition start : System :=
  {| service := initial; running := []; submitted := []; dispatched := [] |}.

Definition step (sys : System) (ev : Event) : option System :=
  match ev with
  | Submit id =>
      let '(svc, started) := executeWithConcurrencyLimit (service sys) id in
      Some {| service := svc;
              running := if started then running sys ++ [id] else running sys;
              submitted := submitted sys ++ [id];
              dispatched :=
                if started then dispatched sys ++ [id] else dispatched sys |}
  | Settle id =>
      if bool_decide (id ∈ running sys) then
        let '(svc, next) := execute_finally (service sys) in
        let others := remove_one id (running sys) in
        Some {| service := svc;
                running := others ++ option_list next;
                submitted := submitted sys;
                dispatched := dispatched sys ++ option_list next |}
      else None
  end.

Fixpoint run (sys : System) (evs : list Event) : option System :=
  match evs with
  | [] => Some sys
  | ev :: evs' =>
      match step sys ev with
      | Some sys' => run sys' evs'
      | None => None
      end
  end.

End OpenRouterService.

(** ** imageProcessor.ts *)

Module ImageProcessor.
Import Js.

Record ImageProcessorConfig := mkConfig {
  maxConcurrentProcessing : Z;
  requestTimeout : Z;
  maxRetries : Z
}.

(** The configuration of the exported instance. *)
Definition config : ImageProcessorConfig :=
  {| maxConcurrentProcessing := 3; requestTimeout := 180000; maxRetries := 2 |}.

Record ProcessingResult := mkResult {
  success : bool;
  result : option jsstr;
  error : option string;
  processingTime : Z
}.

(** A thrown value: an [Error] with its message, or anything else. *)
Inductive Thrown :=
  | JsError (message : string)
  | NotAnError.

(** [lastError instanceof Error ? lastError.message : 'Неизвестная ошибка'];
    before the first failure [lastError] is undefined. *)
Definition error_message (lastError : option Thrown) : string :=
  match lastError with
  | Some (JsError message) => message
  | _ => "Неизвестная ошибка"%string
  end.

(** What the world does during the attempt numbered [attempt]: how long
    [callOpenRouter] takes and how it settles, and by how much the timer of
    the backoff after the attempt overshoots. *)
Record AttemptWorld := mkWorld {
  call_duration : Z;
  call_outcome : jsstr + Thrown;
  sleep_overshoot : Z
}.

(** [Promise.race([callOpenRouter(...), timeoutPromise])]: the time the race
    takes and how it settles. *)
Definition race (cfg : ImageProcessorConfig) (w : AttemptWorld)
  : Z * (jsstr + Thrown) :=
  if call_duration w <? requestTimeout cfg then
    (call_duration w, call_outcome w)
  else
    (requestTimeout cfg, inr (JsError "Таймаут обработки изображения")).

(** The run of [executeImageProcessing] as the caller and the clock see it. *)
Record Execution := mkExecution {
  returned : ProcessingResult;
  attempts : nat;
  backoffs : list Z;
  finished_at : Z
}.

(** The loop [for (attempt = 1; attempt <= maxRetries; attempt++)]; [clock]
    is [Date.now()] when the iteration starts.  Every iteration adds one to
    [attempt], so [fuel = maxRetries] covers the loop. *)
Fixpoint retry_loop (fuel : nat) (cfg : ImageProcessorConfig)
    (world : Z → AttemptWorld) (startTime : Z) (attempt : Z)
    (lastError : option Thrown) (made : nat) (slept : list Z) (clock : Z)
  : Execution :=
  let failure :=
    mkExecution
      (mkResult false None
         (Some ("Не удалось обработать изображение после " +:+
                pretty (maxRetries cfg) +:+ " попыток: " +:+
                error_message lastError)%string)
         (clock - startTime))
      made slept clock in
  match fuel with
  | O => failure
  | S fuel' =>
      if attempt <=? maxRetries cfg then
        let '(elapsed, settled) := race cfg (world attempt) in
        let clock1 := clock + elapsed in
        match settled with
        | inl assistantReply =>
            mkExecution
              (mkResult true (Some assistantReply) None (clock1 - startTime))
              (S made) slept clock1
        | inr thrown =>
            if attempt <? maxRetries cfg then
              let delayMs := 1000 * 2 ^ (attempt - 1) in
              retry_loop fuel' cfg world startTime (attempt + 1) (Some thrown)
                (S made) (slept ++ [delayMs])
                (clock1 + delayMs + sleep_overshoot (world attempt))
            else
              retry_loop fuel' cfg world startTime (attempt + 1) (Some thrown)
                (S made) slept clock1
        end
      else failure
  end.

(** [executeImageProcessing] entered at time [startTime]. *)
Definition executeImageProcessing (cfg : ImageProcessorConfig)
    (world : Z → AttemptWorld) (startTime : Z) : Execution :=
  retry_loop (Z.to_nat (maxRetries cfg)) cfg world startTime 1 None 0 []
    startTime.

(** The job tables of the instance. *)
Record t := mk {
  processingJobs : gset string;
  processingStartTimes : gmap string Z
}.

Definition initial : t :=
  {| processingJobs := ∅; processingStartTimes := ∅ |}.

(** [`${job.userId}_${job.messageId}_${Date.now()}`] *)
Definition job_id (userId messageId now : Z) : string :=
  pretty userId +:+ "_" +:+ pretty messageId +:+ "_" +:+ pretty now.

(** The synchronous head of [processImageAsync]: a job whose id is in the
    table is refused with an error, any other is entered. *)
Definition processImageAsync_register (this : t) (userId messageId now : Z)
  : option t :=
  let jobId := job_id userId messageId now in
  if bool_decide (jobId ∈ processingJobs this) then None
  else
    Some {| processingJobs := {[jobId]} ∪ processingJobs this;
            processingStartTimes := <[jobId := now]> (processingStartTimes this) |}.

(** The [finally] of [processImageAsync]. *)
Definition processImageAsync_cleanup (this : t) (jobId : string) : t :=
  {| processingJobs := processingJobs this ∖ {[jobId]};
     processingStartTimes := delete jobId (processingStartTimes this) |}.

(** [isProcessingForUser] *)
Definition isProcessingForUser (this : t) (userId : Z) : bool :=
  existsb (λ jobId, startsWith jobId (pretty userId +:+ "_"))
    (elements (processingJobs this)).

(** [getActiveJobsForUser] *)
Definition getActiveJobsForUser (this : t) (userId : Z) : nat :=
  length (filter (λ jobId, Is_true (startsWith jobId (pretty userId +:+ "_")))
            (elements (processingJobs this))).


(** The counters of [stats].  [averageProcessingTime] is a mean computed in
    floating point that nothing else reads; it is left out. *)
Record Stats := mkStats {
  totalProcessed : Z;
  totalSuccess : Z;
  totalFailed : Z;
  activeJobs : Z
}.

(** The instance: the job tables and the counters. *)
Record Instance := mkInstance {
  tables : t;
  stats : Stats
}.

Definition fresh : Instance :=
  {| tables := initial; stats := mkStats 0 0 0 0 |}.

(** [updateStats(success, processingTime)], the counters of it. *)
Definition updateStats (st : Stats) (success : bool) : Stats :=
  {| totalProcessed := totalProcessed st + 1;
     totalSuccess := if success then totalSuccess st + 1 else totalSuccess st;
     totalFailed := if success then totalFailed st else totalFailed st + 1;
     activeJobs := activeJobs st |}.


(** [processImageAsync] from its [await] on.  The promise of the job
    resolves to a result or is rejected; the method returns the answer or
    throws, and its [finally] takes the job out of the tables. *)
Definition processImageAsync_settle (this : Instance) (jobId : string)
    (settled : ProcessingResult + Thrown) : (jsstr + Thrown) * Instance :=
  let finish (st : Stats) :=
    {| tables := processImageAsync_cleanup (tables this) jobId;
       stats :=
         {| totalProcessed := totalProcessed st;
            totalSuccess := totalSuccess st;
            totalFailed := totalFailed st;
            activeJobs := activeJobs st - 1 |} |} in
  match settled with
  | inl res =>
      let st1 := updateStats (stats this) true in
      if success res && truthy (default [] (result res)) then
        (inl (default [] (result res)), finish st1)
      else
        let message :=
          match error res with
          | Some (String a rest) => String a rest
          | _ => "Ошибка обработки изображения"%string
          end in
        (inr (JsError message), finish (updateStats st1 false))
  | inr thrown =>
      (inr thrown, finish (updateStats (stats this) false))
  end.

End ImageProcessor.

(** ** Admission of heavy requests (bot.ts and the image handler) *)

Module Bot.
Import Js.

(** [userActiveRequests] of the bot, the image processor it shares with the
    image handler, and the image handlers that passed the admission test and
    wait for the status message and the file before they create their job
    (user and message of each). *)
Record t := mk {
  userActiveRequests : gmap Z bool;
  imageProcessor : ImageProcessor.t;
  awaiting : list (Z * Z)
}.

Definition initial : t :=
  {| userActiveRequests := ∅; imageProcessor := ImageProcessor.initial;
     awaiting := [] |}.

(** [this.userActiveRequests.has(userId)] *)
Definition isUserRequestActive (this : t) (userId : Z) : bool :=
  bool_decide (is_Some (userActiveRequests this !! userId)).

(** The head of [processTextMessage], up to the first [await]: [true] and the
    flag set when the request is admitted, [false] and no change when it is
    turned away. *)
Definition processTextMessage_admit (this : t) (userId : Z) : bool * t :=
  let isActive := isUserRequestActive this userId in
  let isProcessingImage :=
    ImageProcessor.isProcessingForUser (imageProcessor this) userId in
  if isActive || isProcessingImage then (false, this)
  else
    (true,
     {| userActiveRequests := <[userId := true]> (userActiveRequests this);
        imageProcessor := imageProcessor this;
        awaiting := awaiting this |}).

(** The [finally] of [processTextMessage], and the emergency timer. *)
Definition processTextMessage_release (this : t) (userId : Z) : t :=
  {| userActiveRequests := delete userId (userActiveRequests this);
     imageProcessor := imageProcessor this;
     awaiting := awaiting this |}.

(** The image handler up to its first [await] after the checks of model and
    rate: the admission test.  A handler that passes goes on to await the
    status message and the file. *)
Definition imageHandler_check (this : t) (userId messageId : Z) : bool * t :=
  if isUserRequestActive this userId ||
     ImageProcessor.isProcessingForUser (imageProcessor this) userId
  then (false, this)
  else
    (true,
     {| userActiveRequests := userActiveRequests this;
        imageProcessor := imageProcessor this;
        awaiting := awaiting this ++ [(userId, messageId)] |}).

(** The image handler after its awaits: it calls [processImageAsync], which
    enters the job.  [None] when no handler awaits for this message or the
    job id is taken. *)
Definition imageHandler_submit (this : t) (userId messageId now : Z) : option t :=
  if bool_decide ((userId, messageId) ∈ awaiting this) then
    match ImageProcessor.processImageAsync_register (imageProcessor this)
            userId messageId now with
    | Some ip =>
        Some {| userActiveRequests := userActiveRequests this;
                imageProcessor := ip;
                awaiting := filter (λ p, p ≠ (userId, messageId)) (awaiting this) |}
    | None => None
    end
  else None.

(** The job of an image settles. *)
Definition image_settled (this : t) (jobId : string) : t :=
  {| userActiveRequests := userActiveRequests this;
     imageProcessor :=
       ImageProcessor.processImageAsync_cleanup (imageProcessor this) jobId;
     awaiting := awaiting this |}.

(** The heavy requests registered for a user: the flag of the text path and
    the jobs of the image processor. *)
Definition heavy_requests (this : t) (userId : Z) : nat :=
  ((if isUserRequestActive this userId then 1 else 0) +
   ImageProcessor.getActiveJobsForUser (imageProcessor this) userId)%nat.

(** What the event loop runs, one at a time. *)
Inductive Event :=
  | TextArrives (userId : Z)
  | TextSettles (userId : Z)
  | PhotoArrives (userId messageId : Z)
  | PhotoReady (userId messageId now : Z)
  | PhotoSettles (jobId : string).

Definition step (this : t) (ev : Event) : option t :=
  match ev with
  | TextArrives userId => Some (processTextMessage_admit this userId).2
  | TextSettles userId => Some (processTextMessage_release this userId)
  | PhotoArrives userId messageId => Some (imageHandler_check this userId messageId).2
  | PhotoReady userId messageId now => imageHandler_submit this userId messageId now
  | PhotoSettles jobId => Some (image_settled this jobId)
  end.

Fixpoint run (this : t) (evs : list Event) : option t :=
  match evs with
  | [] => Some this
  | ev :: evs' =>
      match step this ev with
      | Some this' => run this' evs'
      | None => None
      end
  end.


(** [getFriendlyErrorMessage] *)
Definition getFriendlyErrorMessage (message : string) : string :=
  if includes message "401" then
    "❌ Ошибка авторизации в OpenRouter. Проверьте API-ключ и доступы."%string
  else if includes message "403" ||
          includes message "not available in your region" then
    "🔧 Сервер не работает в данный момент. Попробуйте зайти позже."%string
  else ("❌ Ошибка: " +:+ message)%string.

End Bot.

(** ** utils/keyboards.ts: the keyboard of a paginated answer *)

Module Keyboards.
Import Js.

(** [Markup.button.callback(text, data)] *)
Record Button := mkButton {
  text : string;
  data : string
}.

(** An inline keyboard: rows of buttons. *)
Abbreviation InlineKeyboard := (list (list Button)).

(** [buildPaginationKeyboard(total, current, chatId, messageId)] *)
Definition buildPaginationKeyboard (total current chatId messageId : Z)
  : InlineKeyboard :=
  let navigation :=
    (if 0 <? current
     then [mkButton "⬅️ Назад"
             ("page:prev:" +:+ pretty chatId +:+ ":" +:+ pretty messageId)]
     else []) ++
    (if current <? total - 1
     then [mkButton "Далее ➡️"
             ("page:next:" +:+ pretty chatId +:+ ":" +:+ pretty messageId)]
     else []) in
  match navigation with
  | [] => [[mkButton "✖️ Закрыть" ("noop:" +:+ pretty chatId)]]
  | _ => [navigation]
  end%string.

End Keyboards.

(** ** messageService.ts: delivery and navigation *)

Module Pagination.
Import Js Keyboards.

Record PaginationState := mkState {
  pages : list jsstr;
  currentIndex : Z
}.

(** The instance with its [paginationStates]. *)
Record t := mk {
  service : MessageService.t;
  paginationStates : gmap string PaginationState
}.

Definition empty : t :=
  {| service := MessageService.empty; paginationStates := ∅ |}.

(** [`${chatId}:${messageId}`] *)
Definition state_key (chatId messageId : Z) : string :=
  pretty chatId +:+ ":" +:+ pretty messageId.

Inductive Direction := prev | next.

(** What [handlePagination] tells the user: one of three notices, or the
    page it puts into the message, with the keyboard. *)
Inductive Answer :=
  | NoData
  | NotFound
  | NoFurtherPages
  | Shown (page : option jsstr) (keyboard : InlineKeyboard).

(** [handlePagination(ctx, direction)]; [message] is the chat and the id of
    [ctx.callbackQuery.message], if there is one. *)
Definition handlePagination (this : t) (message : option (Z * Z))
    (direction : Direction) : Answer * t :=
  match message with
  | None => (NoData, this)
  | Some (chatId, messageId) =>
      let key := state_key chatId messageId in
      match paginationStates this !! key with
      | None => (NotFound, this)
      | Some state =>
          let nextIndex :=
            match direction with
            | next => currentIndex state + 1
            | prev => currentIndex state - 1
            end in
          if (nextIndex <? 0) || (Z.of_nat (length (pages state)) <=? nextIndex)
          then (NoFurtherPages, this)
          else
            let state' := mkState (pages state) nextIndex in
            (Shown (pages state !! Z.to_nat nextIndex)
               (buildPaginationKeyboard (Z.of_nat (length (pages state)))
                  nextIndex chatId messageId),
             {| service := service this;
                paginationStates := <[key := state']> (paginationStates this) |})
      end
  end.

(** [getPaginationState] *)
Definition getPaginationState (this : t) (chatId messageId : Z)
  : option PaginationState :=
  paginationStates this !! state_key chatId messageId.

(** [clearChatPaginationStates] *)
Definition clearChatPaginationStates (this : t) (chatId : Z) : t :=
  let keys := (map_to_list (paginationStates this)).*1 in
  let keysToDelete :=
    filter (λ key, Is_true (startsWith key (pretty chatId +:+ ":"))) keys in
  {| service := service this;
     paginationStates :=
       foldl (λ m key, delete key m) (paginationStates this) keysToDelete |}.

(** What [sendAnswer] asks of the transport, in order. *)
Inductive Delivery :=
  | EditMessage (chatId messageId : Z) (text : option jsstr)
      (keyboard : option InlineKeyboard)
  | DeleteMessage (chatId messageId : Z)
  | ReplyWithMenu (text : option jsstr)
  | ReplyWithKeyboard (text : option jsstr) (keyboard : InlineKeyboard).

(** [sendAnswer(ctx, text, statusMessage, ...)] for the status message
    [messageId] of chat [chatId]; [edited] is whether the transport accepts
    the edit of the status message. *)
Definition sendAnswer (this : t) (text : jsstr) (chatId messageId : Z)
    (edited : bool) : list Delivery * t :=
  let '(formatted, service1) := MessageService.formatResponse (service this) text in
  let '(pages, service2) := MessageService.splitMessage service1 formatted in
  let key := state_key chatId messageId in
  if (length pages =? 1)%nat then
    ((EditMessage chatId messageId (pages !! 0%nat) None ::
      if edited then []
      else [DeleteMessage chatId messageId; ReplyWithMenu (pages !! 0%nat)]),
     {| service := service2;
        paginationStates := delete key (paginationStates this) |})
  else
    let keyboard :=
      buildPaginationKeyboard (Z.of_nat (length pages)) 0 chatId messageId in
    ((EditMessage chatId messageId (pages !! 0%nat) (Some keyboard) ::
      if edited then []
      else [DeleteMessage chatId messageId;
            ReplyWithKeyboard (pages !! 0%nat) keyboard]),
     {| service := service2;
        paginationStates :=
          <[key := mkState pages 0]> (paginationStates this) |}).

End Pagination.

(** ** services/userService.ts: histories and tracked messages *)

Module UserService.
Import Js.

Definition MAX_USERS_IN_MEMORY : nat := 1000.
Definition MAX_HISTORY : nat := 10.

(** [map.set(key, value)] on a [Map], which keeps its entries in the order
    of their first insertion. *)
Fixpoint map_set (key value : Z) (entries : list (Z * Z)) : list (Z * Z) :=
  match entries with
  | [] => [(key, value)]
  | (k, v) :: rest =>
      if decide (k = key) then (key, value) :: rest
      else (k, v) :: map_set key value rest
  end.

(** [map.delete(key)] *)
Definition map_delete (key : Z) (entries : list (Z * Z)) : list (Z * Z) :=
  filter (λ entry, entry.1 ≠ key) entries.

(** [entries.sort(([, a], [, b]) => a - b)]: the entries by their time, those
    of equal time in the order they had. *)
Fixpoint insert_by_time (entry : Z * Z) (sorted : list (Z * Z))
  : list (Z * Z) :=
  match sorted with
  | [] => [entry]
  | e :: rest =>
      if entry.2 <=? e.2 then entry :: sorted
      else e :: insert_by_time entry rest
  end.

Definition sort_by_time (entries : list (Z * Z)) : list (Z * Z) :=
  foldr insert_by_time [] entries.

Section messages.

(** The messages of a history are values of any kind ([any[]]). *)
Context {Message : Type}.

(** The tables of the instance that the functions embedded here use.
    [userSettings] is not read or written by them; the writes to the files
    are left out. *)
Record t := mk {
  userHistories : gmap Z (list Message);
  userBotMessages : gmap Z (gset Z);
  userAllMessages : gmap Z (gset Z);
  userAccessTime : list (Z * Z)
}.

Definition empty : t :=
  {| userHistories := ∅; userBotMessages := ∅; userAllMessages := ∅;
     userAccessTime := [] |}.

(** The body of the loop of [cleanupOldUsers] for the user [userId]. *)
Definition forget (this : t) (userId : Z) : t :=
  {| userHistories := delete userId (userHistories this);
     userBotMessages := delete userId (userBotMessages this);
     userAllMessages := delete userId (userAllMessages this);
     userAccessTime := map_delete userId (userAccessTime this) |}.

(** [cleanupOldUsers] *)
Definition cleanupOldUsers (this : t) : t :=
  if (size (userHistories this) <=? MAX_USERS_IN_MEMORY)%nat then this
  else
    let sortedUsers :=
      take (size (userHistories this) - MAX_USERS_IN_MEMORY)
        (sort_by_time (userAccessTime this)) in
    foldl (λ st entry, forget st entry.1) this sortedUsers.

(** [updateUserAccess(userId)] at time [now]; [lucky] is whether
    [Math.random()] came out below 0.01. *)
Definition updateUserAccess (now : Z) (lucky : bool) (this : t) (userId : Z) : t :=
  let this1 :=
    {| userHistories := userHistories this;
       userBotMessages := userBotMessages this;
       userAllMessages := userAllMessages this;
       userAccessTime := map_set userId now (userAccessTime this) |} in
  if lucky then cleanupOldUsers this1 else this1.

Definition set_history (this : t) (userId : Z) (history : list Message) : t :=
  {| userHistories := <[userId := history]> (userHistories this);
     userBotMessages := userBotMessages this;
     userAllMessages := userAllMessages this;
     userAccessTime := userAccessTime this |}.

(** [buildHistory(userId)]: the history of the user, which is the array
    that the table holds, and the instance after the call. *)
Definition buildHistory (now : Z) (lucky : bool) (this : t) (userId : Z)
  : list Message * t :=
  let this1 := updateUserAccess now lucky this userId in
  match userHistories this1 !! userId with
  | Some history => (history, this1)
  | None => ([], set_history this1 userId [])
  end.

(** [appendToHistory(userId, message)]: the array in the table is pushed to
    and cut at its front. *)
Definition appendToHistory (now : Z) (lucky : bool) (this : t) (userId : Z)
    (message : Message) : t :=
  let '(history, this1) := buildHistory now lucky this userId in
  let pushed := history ++ [message] in
  let kept :=
    if (MAX_HISTORY <? length pushed)%nat
    then drop (length pushed - MAX_HISTORY) pushed
    else pushed in
  set_history this1 userId kept.

(** [resetHistory(userId)] *)
Definition resetHistory (now : Z) (lucky : bool) (this : t) (userId : Z) : t :=
  set_history (updateUserAccess now lucky this userId) userId [].

(** [getUserBotMessages] and [getUserAllMessages] *)
Definition getUserBotMessages (this : t) (userId : Z) : gset Z :=
  default ∅ (userBotMessages this !! userId).

Definition getUserAllMessages (this : t) (userId : Z) : gset Z :=
  default ∅ (userAllMessages this !! userId).

(** [trackUserMessage(userId, messageId)] *)
Definition trackUserMessage (this : t) (userId messageId : Z) : t :=
  {| userHistories := userHistories this;
     userBotMessages := userBotMessages this;
     userAllMessages :=
       <[userId := {[messageId]} ∪ getUserAllMessages this userId]>
         (userAllMessages this);
     userAccessTime := userAccessTime this |}.

(** [trackBotMessage(userId, messageId)] *)
Definition trackBotMessage (this : t) (userId messageId : Z) : t :=
  {| userHistories := userHistories this;
     userBotMessages :=
       <[userId := {[messageId]} ∪ getUserBotMessages this userId]>
         (userBotMessages this);
     userAllMessages :=
       <[userId := {[messageId]} ∪ getUserAllMessages this userId]>
         (userAllMessages this);
     userAccessTime := userAccessTime this |}.

(** [clearUserMessages(userId)] *)
Definition clearUserMessages (this : t) (userId : Z) : t :=
  {| userHistories := userHistories this;
     userBotMessages := <[userId := ∅]> (userBotMessages this);
     userAllMessages := <[userId := ∅]> (userAllMessages this);
     userAccessTime := userAccessTime this |}.

(** The calls that write the tables, with the time and the draw of those
    that note the access. *)
Inductive Call :=
  | BuildHistory (now : Z) (lucky : bool) (userId : Z)
  | AppendToHistory (now : Z) (lucky : bool) (userId : Z) (message : Message)
  | ResetHistory (now : Z) (lucky : bool) (userId : Z)
  | TrackUserMessage (userId messageId : Z)
  | TrackBotMessage (userId messageId : Z)
  | ClearUserMessages (userId : Z).

Definition call (this : t) (c : Call) : t :=
  match c with
  | BuildHistory now lucky userId => (buildHistory now lucky this userId).2
  | AppendToHistory now lucky userId message =>
      appendToHistory now lucky this userId message
  | ResetHistory now lucky userId => resetHistory now lucky this userId
  | TrackUserMessage userId messageId => trackUserMessage this userId messageId
  | TrackBotMessage userId messageId => trackBotMessage this userId messageId
  | ClearUserMessages userId => clearUserMessages this userId
  end.

End messages.

Arguments t : clear implicits.
Arguments Call : clear implicits.

End UserService.

(* ===================================================================== *)
(** * Part II: the terms of the statements

    Predicates over the embedded program that the properties are stated
    with, and the inputs on which the program is evaluated. *)
(* ===================================================================== *)

(** ** Decimal renderings *)

Module KeyTerms.
Import Js.

(** The characters of a string. *)
Fixpoint chars (s : string) : list ascii :=
  match s with
  | EmptyString => []
  | String a s' => a :: chars s'
  end.

(** A decimal digit or the minus sign. *)
Definition is_digit_or_minus (a : ascii) : Prop :=
  a ∈ chars "-0123456789".

End KeyTerms.

(** ** The rate limiter *)

Module RateLimitTerms.
Import Js RateLimitService.

(** The state in which user 7 is a VIP and nothing was checked yet. *)
Definition vip_state : t := addVipUser initial 7.

(** The first check of a window: no record, or a record whose window is over
    and whose block, if any, has ended. *)
Definition window_starts (now : Z) (this : t) (userId : Z) (action : string)
  : Prop :=
  let userLimit := limits this !! limit_key userId action in
  blocked_at now userLimit = false ∧
  match userLimit with
  | None => True
  | Some info => after now (resetTime info) = true
  end.

(** The times of eleven photos, one second apart. *)
Definition eleven_photos : list Z := (λ i, 1000 * i) <$> seqZ 1 11.

(** The rule whose block duration is given as zero. *)
Definition zero_block_state : t := updateRule initial "ping" (mkRule 1 1000 (Some 0)).

End RateLimitTerms.

(** ** The upstream client *)

Module OpenRouterTerms.
Import Js OpenRouterService.

(** The upstream that answers 400 once and then with the text "hi". *)
Definition fetch_400_then_hi (attempt : Z) : FetchOutcome :=
  if attempt =? 0 then Response 400 "bad request" (InvalidJson "")
  else Response 200 "" (Parsed (ContentString [104; 105]%N)).

(** What holds of the client between two events: the counter is the number
    of calls that run, at most five of them; a call waits only while five
    run; and the calls dispatched so far, followed by the waiting ones, are
    the calls submitted so far, in their order. *)
Record pool_inv (sys : System) : Prop := {
  inv_counter : currentRequests (service sys) = Z.of_nat (length (running sys));
  inv_cap : (length (running sys) ≤ 5)%nat;
  inv_full : requestQueue (service sys) ≠ [] →
             currentRequests (service sys) = MAX_CONCURRENT_REQUESTS;
  inv_order : dispatched sys ++ requestQueue (service sys) = submitted sys
}.

(** Seven calls are submitted, call 3 completes, call 9 is submitted, call 0
    completes. *)
Definition busy_schedule : list Event :=
  map Submit (seq 0 7) ++ [Settle 3; Submit 9; Settle 0]%nat.

End OpenRouterTerms.

(** ** Image jobs *)

Module ImageTerms.
Import Js ImageProcessor.

(** The pause after the failed attempt numbered [attempt]. *)
Definition backoff (attempt : Z) : Z := 1000 * 2 ^ (attempt - 1).

(** The sum of a list of pauses. *)
Definition total (l : list Z) : Z := foldr Z.add 0 l.

(** A world in which every call fails after 5 ms with the message "boom". *)
Definition always_boom (attempt : Z) : AttemptWorld :=
  {| call_duration := 5; call_outcome := inr (JsError "boom");
     sleep_overshoot := 0 |}.

End ImageTerms.

(** ** Admission *)

Module AdmissionTerms.
Import Js Bot.

(** The schedule: a photo of user 1 passes the admission test and its
    handler awaits; a text of the same user arrives and is admitted; the
    handler of the photo resumes and creates its job. *)
Definition photo_then_text : list Event :=
  [PhotoArrives 1 5; TextArrives 1; PhotoReady 1 5 1000].

End AdmissionTerms.

(** ** Formatting and pagination *)

Module TextTerms.
Import Js MessageService.

Local Open Scope nat_scope.

(** Some line of [s] begins with the sparkles glyph; [bol] says whether [s]
    itself begins a line. *)
Fixpoint line_starts_with_sparkles (bol : bool) (s : jsstr) : bool :=
  match s with
  | [] => false
  | c :: s' =>
      (bol && (c =? SPARKLES)%N) ||
      line_starts_with_sparkles (is_line_terminator c) s'
  end.

(** No run of line feeds in [s] has a third member, [run] line feeds
    standing before [s]. *)
Fixpoint runs_short (run : nat) (s : jsstr) : bool :=
  match s with
  | [] => true
  | c :: s' =>
      if (c =? LF)%N then (run <? 2)%nat && runs_short (S run) s'
      else runs_short 0 s'
  end.

(** The text "✨✨x". *)
Definition two_sparkles : jsstr := [SPARKLES; SPARKLES; 120%N].

(** The text "  ━━━ hi\n\n\n\nthere  ". *)
Definition decorated : jsstr :=
  [SP; SP; HEAVY_RULE; HEAVY_RULE; HEAVY_RULE; SP; 104; 105; LF; LF; LF; LF;
   116; 104; 101; 114; 101; SP; SP]%N.

(** The text without its white space. *)
Definition strip_ws (s : jsstr) : jsstr := filter (λ c, is_ws c = false) s.

(** [wordChunk] after a word is added to it. *)
Definition glue (wordChunk word : jsstr) : jsstr :=
  wordChunk ++ (if truthy wordChunk then [SP] else []) ++ word.

(** [if (chunk) chunks.push(chunk.trim())] *)
Definition push_truthy (chunks : list jsstr) (chunk : jsstr) : list jsstr :=
  if truthy chunk then chunks ++ [trim chunk] else chunks.

(** A text of white space only. *)
Definition all_ws (s : jsstr) : Prop := Forall (λ c, is_ws c = true) s.

(** [covers pages s]: the text [s] is the pages in their order, with
    nothing but white space before, between and after them. *)
Inductive covers : list jsstr → jsstr → Prop :=
  | covers_nil gap : all_ws gap → covers [] gap
  | covers_cons gap page pages rest :
      all_ws gap → covers pages rest →
      covers (page :: pages) (gap ++ page ++ rest).

(** Words, each with a space in front. *)
Definition spaced (words : list jsstr) : jsstr :=
  concat (map (λ w, SP :: w) words).

(** Paragraphs, each with a blank line in front. *)
Definition blanked (paragraphs : list jsstr) : jsstr :=
  concat (map (λ p, LF :: LF :: p) paragraphs).

(** A word of 3501 letters "a". *)
Definition long_word : jsstr := repeat 97%N 3501.

(** A space and 3500 letters "a". *)
Definition space_then_word : jsstr := SP :: repeat 97%N 3500.

(** 1750 letters "a", a space, 1750 letters "a". *)
Definition two_words : jsstr := repeat 97%N 1750 ++ SP :: repeat 97%N 1750.

End TextTerms.

(** ** The pages with the boundaries they end at *)

Module CutTerms.
Import Js MessageService.

Local Open Scope nat_scope.

(** Where a page ends: at the end of a paragraph (the pushes of
    [current.trim()] and the push after the loop over the words), or at a
    space inside a paragraph (the push inside the loop over the words). *)
Inductive Boundary := ParagraphEnd | WordEnd.

(** What [split] took away at the boundary. *)
Definition separator (b : Boundary) : jsstr :=
  match b with
  | ParagraphEnd => [LF; LF]
  | WordEnd => [SP]
  end.

(** [word_step], [paragraph_step] and [split_pages] again, each page now
    paired with the boundary it ends at. *)
Definition word_step_cuts (st : list (jsstr * Boundary) * jsstr) (word : jsstr)
  : list (jsstr * Boundary) * jsstr :=
  let '(chunks, wordChunk) := st in
  if length wordChunk + length word + 1 <=? MAX_PAGE_LENGTH then
    (chunks, wordChunk ++ (if truthy wordChunk then [SP] else []) ++ word)
  else
    ((if truthy wordChunk then chunks ++ [(trim wordChunk, WordEnd)]
      else chunks), word).

Definition paragraph_step_cuts (st : list (jsstr * Boundary) * jsstr)
    (paragraph : jsstr) : list (jsstr * Boundary) * jsstr :=
  let '(chunks, current) := st in
  if length current + length paragraph + 2 <=? MAX_PAGE_LENGTH then
    (chunks, current ++ (if truthy current then [LF; LF] else []) ++ paragraph)
  else
    let chunks1 :=
      if truthy current then chunks ++ [(trim current, ParagraphEnd)]
      else chunks in
    if MAX_PAGE_LENGTH <? length paragraph then
      let words := split_space paragraph in
      let '(chunks2, wordChunk) := fold_left word_step_cuts words (chunks1, []) in
      ((if truthy wordChunk then chunks2 ++ [(trim wordChunk, ParagraphEnd)]
        else chunks2), [])
    else
      (chunks1, paragraph).

Definition split_pages_cuts (text : jsstr) : list (jsstr * Boundary) :=
  if length text <=? MAX_PAGE_LENGTH then [(text, ParagraphEnd)]
  else
    let paragraphs := split_blank_line text in
    let '(chunks, current) :=
      fold_left paragraph_step_cuts paragraphs ([], []) in
    if truthy current then chunks ++ [(trim current, ParagraphEnd)] else chunks.

(** The pages put together again, with [fill b] between a page that ends at
    the boundary [b] and the page after it. *)
Fixpoint rejoin_with (fill : Boundary → jsstr) (pages : list (jsstr * Boundary))
  : jsstr :=
  match pages with
  | [] => []
  | [(page, _)] => page
  | (page, b) :: rest => page ++ fill b ++ rejoin_with fill rest
  end.

(** The blank line where a paragraph ended and nothing where a word
    ended. *)
Definition blank_line_only (b : Boundary) : jsstr :=
  match b with
  | ParagraphEnd => [LF; LF]
  | WordEnd => []
  end.

(** A piece that is not empty and has no white space at either end. *)
Definition tight (s : jsstr) : bool :=
  truthy s && bool_decide (trim s = s).

(** A paragraph that is tight, and whose words are tight when it is longer
    than a page. *)
Definition paragraph_ok (paragraph : jsstr) : bool :=
  tight paragraph &&
  (if MAX_PAGE_LENGTH <? length paragraph
   then forallb tight (split_space paragraph) else true).

(** No white space where the text can be cut. *)
Definition no_artifacts (text : jsstr) : bool :=
  forallb paragraph_ok (split_blank_line text).

(** The state of a loop without the boundaries. *)
Definition erase (st : list (jsstr * Boundary) * jsstr) : list jsstr * jsstr :=
  (st.1.*1, st.2).

(** A chunk under construction: empty, or tight. *)
Definition chunk_ok (s : jsstr) : Prop := s = [] ∨ tight s = true.

(** The pages so far, each with what [split] took away after it. *)
Definition flat (chunks : list (jsstr * Boundary)) : jsstr :=
  concat (map (λ pb, pb.1 ++ separator pb.2) chunks).

(** The pages so far and the chunk under construction, each paragraph
    followed by the blank line. *)
Definition emitted (st : list (jsstr * Boundary) * jsstr) : jsstr :=
  flat st.1 ++ (if truthy st.2 then st.2 ++ [LF; LF] else []).

(** Paragraphs, each with a blank line after it. *)
Definition terminated (paragraphs : list jsstr) : jsstr :=
  concat (map (λ p, p ++ [LF; LF]) paragraphs).

(** The last page pushed, if any, ends a paragraph. *)
Definition ends_paragraph (chunks : list (jsstr * Boundary)) : Prop :=
  ∀ page b, last chunks = Some (page, b) → b = ParagraphEnd.

(** 3000 letters "a", a blank line, 2000 letters "b", a space and 2000
    letters "c". *)
Definition three_pages : jsstr :=
  repeat 97%N 3000 ++ [LF; LF] ++ repeat 98%N 2000 ++ SP :: repeat 99%N 2000.

End CutTerms.

(** ** The rate limiter: reports, sweeps and blocks *)

Module LimiterTerms.
Import Js RateLimitService.

(** Every window of a user and an action that has a rule counts between
    zero and the maximum of the rule. *)
Definition counts_bounded (this : t) : Prop :=
  ∀ userId action info rule,
    limits this !! limit_key userId action = Some info →
    rule_for this action = VRule rule →
    0 ≤ count info ≤ Z.max 0 (maxRequests rule).

(** A state in which user 7 has used up the five changes of settings of a
    minute and is blocked until 61005. *)
Definition blocked_state : t :=
  set_limit initial (limit_key 7 "settings_change")
    (mkInfo 5 (Int 61000) (Some 61005) 1).

End LimiterTerms.

(** ** The upstream client: budget of attempts, answers, draining *)

Module ClientTerms.
Import Js OpenRouterService.

(** The message of the error that [callOpenRouter] throws when its
    attempts are used up. *)
Definition exhausted_message (last : string) : string :=
  "Не удалось получить ответ от OpenRouter: " +:+ last.

(** An upstream that answers every call with status 401 and the body
    "denied". *)
Definition always_401 (attempt : Z) : FetchOutcome :=
  Response 401 "denied" (InvalidJson "").

(** An answer in three blocks: no text, the text "hi" and an empty text. *)
Definition hi_in_blocks : FetchOutcome :=
  Response 200 "" (Parsed (ContentBlocks [None; Some [104; 105]%N; Some []])).

End ClientTerms.

(** ** The pool of the upstream client, drained *)

Module DrainTerms.
Import Js OpenRouterService.

Definition is_settle (ev : Event) : bool :=
  match ev with Settle _ => true | Submit _ => false end.

(** The calls that were submitted and have not completed. *)
Definition pending (sys : System) : nat :=
  (length (running sys) + length (requestQueue (service sys)))%nat.

(** Seven calls are submitted. *)
Definition seven_submitted : list Event := map Submit (seq 0 7).

(** The seven calls complete, in an order that the pool allows. *)
Definition seven_settled : list Event :=
  map Settle [2; 0; 5; 1; 6; 4; 3]%nat.

End DrainTerms.

(** ** Image jobs: success, time-out and the counters *)

Module JobTerms.
Import Js ImageProcessor.

(** A world in which the first call fails after 5 ms and the second answers
    "ok" after 7 ms. *)
Definition boom_then_ok (attempt : Z) : AttemptWorld :=
  if attempt =? 1
  then {| call_duration := 5; call_outcome := inr (JsError "boom");
          sleep_overshoot := 0 |}
  else {| call_duration := 7; call_outcome := inl [111; 107]%N;
          sleep_overshoot := 0 |}.

(** A world in which no call answers within four minutes. *)
Definition never_answers (attempt : Z) : AttemptWorld :=
  {| call_duration := 240000; call_outcome := inl [111; 107]%N;
     sleep_overshoot := 0 |}.

(** The jobs settle one after the other. *)
Definition settle_all (this : Instance)
    (settled : list (string * (ProcessingResult + Thrown))) : Instance :=
  foldl (λ this job, (processImageAsync_settle this job.1 job.2).2) this settled.

(** The promise of the job resolved: [executeImageProcessing] returned a
    result, good or bad. *)
Definition resolved (job : string * (ProcessingResult + Thrown)) : bool :=
  match job.2 with inl _ => true | inr _ => false end.

(** [processImageAsync] returns the answer of the job. *)
Definition answered (job : string * (ProcessingResult + Thrown)) : bool :=
  match job.2 with
  | inl res => success res && truthy (default [] (result res))
  | inr _ => false
  end.

(** The number of members of a list that pass a test. *)
Definition count_of {A} (test : A → bool) (l : list A) : Z :=
  Z.of_nat (length (filter (λ x, Is_true (test x)) l)).


End JobTerms.

(** ** Turning pages *)

Module NavigationTerms.
Import Js Keyboards Pagination.

(** Every stored state points at one of its pages. *)
Definition states_ok (this : t) : Prop :=
  ∀ key state, paginationStates this !! key = Some state →
    0 ≤ currentIndex state < Z.of_nat (length (pages state)).

(** The keyboard has a button that sends [query]. *)
Definition offers (keyboard : InlineKeyboard) (query : string) : Prop :=
  ∃ row button, row ∈ keyboard ∧ button ∈ row ∧ data button = query.

(** A turn of the page is carried out. *)
Definition turns (answer : Answer) : Prop :=
  ∃ page keyboard, answer = Shown (Some page) keyboard.

(** Three pages "a", "b" and "c" under message 9 of chat -5, the second
    being shown. *)
Definition three_page_state : t :=
  {| service := MessageService.empty;
     paginationStates :=
       {[ state_key (-5) 9 := mkState [[97]; [98]; [99]]%N 1 ]} |}.

End NavigationTerms.

(** ** Delivering an answer *)

Module DeliveryTerms.
Import Js MessageService.

(** Neither table holds more than [MAX_CACHE_SIZE] entries. *)
Definition caches_bounded (this : MessageService.t) : Prop :=
  (size (responseCache this) ≤ MAX_CACHE_SIZE)%nat ∧
  (size (splitCache this) ≤ MAX_CACHE_SIZE)%nat.

End DeliveryTerms.

(** ** Admission and the report of an error *)

Module BotTerms.
Import Js Bot.

(** What the user is told when the key is refused. *)
Definition authorization_notice : string :=
  "❌ Ошибка авторизации в OpenRouter. Проверьте API-ключ и доступы.".



End BotTerms.

(** ** Histories and tracked messages *)

Module UserTerms.
Import Js UserService.

(** The last [n] members of a list. *)
Definition last_n {A} (n : nat) (l : list A) : list A :=
  drop (length l - n) l.

(** No history is longer than [MAX_HISTORY], and every tracked message of
    the bot is among the tracked messages of its user. *)
Definition tables_ok {Message} (this : t Message) : Prop :=
  (∀ userId history, userHistories this !! userId = Some history →
     (length history ≤ MAX_HISTORY)%nat) ∧
  (∀ userId, getUserBotMessages this userId ⊆ getUserAllMessages this userId).

(** Eleven messages 1 to 11 are appended to the history of user 7. *)
Definition eleven_appended : t Z :=
  foldl (λ this m, appendToHistory m false this 7 m) empty (seqZ 1 11).

End UserTerms.

(* ===================================================================== *)
(** * Part III: properties                                               *)
(* ===================================================================== *)

(** ** Retry of the upstream call *)

Module OpenRouterFacts.
Import Js OpenRouterService OpenRouterTerms.

(** A status of the 4xx range other than 429 makes the attempt throw the
    error that carries status and body. *)
Lemma attempt_once_client_error status text body :
  400 ≤ status ≤ 499 → status ≠ 429 →
  attempt_once (Response status text body)
  = inr ("Ошибка OpenRouter: " +:+ pretty status +:+ " " +:+ text)%string.
Proof.
  intros Hrange Hne. unfold attempt_once, response_ok.
  replace (status <=? 299) with false by lia.
  rewrite andb_false_r. simpl negb. cbv iota.
  replace (status =? 429) with false by lia.
  replace (500 <=? status) with false by lia.
  reflexivity.
Qed.

(** That error is caught by the [catch] of the same iteration: the loop
    sleeps 400 ms and enters a second attempt. *)
Lemma client_error_is_retried fetch status text body this :
  fetch 0 = Response status text body →
  400 ≤ status ≤ 499 → status ≠ 429 →
  callOpenRouter_operation fetch this
  = attempt_loop 2 fetch 1
      (Some ("Ошибка OpenRouter: " +:+ pretty status +:+ " " +:+ text)%string)
      1 [400]
      {| totalRequests := totalRequests this + 1;
         totalErrors := totalErrors this + 1;
         currentRequests := currentRequests this;
         requestQueue := requestQueue this |}.
Proof.
  intros Hfetch Hrange Hne. unfold callOpenRouter_operation.
  cbn [attempt_loop]. rewrite Hfetch, attempt_once_client_error by done.
  reflexivity.
Qed.

(** C3, evaluated on the code: after a 400 the call does not fail; it sleeps
    the first backoff, makes a second attempt and returns its text. *)
Theorem callOpenRouter_retries_after_400 :
  (callOpenRouter_operation fetch_400_then_hi initial).1
  = {| outcome := inl [104; 105]%N; attempts := 2; delays := [400] |}.
Proof. vm_compute. reflexivity. Qed.

End OpenRouterFacts.

(** ** Admission of heavy requests *)

Module AdmissionFacts.
Import Js Bot AdmissionTerms.

(** The text path tests and sets the flag in one step: a text that arrives
    while the flag of its user is set is turned away and changes nothing. *)
Lemma text_rejected_while_active this userId :
  isUserRequestActive this userId = true →
  processTextMessage_admit this userId = (false, this).
Proof. intros H. unfold processTextMessage_admit. by rewrite H. Qed.

(** C1, evaluated on the code: both submissions are admitted and two heavy
    requests of user 1 are registered at the end. *)
Theorem two_heavy_requests_registered :
  (imageHandler_check initial 1 5).1 = true ∧
  (processTextMessage_admit (imageHandler_check initial 1 5).2 1).1 = true ∧
  ∃ this, run initial photo_then_text = Some this ∧
          isUserRequestActive this 1 = true ∧
          ImageProcessor.getActiveJobsForUser (imageProcessor this) 1 = 1%nat ∧
          heavy_requests this 1 = 2%nat.
Proof.
  split; [by vm_compute|]. split; [by vm_compute|].
  eexists. split; [vm_compute; reflexivity|]. by vm_compute.
Qed.

(** Two photos of one user in a row: both pass the test before either job
    exists, and two jobs are registered. *)
Lemma two_image_jobs_registered :
  ∃ this,
    run initial [PhotoArrives 1 5; PhotoArrives 1 6;
                 PhotoReady 1 5 1000; PhotoReady 1 6 1001] = Some this ∧
    ImageProcessor.getActiveJobsForUser (imageProcessor this) 1 = 2%nat.
Proof. eexists. split; [vm_compute; reflexivity|]. by vm_compute. Qed.

End AdmissionFacts.

(** ** Decimal renderings and prefixes of keys *)

Module KeyFacts.
Import Js KeyTerms.

Lemma chars_app s1 s2 : chars (s1 +:+ s2) = chars s1 ++ chars s2.
Proof. induction s1 as [|a s1 IH]; simpl; [done | by rewrite IH]. Qed.

Lemma pretty_N_char_digit x : is_digit_or_minus (pretty_N_char x).
Proof.
  unfold pretty_N_char, is_digit_or_minus.
  repeat case_match; simpl; set_solver.
Qed.

Lemma pretty_N_go_chars x s :
  Forall is_digit_or_minus (chars s) →
  Forall is_digit_or_minus (chars (pretty_N_go x s)).
Proof.
  revert s. induction (N.lt_wf_0 x) as [x _ IH]; intros s Hs.
  destruct (decide (x = 0%N)) as [->|Hx].
  - by rewrite pretty_N_go_0.
  - rewrite pretty_N_go_step by lia. apply IH.
    + apply N.div_lt; lia.
    + simpl. constructor; [apply pretty_N_char_digit | done].
Qed.

Lemma pretty_N_chars (x : N) : Forall is_digit_or_minus (chars (pretty x)).
Proof.
  unfold pretty, pretty_N. case_decide.
  - simpl. constructor; [|constructor]. unfold is_digit_or_minus. simpl. set_solver.
  - apply pretty_N_go_chars. simpl. constructor.
Qed.

(** The decimal rendering of an integer has digits and a sign only. *)
Lemma pretty_Z_chars (z : Z) : Forall is_digit_or_minus (chars (pretty z)).
Proof.
  destruct z as [|p|p]; unfold pretty, pretty_Z.
  - simpl. constructor; [|constructor]. unfold is_digit_or_minus. simpl. set_solver.
  - apply (pretty_N_chars (N.pos p)).
  - simpl. constructor.
    + unfold is_digit_or_minus. simpl. set_solver.
    + apply (pretty_N_chars (N.pos p)).
Qed.

Lemma append_cons x (a b : string) : String x a +:+ b = String x (a +:+ b).
Proof. reflexivity. Qed.

Lemma append_empty (b : string) : "" +:+ b = b.
Proof. reflexivity. Qed.

Lemma append_assoc (a b c : string) : (a +:+ b) +:+ c = a +:+ (b +:+ c).
Proof.
  induction a as [|x a IH]; [done|]. by rewrite !append_cons, IH.
Qed.

Lemma startsWith_app p rest : startsWith (p +:+ rest) p = true.
Proof. induction p as [|a p IH]; simpl; [done|]. by rewrite decide_True. Qed.

Lemma startsWith_inv s p :
  startsWith s p = true → ∃ rest, s = p +:+ rest.
Proof.
  revert s. induction p as [|a p IH]; intros s H; simpl in *.
  - by exists s.
  - destruct s as [|b s]; [done|]. case_decide; [|done]. subst b.
    destruct (IH _ H) as [rest ->]. by exists rest.
Qed.

(** Two strings without the separator that are followed by it in equal
    strings are equal. *)
Lemma separator_unique (sep : ascii) a b r1 r2 :
  sep ∉ chars a → sep ∉ chars b →
  a +:+ String sep r1 = b +:+ String sep r2 → a = b.
Proof.
  revert b. induction a as [|x a IH]; intros [|y b] Ha Hb Heq;
    rewrite ?append_cons, ?append_empty in Heq; simpl in Ha, Hb.
  - done.
  - injection Heq as -> _. set_solver.
  - injection Heq as -> _. set_solver.
  - injection Heq as -> Heq. f_equal. apply IH; [set_solver..|done].
Qed.

(** A rendered id followed by a separator that is no digit and no sign is a
    prefix of another rendered id followed by the separator only when the
    ids are equal. *)
Lemma id_prefix_eq (sep : ascii) (u v : Z) rest :
  ¬ is_digit_or_minus sep →
  startsWith (pretty v +:+ String sep rest) (pretty u +:+ String sep "") = true →
  u = v.
Proof.
  intros Hsep H. apply startsWith_inv in H as [r H].
  assert (∀ z : Z, sep ∉ chars (pretty z)) as Hno.
  { intros z Hin. apply Hsep.
    by eapply (proj1 (Forall_forall _ _) (pretty_Z_chars z)). }
  rewrite append_assoc in H. simpl in H.
  symmetry. apply (inj pretty). eapply separator_unique; [apply Hno..|done].
Qed.

End KeyFacts.

(** ** The rate limiter *)

Module RateLimitFacts.
Import Js RateLimitService KeyTerms RateLimitTerms.

Lemma colon_not_digit : ¬ is_digit_or_minus ":".
Proof.
  unfold is_digit_or_minus. simpl.
  rewrite !elem_of_cons, elem_of_nil. intros H.
  repeat (destruct H as [H|H]; [discriminate H|]). done.
Qed.

(** A key belongs to user [userId] exactly when it starts with the id and a
    colon. *)
Lemma limit_key_prefix userId other action :
  startsWith (limit_key other action) (pretty userId +:+ ":") = true ↔
  other = userId.
Proof.
  unfold limit_key. split.
  - intros H. symmetry. by eapply KeyFacts.id_prefix_eq; [apply colon_not_digit|].
  - intros ->. rewrite <-KeyFacts.append_assoc. apply KeyFacts.startsWith_app.
Qed.

Lemma lookup_foldl_delete (m : gmap string UserLimitInfo) (keys : list string) key :
  foldl (λ m key, delete key m) m keys !! key
  = if decide (key ∈ keys) then None else m !! key.
Proof.
  revert m. induction keys as [|k keys IH]; intros m; simpl.
  - done.
  - rewrite IH.
    destruct (decide (key ∈ keys)) as [Hin|Hnin];
      destruct (decide (key ∈ k :: keys)) as [Hin'|Hnin']; try done.
    + set_solver.
    + apply elem_of_cons in Hin' as [->|?]; [apply lookup_delete_eq | done].
    + apply lookup_delete_ne. set_solver.
Qed.

(** What a reset of all windows of a user leaves under each key. *)
Lemma resetUserLimits_lookup this userId key :
  limits (resetUserLimits this userId None) !! key
  = if startsWith key (pretty userId +:+ ":") then None else limits this !! key.
Proof.
  unfold resetUserLimits. cbn [limits]. rewrite lookup_foldl_delete.
  destruct (startsWith key (pretty userId +:+ ":")) eqn:Hp.
  - destruct (limits this !! key) as [info|] eqn:Hk.
    + rewrite decide_True; [done|].
      apply list_elem_of_filter. split; [by rewrite Hp|].
      apply list_elem_of_fmap. exists (key, info). split; [done|].
      by apply elem_of_map_to_list.
    + by case_decide.
  - rewrite decide_False; [done|].
    rewrite list_elem_of_filter, Hp. by intros [? _].
Qed.

(** C10: a reset without an action removes the windows of the user, every
    key ["u:action"], and nothing else: the windows under every other key,
    those of every other user in particular (12 and 123 have different
    keys), the VIP set and the rule table stay as they were. *)
Theorem resetUserLimits_removes_exactly_user this userId :
  let this' := resetUserLimits this userId None in
  (∀ action, limits this' !! limit_key userId action = None) ∧
  (∀ key, (∀ action, key ≠ limit_key userId action) →
          limits this' !! key = limits this !! key) ∧
  (∀ other action, other ≠ userId →
          limits this' !! limit_key other action
          = limits this !! limit_key other action) ∧
  vipUsers this' = vipUsers this ∧
  rules this' = rules this ∧
  rules_prototype this' = rules_prototype this.
Proof.
  intros this'. subst this'. repeat split.
  - intros action. rewrite resetUserLimits_lookup.
    by rewrite (proj2 (limit_key_prefix userId userId action)).
  - intros key Hkey. rewrite resetUserLimits_lookup.
    destruct (startsWith key (pretty userId +:+ ":")) eqn:Hp; [|done].
    apply KeyFacts.startsWith_inv in Hp as [rest ->].
    destruct (Hkey rest). unfold limit_key.
    by rewrite KeyFacts.append_assoc.
  - intros other action Hne. rewrite resetUserLimits_lookup.
    destruct (startsWith (limit_key other action) (pretty userId +:+ ":")) eqn:Hp;
      [|done].
    by apply limit_key_prefix in Hp.
Qed.

(** The instance of the claim for the ids 12 and 123. *)
Lemma resetUserLimits_12_keeps_123 this action :
  limits (resetUserLimits this 12 None) !! limit_key 123 action
  = limits this !! limit_key 123 action.
Proof.
  rewrite resetUserLimits_lookup.
  destruct (startsWith (limit_key 123 action) (pretty 12 +:+ ":")) eqn:Hp; [|done].
  by apply limit_key_prefix in Hp.
Qed.

(** *** VIP users *)

(** The gate of the middleware: for a VIP user the middleware of every
    action hands the update on without a check and leaves the instance as it
    is. *)
Lemma createMiddleware_vip action now this userId :
  userId ∈ vipUsers this →
  createMiddleware action now this (Some userId) = Some (Next None, this).
Proof.
  intros Hvip. unfold createMiddleware, isVipUser.
  destruct (userId =? 0); [done|]. by rewrite bool_decide_eq_true_2.
Qed.

(** C2: [checkLimit] does not read the VIP set.  User 7 is made a VIP and
    sends eleven photos within five minutes, each of which the image handler
    checks with [checkLimit(userId, 'image_processing')]: the ten first
    checks are allowed and counted, the eleventh is turned down and blocks
    the user for ten minutes.  In the state it leaves, the middleware of the
    same action still hands the updates of user 7 on. *)
Theorem checkLimit_rejects_vip :
  isVipUser vip_state 7 = true ∧
  ∃ rs this',
    check_many eleven_photos vip_state 7 "image_processing" = Some (rs, this') ∧
    allowed <$> rs = replicate 10 true ++ [false] ∧
    result_blockedUntil <$> rs !! 10%nat = Some (Some 611000) ∧
    limits this' ≠ limits vip_state ∧
    createMiddleware "image_processing" 12000 this' (Some 7)
    = Some (Next None, this').
Proof.
  split; [by vm_compute|].
  destruct (check_many eleven_photos vip_state 7 "image_processing")
    as [[rs this']|] eqn:Hrun; [|by vm_compute in Hrun].
  exists rs, this'. split; [done|].
  assert (7 ∈ vipUsers this') as Hvip.
  { vm_compute in Hrun. injection Hrun as _ <-. by vm_compute. }
  split; [vm_compute in Hrun; injection Hrun as <- _; by vm_compute|].
  split; [vm_compute in Hrun; injection Hrun as <- _; by vm_compute|].
  split; [|by apply createMiddleware_vip].
  intros H. apply (f_equal (λ m, m !! "7:image_processing"%string)) in H.
  vm_compute in Hrun. injection Hrun as _ <-. vm_compute in H. discriminate H.
Qed.

(** *** Counting within a window *)

Lemma rule_for_set_limit this key info action :
  rule_for (set_limit this key info) action = rule_for this action.
Proof. reflexivity. Qed.

(** A check inside a running window without a block. *)
Lemma checkLimit_within now this userId action rule info reset :
  rule_for this action = VRule rule →
  limits this !! limit_key userId action = Some info →
  blockedUntil info = None →
  resetTime info = Int reset →
  now ≤ reset →
  checkLimit now this userId action =
  if maxRequests rule <=? count info then
    Some (mkResult false (Int 0) (Int reset)
            (if truthy_num (blockDurationMs rule)
             then (λ d, now + d) <$> blockDurationMs rule else None)
            (Some (LimitExceeded (Some (maxRequests rule))
                     (Some (windowMs rule)))),
          set_limit this (limit_key userId action)
            (mkInfo (count info) (Int reset)
               (if truthy_num (blockDurationMs rule)
                then (λ d, now + d) <$> blockDurationMs rule else None)
               (violations info + 1)))
  else
    Some (mkResult true (Int (maxRequests rule - (count info + 1))) (Int reset)
            None None,
          set_limit this (limit_key userId action)
            (mkInfo (count info + 1) (Int reset) None (violations info))).
Proof.
  intros Hrule Hinfo Hblock Hreset Hnow. unfold checkLimit.
  rewrite Hrule, Hinfo. unfold blocked_at. rewrite Hblock. cbn [truthy_num andb].
  rewrite Hreset. cbn [after].
  replace (reset <? now) with false by lia.
  cbn [default from_option id count resetTime blockedUntil violations
       at_least minus maxRequests_of windowMs_of blockDurationMs_of].
  rewrite Hblock, Hreset. reflexivity.
Qed.

(** The check that starts a window. *)
Lemma checkLimit_starts now this userId action rule :
  rule_for this action = VRule rule →
  window_starts now this userId action →
  0 < maxRequests rule →
  ∃ info this',
    checkLimit now this userId action =
      Some (mkResult true (Int (maxRequests rule - 1))
              (Int (now + windowMs rule)) None None,
            this') ∧
    rule_for this' action = VRule rule ∧
    vipUsers this' = vipUsers this ∧
    limits this' !! limit_key userId action = Some info ∧
    count info = 1 ∧ resetTime info = Int (now + windowMs rule) ∧
    blockedUntil info = None.
Proof.
  intros Hrule [Hblocked Hstart] Hmax. unfold checkLimit.
  rewrite Hrule.
  destruct (limits this !! limit_key userId action) as [old|] eqn:Hold;
    rewrite ?Hblocked.
  - rewrite Hstart.
    cbn [count at_least minus plus maxRequests_of windowMs_of resetTime].
    replace (maxRequests rule <=? 0) with false by lia.
    eexists _, _. split; [reflexivity|]. split; [done|]. split; [done|].
    split; [apply lookup_insert_eq|]. done.
  - cbn [count at_least minus plus maxRequests_of windowMs_of resetTime].
    replace (maxRequests rule <=? 0) with false by lia.
    eexists _, _. split; [reflexivity|]. split; [done|]. split; [done|].
    split; [apply lookup_insert_eq|]. done.
Qed.

(** The check that starts a window under a rule that admits no request. *)
Lemma checkLimit_starts_full now this userId action rule :
  rule_for this action = VRule rule →
  window_starts now this userId action →
  maxRequests rule ≤ 0 →
  ∃ r this',
    checkLimit now this userId action = Some (r, this') ∧
    allowed r = false ∧
    ∀ d, blockDurationMs rule = Some d → d ≠ 0 →
         result_blockedUntil r = Some (now + d).
Proof.
  intros Hrule [Hblocked Hstart] Hmax. unfold checkLimit.
  rewrite Hrule.
  destruct (limits this !! limit_key userId action) as [old|] eqn:Hold;
    rewrite ?Hblocked.
  - rewrite Hstart. cbn [count at_least maxRequests_of].
    replace (maxRequests rule <=? 0) with true by lia.
    eexists _, _. split; [reflexivity|]. split; [done|].
    intros d Hd Hnz. cbn. rewrite Hd. cbn.
    by replace (d =? 0) with false by lia.
  - cbn [count at_least maxRequests_of].
    replace (maxRequests rule <=? 0) with true by lia.
    eexists _, _. split; [reflexivity|]. split; [done|].
    intros d Hd Hnz. cbn. rewrite Hd. cbn.
    by replace (d =? 0) with false by lia.
Qed.

(** A check returns a result as long as the action has a rule, and keeps the
    rule. *)
Lemma checkLimit_total now this userId action rule :
  rule_for this action = VRule rule →
  ∃ r this', checkLimit now this userId action = Some (r, this') ∧
             rule_for this' action = VRule rule.
Proof.
  intros Hrule. unfold checkLimit. rewrite Hrule.
  destruct (limits this !! limit_key userId action) as [old|];
    [destruct (blocked_at now (Some old))|]; [by eauto|..];
    repeat case_match; by eauto.
Qed.

Lemma check_many_total times this userId action rule :
  rule_for this action = VRule rule →
  ∃ rs this', check_many times this userId action = Some (rs, this') ∧
              length rs = length times.
Proof.
  revert this. induction times as [|now times IH]; intros this Hrule; simpl.
  - by eauto.
  - destruct (checkLimit_total now this userId action rule Hrule)
      as (r & this1 & -> & Hrule1).
    destruct (IH this1 Hrule1) as (rs & this2 & -> & Hlen).
    eexists _, _. split; [done|]. simpl. by rewrite Hlen.
Qed.

(** Checks inside a running window that has counted [count info] requests:
    the check number [i] (from 0) is allowed while the count stays below the
    maximum and reports what is left; the check that meets the full count is
    turned down. *)
Lemma check_many_within times : ∀ this userId action rule info reset,
  rule_for this action = VRule rule →
  limits this !! limit_key userId action = Some info →
  blockedUntil info = None →
  resetTime info = Int reset →
  Forall (λ now, now ≤ reset) times →
  ∃ rs this', check_many times this userId action = Some (rs, this') ∧
    ∀ (i : nat) r, rs !! i = Some r →
      (count info + Z.of_nat i < maxRequests rule →
         allowed r = true ∧
         remaining r = Int (maxRequests rule - (count info + Z.of_nat i + 1))) ∧
      (count info + Z.of_nat i = maxRequests rule →
         allowed r = false ∧
         ∀ now d, times !! i = Some now → blockDurationMs rule = Some d →
                  d ≠ 0 → result_blockedUntil r = Some (now + d)).
Proof.
  induction times as [|now times IH];
    intros this userId action rule info reset Hrule Hinfo Hblock Hreset Hwin.
  - exists [], this. split; [done|]. intros i r Hi. by destruct i.
  - apply Forall_cons in Hwin as [Hnow Hwin]. cbn [check_many].
    rewrite (checkLimit_within now this userId action rule info reset) by done.
    destruct (maxRequests rule <=? count info) eqn:Hfull.
    + edestruct (check_many_total times) as (rs & this2 & -> & _);
        [by rewrite rule_for_set_limit|].
      eexists _, _. split; [done|]. intros [|i] r Hi; simplify_eq/=.
      * split; [lia|]. intros _. split; [done|].
        intros now' d [= <-] Hd Hnz. rewrite Hd. cbn.
        by replace (d =? 0) with false by lia.
      * split; lia.
    + edestruct (IH (set_limit this (limit_key userId action)
                       (mkInfo (count info + 1) (Int reset) None
                          (violations info)))
                    userId action rule) as (rs & this2 & -> & Hrs);
        [by rewrite rule_for_set_limit | apply lookup_insert_eq | done | done
        | done |].
      eexists _, _. split; [done|]. intros [|i] r Hi; simplify_eq/=.
      * split; [|lia]. intros _. split; [done|]. f_equal. lia.
      * destruct (Hrs i r Hi) as [Hlt Heq]. cbn [count] in Hlt, Heq.
        split; intros H.
        -- destruct Hlt as [-> ->]; [lia|]. split; [done|]. f_equal. lia.
        -- apply Heq. lia.
Qed.

(** C4 as stated fails on the code for a rule that defines a block duration
    of zero: the duration is tested for truthiness, and the second check of
    a window of one request is turned down without [blockedUntil].  User 42
    is no VIP. *)
Lemma checkLimit_zero_block_duration :
  isVipUser zero_block_state 42 = false ∧
  rule_for zero_block_state "ping" = VRule (mkRule 1 1000 (Some 0)) ∧
  ∃ r1 r2 this',
    check_many [5000; 5001] zero_block_state 42 "ping" = Some ([r1; r2], this') ∧
    allowed r1 = true ∧ allowed r2 = false ∧ result_blockedUntil r2 = None.
Proof.
  split; [by vm_compute|]. split; [by vm_compute|].
  eexists _, _, _. split; [vm_compute; reflexivity|]. by vm_compute.
Qed.

(** C4 (amended): for a user who is no VIP and an action for which
    [checkLimit] finds the rule [rule], in the checks that start a window at
    [t0] and stay inside it, the [N]th is allowed with
    [remaining = max - N] for [1 <= N <= max]; the check number [max + 1] is
    turned down, and carries [blockedUntil = now + blockDurationMs] when the
    rule defines a block duration other than zero. *)
Theorem checkLimit_counts_down this userId action rule t0 times :
  isVipUser this userId = false →
  rule_for this action = VRule rule →
  0 ≤ maxRequests rule →
  window_starts t0 this userId action →
  Forall (λ now, now ≤ t0 + windowMs rule) times →
  ∃ rs this',
    check_many (t0 :: times) this userId action = Some (rs, this') ∧
    length rs = S (length times) ∧
    (∀ N r, 1 ≤ N ≤ maxRequests rule → rs !! Z.to_nat (N - 1) = Some r →
       allowed r = true ∧ remaining r = Int (maxRequests rule - N)) ∧
    (∀ r, rs !! Z.to_nat (maxRequests rule) = Some r →
       allowed r = false ∧
       ∀ now d, (t0 :: times) !! Z.to_nat (maxRequests rule) = Some now →
                blockDurationMs rule = Some d → d ≠ 0 →
                result_blockedUntil r = Some (now + d)).
Proof.
  intros _ Hrule Hmax Hstart Hwin.
  destruct (check_many_total (t0 :: times) this userId action rule Hrule)
    as (rs & this' & Hrun & Hlen).
  exists rs, this'. split; [done|]. split; [done|].
  destruct (decide (maxRequests rule = 0)) as [Hzero|Hpos].
  - (* no request fits: the first check is the one that is turned down *)
    split; [intros N r HN; lia|]. rewrite Hzero. cbn [check_many] in Hrun.
    destruct (checkLimit_starts_full t0 this userId action rule Hrule Hstart)
      as (r0 & this1 & Hfirst & Hrej & Hb); [lia|].
    rewrite Hfirst in Hrun.
    destruct (check_many times this1 userId action) as [[rs' this'']|];
      simplify_eq/=.
    intros r [= <-]. split; [done|]. intros now d [= <-]. apply Hb.
  - destruct (checkLimit_starts t0 this userId action rule Hrule Hstart)
      as (info & this1 & Hfirst & Hrule1 & _ & Hinfo & Hcount & Hreset & Hblock);
      [lia|].
    cbn [check_many] in Hrun. rewrite Hfirst in Hrun.
    destruct (check_many_within times this1 userId action rule info
                (t0 + windowMs rule))
      as (rs1 & this2 & Hrest & Hrs1); [done | done | done | done | done |].
    rewrite Hrest in Hrun. simplify_eq/=. rewrite Hcount in Hrs1. split.
    + intros N r HN Hr.
      destruct (Z.to_nat (N - 1)) as [|i] eqn:Hi; simplify_eq/=.
      * split; [done|]. f_equal. lia.
      * destruct (Hrs1 i r Hr) as [Hlt _]. destruct Hlt as [-> ->]; [lia|].
        split; [done|]. f_equal. lia.
    + intros r Hr.
      destruct (Z.to_nat (maxRequests rule)) as [|i] eqn:Hi; [lia|].
      simplify_eq/=. destruct (Hrs1 i r Hr) as [_ Heq].
      destruct Heq as [-> Hb]; [lia|]. done.
Qed.

Lemma checkLimit_counts_down_witness :
  ∃ rs this',
    check_many [1000; 1001; 1002; 1003; 1004; 1005] initial 7 "settings_change"
    = Some (rs, this') ∧
    length rs = 6%nat ∧
    (∀ N r, 1 ≤ N ≤ 5 → rs !! Z.to_nat (N - 1) = Some r →
       allowed r = true ∧ remaining r = Int (5 - N)) ∧
    (∀ r, rs !! 5%nat = Some r →
       allowed r = false ∧
       ∀ now d, [1000; 1001; 1002; 1003; 1004; 1005] !! 5%nat = Some now →
                Some 60000 = Some d → d ≠ 0 →
                result_blockedUntil r = Some (now + d)).
Proof.
  apply (checkLimit_counts_down initial 7 "settings_change"
           (mkRule 5 60000 (Some 60000)) 1000 [1001; 1002; 1003; 1004; 1005]).
  - by vm_compute.
  - by vm_compute.
  - by vm_compute.
  - split; by vm_compute.
  - repeat constructor; by vm_compute.
Defined.

End RateLimitFacts.

(** ** Retry of an image job *)

Module ImageFacts.
Import Js ImageProcessor ImageTerms.

Lemma total_app l1 l2 : total (l1 ++ l2) = total l1 + total l2.
Proof. induction l1 as [|x l1 IH]; simpl; [done|]. unfold total in *. simpl. lia. Qed.

Lemma backoff_nonneg attempt : 0 ≤ backoff attempt.
Proof. unfold backoff. destruct (decide (0 ≤ attempt - 1)).
  - assert (0 < 2 ^ (attempt - 1)) by (apply Z.pow_pos_nonneg; lia). lia.
  - rewrite Z.pow_neg_r by lia. lia.
Qed.

Lemma total_backoffs_nonneg l : 0 ≤ total (map backoff l).
Proof.
  induction l as [|x l IH]; [done|].
  change (0 ≤ backoff x + total (map backoff l)).
  pose proof (backoff_nonneg x). lia.
Qed.

(** A race against the timeout fails when the call fails, and takes no
    negative time. *)
Lemma race_fails cfg w th :
  call_outcome w = inr th → 0 ≤ call_duration w → 0 ≤ requestTimeout cfg →
  ∃ th', race cfg w = ((race cfg w).1, inr th') ∧ 0 ≤ (race cfg w).1.
Proof.
  intros Hout Hdur Htimeout. unfold race.
  destruct (call_duration w <? requestTimeout cfg); simpl.
  - rewrite Hout. by eauto.
  - by eauto.
Qed.

Section all_attempts_fail.
Variable cfg : ImageProcessorConfig.
Variable world : Z → AttemptWorld.
Variable startTime : Z.
Variable th_last : Thrown.

Hypothesis timeout_nonneg : 0 ≤ requestTimeout cfg.
Hypothesis last_settles :
  (race cfg (world (maxRetries cfg))).2 = inr th_last.

Lemma retry_loop_all_fail (fuel : nat) :
  ∀ attempt lastError made slept clock,
  Z.of_nat fuel = maxRetries cfg - attempt + 1 →
  (∀ i, attempt ≤ i ≤ maxRetries cfg → ∃ th, call_outcome (world i) = inr th) →
  (∀ i, attempt ≤ i ≤ maxRetries cfg →
        0 ≤ call_duration (world i) ∧ 0 ≤ sleep_overshoot (world i)) →
  total slept ≤ clock - startTime →
  let e := retry_loop fuel cfg world startTime attempt lastError made slept clock in
  attempts e = (made + fuel)%nat ∧
  success (returned e) = false ∧
  result (returned e) = None ∧
  error (returned e)
    = Some ("Не удалось обработать изображение после " +:+
            pretty (maxRetries cfg) +:+ " попыток: " +:+
            error_message (match fuel with O => lastError | S _ => Some th_last end))%string ∧
  processingTime (returned e) = finished_at e - startTime ∧
  backoffs e = slept ++ map backoff (seqZ attempt (maxRetries cfg - attempt)) ∧
  total (backoffs e) ≤ processingTime (returned e).
Proof.
  induction fuel as [|fuel IH];
    intros attempt lastError made slept clock Hfuel Hfail Htime Hslept.
  - cbn [retry_loop]. cbn.
    replace (maxRetries cfg - attempt) with (-1) by lia.
    rewrite seqZ_nil by lia. rewrite app_nil_r, Nat.add_0_r. done.
  - cbn [retry_loop].
    replace (attempt <=? maxRetries cfg) with true by lia.
    destruct (Hfail attempt) as [th Hth]; [lia|].
    destruct (Htime attempt) as [Hdur Hover]; [lia|].
    destruct (race_fails cfg (world attempt) th Hth Hdur timeout_nonneg)
      as (th' & Hrace & Helapsed).
    rewrite Hrace.
    destruct (attempt <? maxRetries cfg) eqn:Hmore.
    + specialize (IH (attempt + 1) (Some th') (S made)
                     (slept ++ [1000 * 2 ^ (attempt - 1)])
                     (clock + (race cfg (world attempt)).1 +
                      1000 * 2 ^ (attempt - 1) + sleep_overshoot (world attempt))).
      destruct IH as (Hn & Hs & Hr & He & Hp & Hb & Ht).
      * lia.
      * intros i Hi. apply Hfail. lia.
      * intros i Hi. apply Htime. lia.
      * rewrite total_app. change (total [1000 * 2 ^ (attempt - 1)])
          with (backoff attempt + 0). pose proof (backoff_nonneg attempt).
        unfold backoff in *. lia.
      * repeat split; try done.
        -- rewrite Hn. lia.
        -- rewrite He. destruct fuel; [lia | done].
        -- rewrite Hb, <-app_assoc. f_equal.
           rewrite (seqZ_cons attempt) by lia. simpl. unfold backoff at 2.
           do 3 f_equal; lia.
    + assert (attempt = maxRetries cfg) as Hlast by lia.
      assert (fuel = O) as -> by lia.
      cbn [retry_loop]. cbn.
      replace (maxRetries cfg - attempt) with 0 by lia.
      rewrite seqZ_nil by lia. rewrite app_nil_r.
      repeat split; try done.
      * lia.
      * subst attempt. rewrite Hrace in last_settles. simpl in last_settles.
        by simplify_eq.
      * unfold total in *. lia.
Qed.

End all_attempts_fail.

(** C8: when the upstream call fails in every attempt, the job makes exactly
    [maxRetries] attempts (two under the shipped configuration) and returns
    a failure.  Its message ends with the message of the error that settled
    the last attempt; its [processingTime] is the time from entry to return,
    which covers every backoff that was slept: [1000 * 2 ^ (attempt - 1)] ms
    after each attempt but the last, hence at least one second as soon as
    there are two attempts. *)
Theorem executeImageProcessing_all_attempts_fail cfg world startTime th_last :
  1 ≤ maxRetries cfg →
  0 ≤ requestTimeout cfg →
  (∀ i, 1 ≤ i ≤ maxRetries cfg → ∃ th, call_outcome (world i) = inr th) →
  (∀ i, 1 ≤ i ≤ maxRetries cfg →
        0 ≤ call_duration (world i) ∧ 0 ≤ sleep_overshoot (world i)) →
  (race cfg (world (maxRetries cfg))).2 = inr th_last →
  let e := executeImageProcessing cfg world startTime in
  attempts e = Z.to_nat (maxRetries cfg) ∧
  success (returned e) = false ∧
  result (returned e) = None ∧
  error (returned e)
    = Some ("Не удалось обработать изображение после " +:+
            pretty (maxRetries cfg) +:+ " попыток: " +:+
            error_message (Some th_last))%string ∧
  processingTime (returned e) = finished_at e - startTime ∧
  backoffs e = map backoff (seqZ 1 (maxRetries cfg - 1)) ∧
  total (backoffs e) ≤ processingTime (returned e) ∧
  (2 ≤ maxRetries cfg → 1000 ≤ processingTime (returned e)).
Proof.
  intros Hmax Htimeout Hfail Htime Hlast e. subst e.
  unfold executeImageProcessing.
  destruct (retry_loop_all_fail cfg world startTime th_last Htimeout Hlast
              (Z.to_nat (maxRetries cfg)) 1 None 0%nat [] startTime)
    as (Hn & Hs & Hr & He & Hp & Hb & Ht); [lia | done | done | simpl; lia |].
  repeat split; try done.
  - rewrite He. destruct (Z.to_nat (maxRetries cfg)) eqn:Hz; [lia | done].
  - intros Htwo. etrans; [|exact Ht]. rewrite Hb. cbn [app].
    rewrite (seqZ_cons 1) by lia. cbn [map].
    change (1000 ≤ backoff 1 + total (map backoff (seqZ (Z.succ 1) (Z.pred (maxRetries cfg - 1))))).
    pose proof (total_backoffs_nonneg (seqZ (Z.succ 1) (Z.pred (maxRetries cfg - 1)))).
    change (backoff 1) with 1000. lia.
Qed.

Lemma executeImageProcessing_all_attempts_fail_witness :
  let e := executeImageProcessing config always_boom 100 in
  attempts e = 2%nat ∧
  success (returned e) = false ∧
  result (returned e) = None ∧
  error (returned e)
    = Some "Не удалось обработать изображение после 2 попыток: boom"%string ∧
  processingTime (returned e) = finished_at e - 100 ∧
  backoffs e = [1000] ∧
  total (backoffs e) ≤ processingTime (returned e) ∧
  (2 ≤ 2 → 1000 ≤ processingTime (returned e)).
Proof.
  apply (executeImageProcessing_all_attempts_fail config always_boom 100
           (JsError "boom")).
  - by vm_compute.
  - by vm_compute.
  - intros i _. by eexists.
  - intros i _. by vm_compute.
  - by vm_compute.
Defined.

End ImageFacts.

(** ** The pool of the upstream client *)

Module PoolFacts.
Import Js OpenRouterService OpenRouterTerms.

Lemma pool_inv_start : pool_inv start.
Proof. split; simpl; [done | lia | by intros [] | done]. Qed.

Lemma length_remove_one id ids :
  id ∈ ids → length ids = S (length (remove_one id ids)).
Proof.
  induction ids as [|x ids IH]; [by intros ?%elem_of_nil | intros Hin].
  simpl. case_decide; [done|]. simpl. f_equal. apply IH.
  by apply elem_of_cons in Hin as [->|?].
Qed.

Lemma pool_inv_step sys ev sys' :
  pool_inv sys → step sys ev = Some sys' → pool_inv sys'.
Proof.
  intros [Hcount Hcap Hfull Horder] Hstep. destruct ev as [id|id]; simpl in Hstep.
  - unfold executeWithConcurrencyLimit, MAX_CONCURRENT_REQUESTS in Hstep.
    destruct (currentRequests (service sys) <? 5) eqn:Hroom; simplify_eq.
    + split; simpl.
      * rewrite length_app. simpl. lia.
      * rewrite length_app. simpl. lia.
      * intros Hq. specialize (Hfull Hq). unfold MAX_CONCURRENT_REQUESTS in Hfull. lia.
      * destruct (requestQueue (service sys)) as [|q qs] eqn:Hq.
        -- rewrite app_nil_r in *. by rewrite Horder.
        -- assert (currentRequests (service sys) = MAX_CONCURRENT_REQUESTS) as Hf
             by (by apply Hfull).
           unfold MAX_CONCURRENT_REQUESTS in Hf. lia.
    + split; simpl.
      * done.
      * done.
      * intros _. unfold MAX_CONCURRENT_REQUESTS. lia.
      * by rewrite app_assoc, Horder.
  - case_bool_decide as Hrun; [|done].
    pose proof (length_remove_one id (running sys) Hrun) as Hlen.
    unfold execute_finally, processQueue, MAX_CONCURRENT_REQUESTS in Hstep.
    cbn [currentRequests requestQueue totalRequests totalErrors] in Hstep.
    destruct (requestQueue (service sys)) as [|q qs] eqn:Hq.
    + cbn [length] in Hstep. cbn in Hstep. simplify_eq. split; simpl.
      * rewrite app_nil_r. lia.
      * rewrite app_nil_r. lia.
      * done.
      * rewrite !app_nil_r in *. done.
    + assert (currentRequests (service sys) = 5) as Hf by (by apply Hfull).
      cbn [length] in Hstep.
      replace (0 <? S (length qs))%nat with true in Hstep
        by (symmetry; apply Nat.ltb_lt; lia).
      replace (currentRequests (service sys) - 1 <? 5) with true in Hstep by lia.
      cbn in Hstep. simplify_eq. split; simpl.
      * rewrite length_app. simpl. lia.
      * rewrite length_app. simpl. lia.
      * intros _. unfold MAX_CONCURRENT_REQUESTS. lia.
      * rewrite <-Horder, <-app_assoc. done.
Qed.

Lemma pool_inv_run evs : ∀ sys sys',
  pool_inv sys → run sys evs = Some sys' → pool_inv sys'.
Proof.
  induction evs as [|ev evs IH]; intros sys sys' Hinv Hrun; simpl in Hrun.
  - by simplify_eq.
  - destruct (step sys ev) as [sys1|] eqn:Hstep; [|done].
    eapply IH; [|done]. by eapply pool_inv_step.
Qed.

(** C9: after any schedule of submissions and completions, at most five
    calls run; a call submitted while five run is appended to the queue and
    not started; a completion starts the call at the head of the queue, if
    there is one; and the order of dispatch is the order of submission: the
    calls dispatched so far are the first of the calls submitted so far, and
    the queue holds the rest in order. *)
Theorem dispatch_is_fifo_under_cap evs sys :
  run start evs = Some sys →
  (length (running sys) ≤ 5)%nat ∧
  currentRequests (service sys) = Z.of_nat (length (running sys)) ∧
  dispatched sys ++ requestQueue (service sys) = submitted sys ∧
  (∀ id, length (running sys) = 5%nat →
     ∃ sys', step sys (Submit id) = Some sys' ∧
       running sys' = running sys ∧ dispatched sys' = dispatched sys ∧
       requestQueue (service sys') = requestQueue (service sys) ++ [id]) ∧
  (∀ id next waiting, id ∈ running sys →
     requestQueue (service sys) = next :: waiting →
     ∃ sys', step sys (Settle id) = Some sys' ∧
       dispatched sys' = dispatched sys ++ [next] ∧
       requestQueue (service sys') = waiting ∧
       length (running sys') = 5%nat).
Proof.
  intros Hrun.
  pose proof (pool_inv_run evs start sys pool_inv_start Hrun)
    as [Hcount Hcap Hfull Horder].
  split; [done|]. split; [done|]. split; [done|]. split.
  - intros id Hfive. simpl.
    unfold executeWithConcurrencyLimit, MAX_CONCURRENT_REQUESTS.
    replace (currentRequests (service sys) <? 5) with false by lia.
    eexists. split; [reflexivity|]. done.
  - intros id next waiting Hin Hq.
    assert (currentRequests (service sys) = 5) as Hf
      by (apply Hfull; by rewrite Hq).
    pose proof (length_remove_one id (running sys) Hin) as Hlen.
    simpl. rewrite bool_decide_eq_true_2 by done.
    unfold execute_finally, processQueue, MAX_CONCURRENT_REQUESTS.
    cbn [currentRequests requestQueue totalRequests totalErrors].
    rewrite Hq. cbn [length].
    replace (0 <? S (length waiting))%nat with true
      by (symmetry; apply Nat.ltb_lt; lia).
    replace (currentRequests (service sys) - 1 <? 5) with true by lia.
    cbn [andb]. eexists. split; [reflexivity|]. simpl.
    split; [done|]. split; [done|]. rewrite length_app. simpl. lia.
Qed.

Lemma dispatch_is_fifo_under_cap_witness :
  ∃ sys, run start busy_schedule = Some sys ∧
         running sys = [1; 2; 4; 5; 6]%nat ∧
         dispatched sys ++ requestQueue (service sys) = submitted sys ∧
         requestQueue (service sys) = [9%nat].
Proof.
  eexists. split; [vm_compute; reflexivity|].
  split; [by vm_compute|]. split; [|by vm_compute].
  eapply (dispatch_is_fifo_under_cap busy_schedule). by vm_compute.
Defined.

End PoolFacts.

(** ** Trimming and the three replacements *)

Module JsFacts.
Import Js TextTerms.

Lemma is_ws_LF : is_ws LF = true.
Proof. reflexivity. Qed.

Lemma is_ws_SP : is_ws SP = true.
Proof. reflexivity. Qed.

Lemma LF_eqb_ws c : (c =? LF)%N = true → is_ws c = true.
Proof. intros ->%N.eqb_eq. reflexivity. Qed.

(** *** [trim] *)

Lemma trimStart_id c s : is_ws c = false → trimStart (c :: s) = c :: s.
Proof. intros H. simpl. by rewrite H. Qed.

Lemma trimStart_head s :
  trimStart s = [] ∨ ∃ c r, trimStart s = c :: r ∧ is_ws c = false.
Proof.
  induction s as [|c s IH]; simpl; [by left|].
  destruct (is_ws c) eqn:Hc; [done|]. right. by eauto.
Qed.

Lemma trimEnd_head c s :
  is_ws c = false → ∃ r, trimEnd (c :: s) = c :: r.
Proof. intros Hc. simpl. rewrite Hc. destruct (trimEnd s); by eauto. Qed.

Lemma trimEnd_idem s : trimEnd (trimEnd s) = trimEnd s.
Proof.
  induction s as [|c s IH]; simpl; [done|].
  destruct (trimEnd s) as [|d t] eqn:Ht.
  - destruct (is_ws c) eqn:Hc; simpl; [done|]. by rewrite Hc.
  - simpl in IH. simpl. destruct (trimEnd t) as [|e u] eqn:Hu.
    + destruct (is_ws d); [done|]. by simplify_eq.
    + by simplify_eq.
Qed.

Lemma trim_idem s : trim (trim s) = trim s.
Proof.
  unfold trim. destruct (trimStart_head s) as [->|(c & r & -> & Hc)]; [done|].
  destruct (trimEnd_head c r Hc) as [r' Hr']. rewrite Hr'.
  rewrite (trimStart_id c r' Hc), <-Hr'. apply trimEnd_idem.
Qed.

Lemma length_trimStart s : (length (trimStart s) ≤ length s)%nat.
Proof. induction s as [|c s IH]; simpl; [done|]. destruct (is_ws c); simpl; lia. Qed.

Lemma length_trimEnd s : (length (trimEnd s) ≤ length s)%nat.
Proof.
  induction s as [|c s IH]; simpl; [done|].
  destruct (trimEnd s); [destruct (is_ws c)|]; simpl in *; lia.
Qed.

Lemma length_trim s : (length (trim s) ≤ length s)%nat.
Proof.
  unfold trim. etrans; [apply length_trimEnd | apply length_trimStart].
Qed.

Lemma elem_of_trimStart c s : c ∈ trimStart s → c ∈ s.
Proof.
  induction s as [|d s IH]; simpl; [done|].
  destruct (is_ws d); [|done]. intros H. right. by apply IH.
Qed.

Lemma elem_of_trimEnd c s : c ∈ trimEnd s → c ∈ s.
Proof.
  induction s as [|d s IH]; simpl; [done|].
  destruct (trimEnd s) as [|e t].
  - destruct (is_ws d); [by intros ?%elem_of_nil|].
    intros ->%list_elem_of_singleton. by left.
  - intros [->|H]%elem_of_cons; [by left|]. right. by apply IH.
Qed.

Lemma elem_of_trim c s : c ∈ trim s → c ∈ s.
Proof. intros H. by apply elem_of_trimStart, elem_of_trimEnd. Qed.

(** *** Removal of the glyphs *)

Lemma replace_sparkles_id bol s :
  line_starts_with_sparkles bol s = false → replace_sparkles bol false s = s.
Proof.
  revert bol. induction s as [|c s IH]; intros bol H; simpl in *; [done|].
  apply orb_false_iff in H as [-> H]. by rewrite IH.
Qed.

Lemma replace_rules_id s : HEAVY_RULE ∉ s → replace_rules s = s.
Proof.
  unfold replace_rules. induction s as [|c s IH]; intros H; [done|].
  rewrite filter_cons_True by (intros ->; apply H; by left).
  rewrite IH; [done|]. intros ?. apply H. by right.
Qed.

Lemma replace_rules_clean s : HEAVY_RULE ∉ replace_rules s.
Proof. unfold replace_rules. rewrite list_elem_of_filter. by intros [? _]. Qed.

(** *** Runs of line feeds *)

Lemma replace_blank_runs_short run s :
  runs_short run (replace_blank_runs run s) = true.
Proof.
  revert run. induction s as [|c s IH]; intros run; [done|].
  cbn [replace_blank_runs]. destruct (c =? LF)%N eqn:Hc.
  - destruct (2 <=? run)%nat eqn:Hrun; [apply IH|].
    cbn [runs_short]. rewrite Hc, IH. apply Nat.leb_gt in Hrun.
    by replace (run <? 2)%nat with true by (symmetry; apply Nat.ltb_lt; lia).
  - cbn [runs_short]. by rewrite Hc.
Qed.

Lemma replace_blank_runs_id run s :
  runs_short run s = true → replace_blank_runs run s = s.
Proof.
  revert run. induction s as [|c s IH]; intros run H; [done|].
  cbn [replace_blank_runs runs_short] in *. destruct (c =? LF)%N.
  - apply andb_true_iff in H as [Hrun H]. apply Nat.ltb_lt in Hrun.
    replace (2 <=? run)%nat with false by (symmetry; apply Nat.leb_gt; lia).
    by rewrite IH.
  - by rewrite IH.
Qed.

Lemma runs_short_mono run run' s :
  (run' ≤ run)%nat → runs_short run s = true → runs_short run' s = true.
Proof.
  revert run run'. induction s as [|c s IH]; intros run run' Hle H; [done|].
  cbn [runs_short] in *. destruct (c =? LF)%N; [|done].
  apply andb_true_iff in H as [Hrun H]. apply Nat.ltb_lt in Hrun.
  apply andb_true_iff. split; [apply Nat.ltb_lt; lia|].
  apply (IH (S run)); [lia | done].
Qed.

Lemma runs_short_trimStart run s :
  runs_short run s = true → runs_short 0 (trimStart s) = true.
Proof.
  revert run. induction s as [|c s IH]; intros run H; [done|].
  cbn [trimStart]. destruct (is_ws c).
  - cbn [runs_short] in H. destruct (c =? LF)%N.
    + apply andb_true_iff in H as [_ H]. by eapply IH.
    + by eapply IH.
  - eapply runs_short_mono; [|done]. lia.
Qed.

Lemma runs_short_trimEnd run s :
  runs_short run s = true → runs_short run (trimEnd s) = true.
Proof.
  revert run. induction s as [|c s IH]; intros run H; [done|].
  cbn [trimEnd runs_short] in *. destruct (trimEnd s) as [|d t] eqn:Ht.
  - destruct (is_ws c) eqn:Hws; [done|]. cbn [runs_short].
    destruct (c =? LF)%N eqn:Hc; [|done].
    apply LF_eqb_ws in Hc. congruence.
  - cbn [runs_short]. destruct (c =? LF)%N.
    + apply andb_true_iff in H as [-> H]. by apply IH.
    + by apply IH.
Qed.

Lemma runs_short_trim run s :
  runs_short run s = true → runs_short 0 (trim s) = true.
Proof.
  intros H. unfold trim. eapply runs_short_trimEnd, runs_short_trimStart, H.
Qed.

Lemma elem_of_replace_blank_runs c run s :
  c ∈ replace_blank_runs run s → c ∈ s.
Proof.
  revert run. induction s as [|d s IH]; intros run; [done|].
  cbn [replace_blank_runs].
  destruct (d =? LF)%N; [destruct (2 <=? run)%nat|].
  - intros H. right. by eapply IH.
  - intros [->|H]%elem_of_cons; [by left|]. right. by eapply IH.
  - intros [->|H]%elem_of_cons; [by left|]. right. by eapply IH.
Qed.

End JsFacts.

(** ** Formatting *)

Module FormatFacts.
Import Js MessageService TextTerms JsFacts.

(** The tables of a fresh instance are consistent. *)
Lemma cache_ok_empty : cache_ok empty.
Proof. split; intros ? ?; simpl; by rewrite lookup_empty. Qed.

(** Under consistent tables [formatResponse] returns what it computes
    without them, and keeps them consistent. *)
Lemma formatResponse_spec this text :
  cache_ok this →
  (formatResponse this text).1 = stripDecor (trim text) ∧
  cache_ok (formatResponse this text).2.
Proof.
  intros [Hr Hs]. unfold formatResponse.
  destruct (responseCache this !! text) as [cached|] eqn:Hc; simpl.
  - split; [by apply Hr | by split].
  - destruct (size (responseCache this) <? MAX_CACHE_SIZE)%nat; simpl;
      (split; [done|]); [|by split].
    split; [|done]. simpl. intros text' cleaned.
    rewrite lookup_insert. case_decide; [by intros [= <-]; subst | apply Hr].
Qed.

(** The same for [splitMessage]. *)
Lemma splitMessage_spec this text :
  cache_ok this →
  (splitMessage this text).1 = split_pages text ∧
  cache_ok (splitMessage this text).2.
Proof.
  intros [Hr Hs]. unfold splitMessage.
  destruct (splitCache this !! text) as [cached|] eqn:Hc; simpl.
  - split; [by apply Hs | by split].
  - destruct (size (splitCache this) <? MAX_CACHE_SIZE)%nat; simpl;
      (split; [done|]); [|by split].
    split; [done|]. simpl. intros text' pages.
    rewrite lookup_insert. case_decide; [by intros [= <-]; subst | apply Hs].
Qed.

(** The formatted text is trimmed, free of the rule glyph and of runs of
    three line feeds. *)
Lemma stripDecor_trimmed text : trim (stripDecor text) = stripDecor text.
Proof. apply trim_idem. Qed.

Lemma stripDecor_no_rules text : HEAVY_RULE ∉ stripDecor text.
Proof.
  unfold stripDecor. intros H%elem_of_trim%elem_of_replace_blank_runs.
  by apply replace_rules_clean in H.
Qed.

Lemma stripDecor_runs_short text : runs_short 0 (stripDecor text) = true.
Proof. unfold stripDecor. eapply runs_short_trim, replace_blank_runs_short. Qed.

(** A text with these three properties and no line that begins with the
    sparkles glyph is left as it is. *)
Lemma stripDecor_trim_fixpoint s :
  trim s = s → HEAVY_RULE ∉ s → runs_short 0 s = true →
  line_starts_with_sparkles true s = false →
  stripDecor (trim s) = s.
Proof.
  intros Htrim Hrule Hruns Hglyph. unfold stripDecor. rewrite Htrim.
  rewrite replace_sparkles_id, replace_rules_id, replace_blank_runs_id by done.
  done.
Qed.

(** C7 as stated fails on the code: the first pass takes the sparkles glyph
    at the start of the line and uncovers the second one, which the second
    pass takes. *)
Lemma formatResponse_not_idempotent :
  let (once, this1) := formatResponse empty two_sparkles in
  let (twice, _) := formatResponse this1 once in
  once = [SPARKLES; 120%N] ∧ twice = [120%N] ∧ twice ≠ once.
Proof. by vm_compute. Qed.

(** C7 (amended): formatting a formatted text again returns it unchanged
    whenever no line of the formatted text begins with the sparkles glyph;
    every text without that glyph is such a text. *)
Theorem formatResponse_idempotent this text :
  cache_ok this →
  line_starts_with_sparkles true (formatResponse this text).1 = false →
  (formatResponse (formatResponse this text).2 (formatResponse this text).1).1
  = (formatResponse this text).1.
Proof.
  intros Hok. destruct (formatResponse_spec this text Hok) as [Honce Hok1].
  destruct (formatResponse this text) as [once this1]. simpl in *.
  intros Hglyph.
  destruct (formatResponse_spec this1 once Hok1) as [-> _]. subst once.
  apply stripDecor_trim_fixpoint;
    [apply stripDecor_trimmed | apply stripDecor_no_rules
    | apply stripDecor_runs_short | done].
Qed.

Lemma formatResponse_idempotent_witness :
  cache_ok empty ∧
  line_starts_with_sparkles true (formatResponse empty decorated).1 = false ∧
  (formatResponse (formatResponse empty decorated).2
     (formatResponse empty decorated).1).1
  = [104; 105; LF; LF; 116; 104; 101; 114; 101]%N.
Proof.
  split; [apply cache_ok_empty|]. split; [by vm_compute|].
  rewrite (formatResponse_idempotent empty decorated);
    [by vm_compute | apply cache_ok_empty | by vm_compute].
Defined.

(** A text without the sparkles glyph has no line that begins with it, and
    neither has its formatted form. *)
Lemma no_sparkles_no_line_start bol s :
  SPARKLES ∉ s → line_starts_with_sparkles bol s = false.
Proof.
  revert bol. induction s as [|c s IH]; intros bol H; simpl; [done|].
  rewrite IH by (intros ?; apply H; by right).
  replace (c =? SPARKLES)%N with false; [by rewrite andb_false_r|].
  symmetry. apply N.eqb_neq. intros ->. apply H. by left.
Qed.

Lemma elem_of_replace_sparkles c bol eating s :
  c ∈ replace_sparkles bol eating s → c ∈ s.
Proof.
  revert bol eating. induction s as [|d s IH]; intros bol eating; simpl; [done|].
  destruct (eating && is_ws d); [|destruct (bol && (d =? SPARKLES)%N)].
  - intros H. right. by eapply IH.
  - intros H. right. by eapply IH.
  - intros [->|H]%elem_of_cons; [by left|]. right. by eapply IH.
Qed.

Lemma no_sparkles_formatted text :
  SPARKLES ∉ text →
  line_starts_with_sparkles true (stripDecor (trim text)) = false.
Proof.
  intros H. apply no_sparkles_no_line_start. intros Hin. apply H.
  unfold stripDecor in Hin.
  apply elem_of_trim, elem_of_replace_blank_runs in Hin.
  unfold replace_rules in Hin. apply list_elem_of_filter in Hin as [_ Hin].
  by apply elem_of_replace_sparkles, elem_of_trim in Hin.
Qed.

End FormatFacts.

(** ** Pagination *)

Module PageFacts.
Import Js MessageService TextTerms JsFacts FormatFacts.

Local Open Scope nat_scope.

Local Abbreviation fits := (λ p : jsstr, length p ≤ MAX_PAGE_LENGTH).

Lemma word_step_unfold chunks wordChunk word :
  word_step (chunks, wordChunk) word
  = if length wordChunk + length word + 1 <=? MAX_PAGE_LENGTH
    then (chunks, glue wordChunk word)
    else (push_truthy chunks wordChunk, word).
Proof. reflexivity. Qed.

Lemma paragraph_step_unfold chunks current paragraph :
  paragraph_step (chunks, current) paragraph
  = if length current + length paragraph + 2 <=? MAX_PAGE_LENGTH
    then (chunks, current ++ (if truthy current then [LF; LF] else []) ++ paragraph)
    else if MAX_PAGE_LENGTH <? length paragraph
    then (push_truthy
            (fold_left word_step (split_space paragraph)
               (push_truthy chunks current, [])).1
            (fold_left word_step (split_space paragraph)
               (push_truthy chunks current, [])).2, [])
    else (push_truthy chunks current, paragraph).
Proof.
  unfold paragraph_step, push_truthy.
  destruct (length current + length paragraph + 2 <=? MAX_PAGE_LENGTH); [done|].
  destruct (MAX_PAGE_LENGTH <? length paragraph); [|done].
  by destruct (fold_left word_step _ _).
Qed.

Lemma split_pages_unfold text :
  split_pages text
  = if length text <=? MAX_PAGE_LENGTH then [text]
    else push_truthy
           (fold_left paragraph_step (split_blank_line text) ([], [])).1
           (fold_left paragraph_step (split_blank_line text) ([], [])).2.
Proof.
  unfold split_pages, push_truthy.
  destruct (length text <=? MAX_PAGE_LENGTH); [done|].
  by destruct (fold_left paragraph_step _ _).
Qed.

(** *** No page is longer than the limit, unless a word is *)

Lemma length_glue wordChunk word :
  length (glue wordChunk word) ≤ length wordChunk + length word + 1.
Proof.
  unfold glue. rewrite !length_app. destruct (truthy wordChunk); simpl; lia.
Qed.

Lemma push_truthy_fits chunks chunk :
  Forall fits chunks → length chunk ≤ MAX_PAGE_LENGTH →
  Forall fits (push_truthy chunks chunk).
Proof.
  intros Hc Hl. unfold push_truthy. destruct (truthy chunk); [|done].
  apply Forall_app. split; [done|]. constructor; [|done].
  pose proof (length_trim chunk). simpl. lia.
Qed.

Lemma words_fit words : ∀ chunks wordChunk,
  Forall fits words → Forall fits chunks →
  length wordChunk ≤ MAX_PAGE_LENGTH →
  Forall fits (fold_left word_step words (chunks, wordChunk)).1 ∧
  length (fold_left word_step words (chunks, wordChunk)).2 ≤ MAX_PAGE_LENGTH.
Proof.
  induction words as [|word words IH]; intros chunks wordChunk Hw Hc Hl;
    [done|].
  apply Forall_cons in Hw as [Hword Hw]. cbn [fold_left].
  rewrite word_step_unfold.
  destruct (length wordChunk + length word + 1 <=? MAX_PAGE_LENGTH) eqn:Hfit.
  - apply Nat.leb_le in Hfit. apply IH; [done | done |].
    pose proof (length_glue wordChunk word). lia.
  - apply IH; [done | by apply push_truthy_fits | done].
Qed.

Lemma paragraphs_fit paragraphs : ∀ chunks current,
  Forall (λ p, Forall fits (split_space p)) paragraphs →
  Forall fits chunks → length current ≤ MAX_PAGE_LENGTH →
  Forall fits (fold_left paragraph_step paragraphs (chunks, current)).1 ∧
  length (fold_left paragraph_step paragraphs (chunks, current)).2
    ≤ MAX_PAGE_LENGTH.
Proof.
  induction paragraphs as [|paragraph paragraphs IH];
    intros chunks current Hp Hc Hl; [done|].
  apply Forall_cons in Hp as [Hwords Hp]. cbn [fold_left].
  rewrite paragraph_step_unfold.
  destruct (length current + length paragraph + 2 <=? MAX_PAGE_LENGTH) eqn:Hfit.
  - apply Nat.leb_le in Hfit. apply IH; [done | done |].
    rewrite !length_app. destruct (truthy current); simpl; lia.
  - destruct (MAX_PAGE_LENGTH <? length paragraph) eqn:Hlong.
    + destruct (words_fit (split_space paragraph)
                  (push_truthy chunks current) [])
        as [Hchunks Hlast]; [done | by apply push_truthy_fits | simpl; lia |].
      apply IH; [done | by apply push_truthy_fits | simpl; lia].
    + apply Nat.ltb_ge in Hlong.
      apply IH; [done | by apply push_truthy_fits | done].
Qed.

Lemma split_pages_fit text :
  Forall (λ p, Forall fits (split_space p)) (split_blank_line text) →
  Forall fits (split_pages text).
Proof.
  intros Hwords. rewrite split_pages_unfold.
  destruct (length text <=? MAX_PAGE_LENGTH) eqn:Hshort.
  - apply Nat.leb_le in Hshort. constructor; [done | constructor].
  - destruct (paragraphs_fit (split_blank_line text) [] [])
      as [Hchunks Hlast]; [done | done | simpl; lia |].
    by apply push_truthy_fits.
Qed.

(** *** The pages are the text, cut at white space *)

Lemma all_ws_nil : all_ws [].
Proof. constructor. Qed.

Lemma all_ws_app s1 s2 : all_ws s1 → all_ws s2 → all_ws (s1 ++ s2).
Proof. intros H1 H2. apply Forall_app. by split. Qed.

Lemma covers_ws_l gap pages s :
  all_ws gap → covers pages s → covers pages (gap ++ s).
Proof.
  intros Hgap [gap' Hgap'|gap' page pages' rest Hgap' Hrest].
  - constructor. by apply all_ws_app.
  - rewrite app_assoc. constructor; [by apply all_ws_app | done].
Qed.

Lemma covers_app pages1 pages2 s1 s2 :
  covers pages1 s1 → covers pages2 s2 → covers (pages1 ++ pages2) (s1 ++ s2).
Proof.
  intros H1 H2. induction H1 as [gap Hgap|gap page pages rest Hgap Hrest IH].
  - by apply covers_ws_l.
  - rewrite <-!app_assoc. cbn [app]. by constructor.
Qed.

Lemma covers_ws_r gap pages s :
  all_ws gap → covers pages s → covers pages (s ++ gap).
Proof.
  intros Hgap Hs. rewrite <-(app_nil_r pages).
  apply covers_app; [done | by constructor].
Qed.

Lemma trimStart_decompose s : ∃ gap, all_ws gap ∧ s = gap ++ trimStart s.
Proof.
  induction s as [|c s (gap & Hgap & Hs)];
    [exists []; split; [constructor | done]|].
  cbn [trimStart]. destruct (is_ws c) eqn:Hc.
  - exists (c :: gap). split; [by constructor|]. by rewrite Hs at 1.
  - exists []. split; [constructor | done].
Qed.

Lemma trimEnd_decompose s : ∃ gap, all_ws gap ∧ s = trimEnd s ++ gap.
Proof.
  induction s as [|c s (gap & Hgap & Hs)];
    [exists []; split; [constructor | done]|].
  cbn [trimEnd]. destruct (trimEnd s) as [|d t].
  - simpl in Hs. subst gap. destruct (is_ws c) eqn:Hc.
    + exists (c :: s). split; [by constructor | done].
    + by exists s.
  - exists gap. split; [done|]. by rewrite Hs at 1.
Qed.

Lemma covers_trim s : covers [trim s] s.
Proof.
  destruct (trimStart_decompose s) as (gap1 & Hgap1 & Hs1).
  destruct (trimEnd_decompose (trimStart s)) as (gap2 & Hgap2 & Hs2).
  assert (s = gap1 ++ trim s ++ gap2) as Heq
    by (unfold trim; by rewrite <-Hs2).
  enough (covers [trim s] (gap1 ++ trim s ++ gap2)) as H
    by (by rewrite <-Heq in H).
  constructor; [done | by constructor].
Qed.

Lemma covers_one s : covers [s] s.
Proof.
  rewrite <-(app_nil_r s) at 2.
  apply (covers_cons [] s [] []); [constructor | constructor; constructor].
Qed.

Lemma covers_push_truthy chunks chunk done gap :
  covers chunks done → all_ws gap →
  covers (push_truthy chunks chunk) (done ++ gap ++ chunk).
Proof.
  intros Hdone Hgap. unfold push_truthy. destruct chunk as [|c chunk].
  - cbn [truthy]. rewrite app_nil_r. by apply covers_ws_r.
  - cbn [truthy]. apply covers_app; [done|]. apply covers_ws_l; [done|].
    apply covers_trim.
Qed.

Lemma spaced_cons w words : spaced (w :: words) = SP :: w ++ spaced words.
Proof. reflexivity. Qed.

Lemma blanked_cons p paragraphs :
  blanked (p :: paragraphs) = LF :: LF :: p ++ blanked paragraphs.
Proof. reflexivity. Qed.

Lemma spaced_app ws1 ws2 : spaced (ws1 ++ ws2) = spaced ws1 ++ spaced ws2.
Proof. unfold spaced. by rewrite map_app, concat_app. Qed.

(** [split(' ')] returns a first word and the rest, and joining them with
    spaces gives the text back. *)
Lemma split_space_join s :
  ∃ w words, split_space s = w :: words ∧ s = w ++ spaced words.
Proof.
  induction s as [|c s (w & words & Hsplit & Hs)]; [by exists [], []|].
  cbn [split_space]. rewrite Hsplit. destruct (c =? SP)%N eqn:Hc.
  - apply N.eqb_eq in Hc as ->. exists [], (w :: words).
    split; [done|]. by rewrite spaced_cons, <-Hs.
  - exists (c :: w), words. split; [done|]. by rewrite Hs at 1.
Qed.

Lemma split_blank_line_cons c d s :
  split_blank_line (c :: d :: s)
  = if ((c =? LF) && (d =? LF))%N then [] :: split_blank_line s
    else cons_first c (split_blank_line (d :: s)).
Proof. reflexivity. Qed.

Lemma split_blank_line_join_aux n : ∀ s, length s ≤ n →
  ∃ p paragraphs, split_blank_line s = p :: paragraphs ∧
                  s = p ++ blanked paragraphs.
Proof.
  induction n as [|n IH]; intros [|c [|d s]] Hlen; simpl in Hlen; try lia.
  - by exists [], [].
  - by exists [], [].
  - by exists [c], [].
  - rewrite split_blank_line_cons.
    destruct ((c =? LF)%N && (d =? LF)%N) eqn:Hcd.
    + apply andb_true_iff in Hcd as [->%N.eqb_eq ->%N.eqb_eq].
      destruct (IH s) as (p & paragraphs & -> & Hs); [lia|].
      exists [], (p :: paragraphs). split; [done|].
      by rewrite blanked_cons, <-Hs.
    + destruct (IH (d :: s)) as (p & paragraphs & -> & Hs); [simpl; lia|].
      exists (c :: p), paragraphs. split; [done|]. by rewrite Hs at 1.
Qed.

Lemma split_blank_line_join s :
  ∃ p paragraphs, split_blank_line s = p :: paragraphs ∧
                  s = p ++ blanked paragraphs.
Proof. by apply (split_blank_line_join_aux (length s)). Qed.

(** The first word takes the place of the empty chunk. *)
Lemma word_step_first chunks word :
  word_step (chunks, []) word = (chunks, word).
Proof.
  rewrite word_step_unfold. unfold glue, push_truthy. cbn [truthy app].
  by destruct (_ <=? _).
Qed.

(** The loop over the words: what was read, [done ++ gap ++ wordChunk ++
    spaced words], is the chunks pushed so far, a gap and the chunk in
    hand. *)
Lemma words_cover words : ∀ chunks wordChunk done gap,
  covers chunks done → all_ws gap →
  ∃ done' gap',
    covers (fold_left word_step words (chunks, wordChunk)).1 done' ∧
    all_ws gap' ∧
    done ++ gap ++ wordChunk ++ spaced words
    = done' ++ gap' ++ (fold_left word_step words (chunks, wordChunk)).2.
Proof.
  induction words as [|word words IH]; intros chunks wordChunk done gap Hd Hg.
  - exists done, gap. cbn [spaced map concat]. by rewrite app_nil_r.
  - cbn [fold_left]. rewrite word_step_unfold, spaced_cons.
    destruct (length wordChunk + length word + 1 <=? MAX_PAGE_LENGTH).
    + destruct wordChunk as [|c wordChunk].
      * destruct (IH chunks (glue [] word) done (gap ++ [SP]))
          as (done' & gap' & Hc & Hg' & Heq);
          [done | apply all_ws_app; [done | by repeat constructor] |].
        exists done', gap'. split; [done|]. split; [done|].
        rewrite <-Heq. unfold glue. cbn [truthy app].
        by rewrite <-?app_assoc.
      * destruct (IH chunks (glue (c :: wordChunk) word) done gap)
          as (done' & gap' & Hc & Hg' & Heq); [done | done |].
        exists done', gap'. split; [done|]. split; [done|].
        rewrite <-Heq. unfold glue. cbn [truthy].
        by rewrite <-?app_assoc.
    + destruct (IH (push_truthy chunks wordChunk) word
                  (done ++ gap ++ wordChunk) [SP])
        as (done' & gap' & Hc & Hg' & Heq);
        [by apply covers_push_truthy | by repeat constructor |].
      exists done', gap'. split; [done|]. split; [done|].
      rewrite <-Heq. by rewrite <-?app_assoc.
Qed.

(** One round of the loop over the paragraphs; [sep] is what stands in the
    text between what was read and the paragraph. *)
Lemma paragraph_step_cover chunks current done gap sep paragraph :
  covers chunks done → all_ws gap → all_ws sep →
  (truthy current = true → sep = [LF; LF]) →
  ∃ done' gap',
    covers (paragraph_step (chunks, current) paragraph).1 done' ∧
    all_ws gap' ∧
    done ++ gap ++ current ++ sep ++ paragraph
    = done' ++ gap' ++ (paragraph_step (chunks, current) paragraph).2.
Proof.
  intros Hd Hg Hsep Hcur. rewrite paragraph_step_unfold.
  destruct (length current + length paragraph + 2 <=? MAX_PAGE_LENGTH);
    [|destruct (MAX_PAGE_LENGTH <? length paragraph)].
  - destruct current as [|c current].
    + exists done, (gap ++ sep). split; [done|].
      split; [by apply all_ws_app|]. cbn [truthy app snd].
      by rewrite <-?app_assoc.
    + exists done, gap. split; [done|]. split; [done|].
      cbn [truthy snd]. rewrite Hcur by done. by rewrite <-?app_assoc.
  - destruct (split_space_join paragraph) as (w & words & -> & Hp).
    cbn [fold_left]. rewrite word_step_first.
    destruct (words_cover words (push_truthy chunks current) w
                (done ++ gap ++ current) sep)
      as (done' & gap' & Hc & Hg' & Heq);
      [by apply covers_push_truthy | done |].
    eexists _, []. split; [by apply covers_push_truthy|].
    split; [constructor|]. cbn [snd app]. rewrite app_nil_r, <-Heq, Hp.
    by rewrite <-?app_assoc.
  - exists (done ++ gap ++ current), sep.
    split; [by apply covers_push_truthy|]. split; [done|].
    cbn [snd]. by rewrite <-?app_assoc.
Qed.

Lemma paragraphs_cover paragraphs : ∀ chunks current done gap,
  covers chunks done → all_ws gap →
  ∃ done' gap',
    covers (fold_left paragraph_step paragraphs (chunks, current)).1 done' ∧
    all_ws gap' ∧
    done ++ gap ++ current ++ blanked paragraphs
    = done' ++ gap' ++
      (fold_left paragraph_step paragraphs (chunks, current)).2.
Proof.
  induction paragraphs as [|paragraph paragraphs IH];
    intros chunks current done gap Hd Hg.
  - exists done, gap. cbn [blanked map concat]. by rewrite app_nil_r.
  - cbn [fold_left].
    destruct (paragraph_step_cover chunks current done gap [LF; LF] paragraph)
      as (done1 & gap1 & Hc1 & Hg1 & Heq1);
      [done | done | by repeat constructor | done |].
    destruct (paragraph_step (chunks, current) paragraph)
      as [chunks1 current1] eqn:Hstep. cbn [fst snd] in *.
    destruct (IH chunks1 current1 done1 gap1)
      as (done' & gap' & Hc & Hg' & Heq); [done | done |].
    exists done', gap'. split; [done|]. split; [done|].
    rewrite <-Heq, blanked_cons.
    transitivity ((done ++ gap ++ current ++ [LF; LF] ++ paragraph) ++
                  blanked paragraphs).
    + by rewrite <-?app_assoc.
    + rewrite Heq1. by rewrite <-?app_assoc.
Qed.

(** The pages of a text are the text, cut at white space. *)
Lemma split_pages_cover text : covers (split_pages text) text.
Proof.
  rewrite split_pages_unfold.
  destruct (length text <=? MAX_PAGE_LENGTH); [apply covers_one|].
  destruct (split_blank_line_join text) as (p & paragraphs & -> & Htext).
  cbn [fold_left].
  destruct (paragraph_step_cover [] [] [] [] [] p)
    as (done1 & gap1 & Hc1 & Hg1 & Heq1);
    [apply covers_nil, all_ws_nil | apply all_ws_nil | apply all_ws_nil
    | done |].
  destruct (paragraph_step ([], []) p) as [chunks1 current1] eqn:Hstep.
  cbn [fst snd app] in *.
  destruct (paragraphs_cover paragraphs chunks1 current1 done1 gap1)
    as (done' & gap' & Hc & Hg' & Heq); [done | done |].
  rewrite Htext, Heq1, <-!app_assoc, Heq.
  by apply covers_push_truthy.
Qed.

(** The text without its white space. *)
Lemma strip_ws_app s1 s2 : strip_ws (s1 ++ s2) = strip_ws s1 ++ strip_ws s2.
Proof. apply filter_app. Qed.

Lemma strip_ws_all_ws gap : all_ws gap → strip_ws gap = [].
Proof.
  induction 1 as [|c gap Hc _ IH]; [done|].
  unfold strip_ws. rewrite filter_cons_False; [done | congruence].
Qed.

Lemma covers_strip_ws pages s :
  covers pages s → strip_ws s = strip_ws (concat pages).
Proof.
  induction 1 as [gap Hgap|gap page pages rest Hgap Hrest IH].
  - by apply strip_ws_all_ws.
  - cbn [concat]. rewrite !strip_ws_app, IH. by rewrite strip_ws_all_ws.
Qed.

End PageFacts.

(** ** A paragraph of one unit more than a page *)

Module WordFacts.
Import Js MessageService TextTerms JsFacts FormatFacts PageFacts.

Local Open Scope nat_scope.

Lemma split_space_first c s w words :
  c ≠ SP → split_space (c :: s) = w :: words → truthy w = true.
Proof.
  intros Hc. cbn [split_space].
  replace (c =? SP)%N with false by (symmetry; by apply N.eqb_neq).
  destruct (split_space s); simpl; by intros [= <- _].
Qed.

Lemma split_space_no_space s : Forall (λ w, SP ∉ w) (split_space s).
Proof.
  induction s as [|c s IH]; [repeat constructor; by intros ?%elem_of_nil|].
  cbn [split_space]. destruct (c =? SP)%N eqn:Hc.
  - constructor; [by intros ?%elem_of_nil | done].
  - apply N.eqb_neq in Hc.
    destruct (split_space s) as [|w words]; simpl.
    + constructor; [|done]. intros H%list_elem_of_singleton. congruence.
    + apply Forall_cons in IH as [Hw Hwords]. constructor; [|done].
      intros [H|H]%elem_of_cons; [congruence | done].
Qed.

Lemma split_space_last s w :
  s ≠ [] → last s ≠ Some SP → last (split_space s) = Some w →
  truthy w = true.
Proof.
  revert w. induction s as [|c s IH]; intros w Hne Hlast; [done|].
  destruct (split_space_join s) as (w' & words & Hsplit & _).
  cbn [split_space]. rewrite Hsplit.
  destruct s as [|d s].
  - simpl in Hlast, Hsplit. simplify_eq.
    replace (c =? SP)%N with false
      by (symmetry; apply N.eqb_neq; congruence).
    simpl. by intros [= <-].
  - rewrite last_cons_cons in Hlast. rewrite Hsplit in IH.
    destruct (c =? SP)%N.
    + rewrite last_cons_cons. by apply IH.
    + cbn [cons_first]. destruct words as [|w'' words].
      * simpl. by intros [= <-].
      * rewrite last_cons_cons. rewrite last_cons_cons in IH. by apply IH.
Qed.

Lemma glue_truthy wordChunk word :
  truthy wordChunk = true → glue wordChunk word = wordChunk ++ SP :: word.
Proof. intros H. unfold glue. by rewrite H. Qed.

Lemma truthy_app_l s1 s2 : truthy s1 = true → truthy (s1 ++ s2) = true.
Proof. by destruct s1. Qed.

(** A chunk that overflows is cut before the first word that does not fit. *)
Lemma words_overflow words : ∀ chunks wordChunk,
  truthy wordChunk = true →
  length wordChunk ≤ MAX_PAGE_LENGTH →
  MAX_PAGE_LENGTH < length wordChunk + length (spaced words) →
  ∃ ws1 w ws2,
    words = ws1 ++ w :: ws2 ∧
    fold_left word_step words (chunks, wordChunk)
    = fold_left word_step ws2 (chunks ++ [trim (wordChunk ++ spaced ws1)], w).
Proof.
  induction words as [|word words IH]; intros chunks wordChunk Ht Hl Hover.
  - simpl in Hover. lia.
  - cbn [fold_left]. rewrite word_step_unfold.
    rewrite spaced_cons in Hover. simpl in Hover. rewrite length_app in Hover.
    destruct (length wordChunk + length word + 1 <=? MAX_PAGE_LENGTH) eqn:Hfit.
    + apply Nat.leb_le in Hfit. rewrite glue_truthy by done.
      destruct (IH chunks (wordChunk ++ SP :: word))
        as (ws1 & w & ws2 & -> & ->).
      * by apply truthy_app_l.
      * rewrite length_app. simpl. lia.
      * rewrite length_app. simpl. lia.
      * exists (word :: ws1), w, ws2. split; [done|].
        by rewrite spaced_cons, <-app_assoc.
    + exists [], word, words. split; [done|].
      unfold push_truthy. rewrite Ht. cbn [spaced map concat].
      by rewrite app_nil_r.
Qed.

(** Words that fit together are collected in one chunk. *)
Lemma words_collected words : ∀ chunks wordChunk,
  length wordChunk + length (spaced words) ≤ MAX_PAGE_LENGTH →
  fold_left word_step words (chunks, wordChunk)
  = (chunks, fold_left glue words wordChunk).
Proof.
  induction words as [|word words IH]; intros chunks wordChunk Hfit; [done|].
  rewrite spaced_cons in Hfit. simpl in Hfit. rewrite length_app in Hfit.
  cbn [fold_left]. rewrite word_step_unfold.
  replace (length wordChunk + length word + 1 <=? MAX_PAGE_LENGTH) with true
    by (symmetry; apply Nat.leb_le; lia).
  apply IH. pose proof (length_glue wordChunk word). lia.
Qed.

Lemma trim_cons_space s : trim (SP :: s) = trim s.
Proof. reflexivity. Qed.

Lemma trim_glued words : ∀ wordChunk,
  trim (fold_left glue words wordChunk) = trim (wordChunk ++ spaced words).
Proof.
  induction words as [|word words IH]; intros wordChunk.
  - cbn [fold_left spaced map concat]. by rewrite app_nil_r.
  - cbn [fold_left]. rewrite IH, spaced_cons.
    destruct wordChunk as [|c wordChunk].
    + unfold glue. cbn [truthy app]. by rewrite trim_cons_space.
    + rewrite glue_truthy by done. by rewrite <-app_assoc.
Qed.

Lemma truthy_glued words : ∀ wordChunk,
  (∀ w, last (wordChunk :: words) = Some w → truthy w = true) →
  truthy (fold_left glue words wordChunk) = true.
Proof.
  induction words as [|word words IH]; intros wordChunk Hlast.
  - by apply Hlast.
  - cbn [fold_left]. apply IH. intros w.
    destruct words as [|word' words].
    + intros [= <-]. unfold glue.
      assert (truthy word = true) as Hw by (by apply Hlast).
      destruct wordChunk; [done|]. by destruct word.
    + rewrite last_cons_cons. intros Hw. apply Hlast.
      by rewrite !last_cons_cons.
Qed.

(** A text of one unit more than a page, of one paragraph, with a space
    inside and none at either end, is cut at one of its spaces into exactly
    two pages. *)
Lemma split_pages_one_more text :
  length text = S MAX_PAGE_LENGTH →
  split_blank_line text = [text] →
  SP ∈ text → head text ≠ Some SP → last text ≠ Some SP →
  ∃ a b, text = a ++ SP :: b ∧ split_pages text = [trim a; trim b].
Proof.
  intros Hlen Hpar Hsp Hhead Hlast.
  rewrite split_pages_unfold.
  replace (length text <=? MAX_PAGE_LENGTH) with false
    by (symmetry; apply Nat.leb_gt; lia).
  rewrite Hpar. cbn [fold_left]. rewrite paragraph_step_unfold.
  replace (length (@nil N) + length text + 2 <=? MAX_PAGE_LENGTH) with false
    by (symmetry; apply Nat.leb_gt; simpl; lia).
  replace (MAX_PAGE_LENGTH <? length text) with true
    by (symmetry; apply Nat.ltb_lt; lia).
  cbn [fst snd]. change (push_truthy [] []) with (@nil jsstr).
  change (push_truthy ?c []) with c.
  destruct (split_space_join text) as (w1 & words & Hsplit & Htext).
  assert (truthy w1 = true) as Hw1.
  { destruct text as [|c text]; [done|]. simpl in Hhead.
    eapply (split_space_first c text); [congruence | done]. }
  assert (SP ∉ w1) as Hnosp.
  { pose proof (split_space_no_space text) as Hall. rewrite Hsplit in Hall.
    by apply Forall_cons in Hall as [? _]. }
  assert (length text = length w1 + length (spaced words)) as Hsum
    by (by rewrite Htext at 1; rewrite length_app).
  assert (0 < length (spaced words)) as Hrest.
  { destruct words as [|w words]; [|rewrite spaced_cons; simpl; lia].
    cbn [spaced map concat] in Htext. rewrite app_nil_r in Htext. by subst w1. }
  rewrite Hsplit. cbn [fold_left]. rewrite word_step_first.
  destruct (words_overflow words [] w1) as (ws1 & w & ws2 & Hwords & ->);
    [done | lia | lia |].
  rewrite Hwords, spaced_app, spaced_cons in Hsum.
  rewrite !length_app in Hsum. simpl in Hsum. rewrite length_app in Hsum.
  rewrite words_collected by lia. cbn [fst snd app].
  unfold push_truthy. rewrite truthy_glued.
  - rewrite trim_glued. exists (w1 ++ spaced ws1), (w ++ spaced ws2).
    split; [|done].
    by rewrite Htext at 1; rewrite Hwords, spaced_app, spaced_cons, <-app_assoc.
  - intros w' Hw'. eapply (split_space_last text); [by destruct text | done |].
    rewrite Hsplit, Hwords.
    rewrite app_comm_cons, last_app. rewrite Hw'. done.
Qed.

End WordFacts.

(** ** The pages put together again *)

Module CutFacts.
Import Js MessageService TextTerms CutTerms JsFacts FormatFacts PageFacts.

Local Open Scope nat_scope.

(** *** The boundaries change no page *)

Lemma word_step_erase st word :
  word_step (erase st) word = erase (word_step_cuts st word).
Proof.
  destruct st as [chunks wordChunk]. unfold erase, word_step, word_step_cuts.
  cbn [fst snd].
  destruct (length wordChunk + length word + 1 <=? MAX_PAGE_LENGTH); [done|].
  destruct (truthy wordChunk); cbn [fst snd]; [|done].
  by rewrite fmap_app.
Qed.

Lemma words_erase words : ∀ st,
  fold_left word_step words (erase st)
  = erase (fold_left word_step_cuts words st).
Proof.
  induction words as [|w words IH]; intros st; [done|].
  cbn [fold_left]. by rewrite word_step_erase, IH.
Qed.

Lemma paragraph_step_erase st paragraph :
  paragraph_step (erase st) paragraph = erase (paragraph_step_cuts st paragraph).
Proof.
  destruct st as [chunks current].
  unfold erase, paragraph_step, paragraph_step_cuts. cbn [fst snd].
  destruct (length current + length paragraph + 2 <=? MAX_PAGE_LENGTH); [done|].
  destruct (MAX_PAGE_LENGTH <? length paragraph).
  - pose proof (words_erase (split_space paragraph)
                  ((if truthy current
                    then chunks ++ [(trim current, ParagraphEnd)]
                    else chunks), [])) as Hw.
    unfold erase in Hw. cbn [fst snd] in Hw.
    replace ((if truthy current
              then chunks ++ [(trim current, ParagraphEnd)] else chunks).*1)
      with (if truthy current then chunks.*1 ++ [trim current] else chunks.*1)
      in Hw by (destruct (truthy current); [by rewrite fmap_app | done]).
    rewrite Hw. destruct (fold_left word_step_cuts _ _) as [chunks2 wordChunk].
    cbn [fst snd]. destruct (truthy wordChunk); [|done]. by rewrite fmap_app.
  - destruct (truthy current); cbn [fst snd]; [|done]. by rewrite fmap_app.
Qed.

Lemma paragraphs_erase paragraphs : ∀ st,
  fold_left paragraph_step paragraphs (erase st)
  = erase (fold_left paragraph_step_cuts paragraphs st).
Proof.
  induction paragraphs as [|p paragraphs IH]; intros st; [done|].
  cbn [fold_left]. by rewrite paragraph_step_erase, IH.
Qed.

(** The pages of [split_pages_cuts] are the pages of [split_pages]. *)
Lemma split_pages_cuts_pages text :
  (split_pages_cuts text).*1 = split_pages text.
Proof.
  unfold split_pages_cuts, split_pages.
  destruct (length text <=? MAX_PAGE_LENGTH); [done|].
  pose proof (paragraphs_erase (split_blank_line text) ([], [])) as Hp.
  unfold erase in Hp. cbn [fst snd fmap list_fmap] in Hp. rewrite Hp.
  destruct (fold_left paragraph_step_cuts _ _) as [chunks current].
  cbn [fst snd]. destruct (truthy current); [|done]. by rewrite fmap_app.
Qed.

(** *** Tight pieces *)

Lemma tight_inv s :
  tight s = true → ∃ c r, s = c :: r ∧ is_ws c = false ∧ trimEnd s = s.
Proof.
  unfold tight. intros [Hne Htrim%bool_decide_eq_true]%andb_true_iff.
  destruct s as [|c r]; [done|]. exists c, r. split; [done|].
  destruct (is_ws c) eqn:Hc.
  - exfalso. apply (f_equal length) in Htrim. unfold trim in Htrim.
    cbn [trimStart] in Htrim. rewrite Hc in Htrim.
    pose proof (length_trimEnd (trimStart r)).
    pose proof (length_trimStart r). simpl in Htrim. lia.
  - split; [done|]. unfold trim in Htrim. by rewrite trimStart_id in Htrim.
Qed.

Lemma tight_trim s : tight s = true → trim s = s.
Proof. unfold tight. by intros [_ ?%bool_decide_eq_true]%andb_true_iff. Qed.

Lemma tight_truthy s : tight s = true → truthy s = true.
Proof. unfold tight. by intros [? _]%andb_true_iff. Qed.

Lemma trimEnd_app x b : b ≠ [] → trimEnd b = b → trimEnd (x ++ b) = x ++ b.
Proof.
  intros Hne Hb. induction x as [|c x IH]; [done|].
  cbn [app trimEnd]. rewrite IH. by destruct (x ++ b) eqn:Hxb;
    [apply app_eq_nil in Hxb as [_ ?]|].
Qed.

(** Two tight pieces with anything between them make a tight piece. *)
Lemma tight_between a between b :
  tight a = true → tight b = true → tight (a ++ between ++ b) = true.
Proof.
  intros (c & r & -> & Hc & _)%tight_inv Hb.
  pose proof (tight_truthy b Hb) as Hne.
  destruct (tight_inv b Hb) as (d & r' & Hbeq & _ & Hend).
  unfold tight. apply andb_true_iff. split; [done|].
  apply bool_decide_eq_true. unfold trim.
  change ((c :: r) ++ between ++ b) with (c :: (r ++ between ++ b)).
  rewrite trimStart_id by done.
  rewrite (app_assoc r between b), app_comm_cons.
  apply trimEnd_app; [by subst b | done].
Qed.

Lemma chunk_ok_trim s : chunk_ok s → trim s = s.
Proof. intros [->|?]; [done | by apply tight_trim]. Qed.

(** *** The words of a paragraph *)

Lemma flat_snoc chunks page b :
  flat (chunks ++ [(page, b)]) = flat chunks ++ page ++ separator b.
Proof.
  unfold flat. rewrite map_app, concat_app. simpl. by rewrite app_nil_r.
Qed.

Lemma flat_cons page b chunks :
  flat ((page, b) :: chunks) = page ++ separator b ++ flat chunks.
Proof. unfold flat. cbn [map concat fst snd]. by rewrite <-app_assoc. Qed.

Lemma fold_glue_truthy words : ∀ wordChunk,
  truthy wordChunk = true →
  fold_left glue words wordChunk = wordChunk ++ spaced words.
Proof.
  induction words as [|w words IH]; intros wordChunk Hwc.
  - by rewrite app_nil_r.
  - cbn [fold_left]. rewrite IH.
    + unfold glue. rewrite Hwc, spaced_cons. by rewrite <-!app_assoc.
    + unfold glue. rewrite Hwc. by destruct wordChunk.
Qed.

Lemma word_step_cuts_unfold chunks wordChunk word :
  word_step_cuts (chunks, wordChunk) word
  = if length wordChunk + length word + 1 <=? MAX_PAGE_LENGTH
    then (chunks, glue wordChunk word)
    else ((if truthy wordChunk then chunks ++ [(trim wordChunk, WordEnd)]
           else chunks), word).
Proof. reflexivity. Qed.

(** The loop over the words loses nothing when the words are tight: the
    pages it pushed, each followed by a space, and the chunk it holds are
    the words joined with spaces. *)
Lemma words_exact words : ∀ chunks wordChunk,
  forallb tight words = true → chunk_ok wordChunk →
  let st := fold_left word_step_cuts words (chunks, wordChunk) in
  flat st.1 ++ st.2 = flat chunks ++ fold_left glue words wordChunk ∧
  chunk_ok st.2 ∧
  (st.2 = [] → wordChunk = [] ∧ words = []).
Proof.
  induction words as [|w words IH]; intros chunks wordChunk Hwords Hwc.
  - cbn. done.
  - cbn [forallb] in Hwords. apply andb_true_iff in Hwords as [Hw Hwords].
    cbn [fold_left]. rewrite word_step_cuts_unfold.
    pose proof (tight_truthy w Hw) as Hwt.
    destruct (length wordChunk + length w + 1 <=? MAX_PAGE_LENGTH).
    + assert (chunk_ok (glue wordChunk w)) as Hok.
      { right. unfold glue. destruct Hwc as [->|Hwc]; [done|].
        rewrite (tight_truthy _ Hwc). by apply tight_between. }
      destruct (IH chunks (glue wordChunk w) Hwords Hok) as (Heq & Hok' & Hnil).
      split; [done|]. split; [done|]. intros Hst.
      destruct (Hnil Hst) as [Hglue _]. unfold glue in Hglue.
      apply app_eq_nil in Hglue as [_ [_ ->]%app_eq_nil]. done.
    + destruct (IH (if truthy wordChunk
                    then chunks ++ [(trim wordChunk, WordEnd)] else chunks)
                  w Hwords (or_intror Hw)) as (Heq & Hok' & Hnil).
      split; [|split; [done|]].
      * rewrite Heq. rewrite (fold_glue_truthy words w Hwt).
        destruct Hwc as [->|Hwc].
        { cbn [truthy]. change (glue [] w) with w.
          by rewrite fold_glue_truthy. }
        rewrite (tight_truthy _ Hwc), (tight_trim _ Hwc), flat_snoc.
        rewrite fold_glue_truthy
          by (unfold glue; rewrite (tight_truthy _ Hwc);
              by destruct wordChunk).
        unfold glue. rewrite (tight_truthy _ Hwc). cbn [separator].
        by rewrite <-!app_assoc.
      * intros Hst. destruct (Hnil Hst) as [-> _]. done.
Qed.

(** The words of a tight paragraph, joined, are the paragraph. *)
Lemma fold_glue_split paragraph :
  forallb tight (split_space paragraph) = true →
  fold_left glue (split_space paragraph) [] = paragraph.
Proof.
  destruct (split_space_join paragraph) as (w & words & Hsplit & Hp).
  rewrite Hsplit. cbn [forallb fold_left].
  intros [Hw _]%andb_true_iff. change (glue [] w) with w.
  rewrite fold_glue_truthy by (by apply tight_truthy). done.
Qed.

(** *** The paragraphs of a text *)

Lemma ends_paragraph_snoc chunks page :
  ends_paragraph (chunks ++ [(page, ParagraphEnd)]).
Proof. intros page' b. rewrite last_snoc. by intros [= _ <-]. Qed.

Lemma paragraph_step_cuts_unfold chunks current paragraph :
  paragraph_step_cuts (chunks, current) paragraph
  = if length current + length paragraph + 2 <=? MAX_PAGE_LENGTH
    then (chunks, current ++ (if truthy current then [LF; LF] else []) ++ paragraph)
    else
      let chunks1 :=
        if truthy current then chunks ++ [(trim current, ParagraphEnd)]
        else chunks in
      if MAX_PAGE_LENGTH <? length paragraph
      then
        let st := fold_left word_step_cuts (split_space paragraph) (chunks1, []) in
        ((if truthy st.2 then st.1 ++ [(trim st.2, ParagraphEnd)] else st.1), [])
      else (chunks1, paragraph).
Proof.
  unfold paragraph_step_cuts.
  destruct (length current + length paragraph + 2 <=? MAX_PAGE_LENGTH); [done|].
  cbn zeta. destruct (MAX_PAGE_LENGTH <? length paragraph); [|done].
  by destruct (fold_left word_step_cuts _ _).
Qed.

Lemma paragraph_step_exact chunks current paragraph :
  paragraph_ok paragraph = true → chunk_ok current → ends_paragraph chunks →
  let st := paragraph_step_cuts (chunks, current) paragraph in
  emitted st = emitted (chunks, current) ++ paragraph ++ [LF; LF] ∧
  chunk_ok st.2 ∧ ends_paragraph st.1.
Proof.
  intros [Hp Hwords]%andb_true_iff Hcur Hends.
  pose proof (tight_truthy _ Hp) as Hpt.
  rewrite paragraph_step_cuts_unfold.
  assert (flat (if truthy current
                then chunks ++ [(trim current, ParagraphEnd)] else chunks)
          = emitted (chunks, current)) as Hpush.
  { unfold emitted. cbn [fst snd]. destruct Hcur as [->|Hcur].
    - cbn. by rewrite app_nil_r.
    - by rewrite (tight_truthy _ Hcur), (tight_trim _ Hcur), flat_snoc. }
  assert (ends_paragraph (if truthy current
                          then chunks ++ [(trim current, ParagraphEnd)]
                          else chunks)) as Hends1.
  { destruct (truthy current); [apply ends_paragraph_snoc | done]. }
  destruct (length current + length paragraph + 2 <=? MAX_PAGE_LENGTH).
  - cbn zeta. unfold emitted. cbn [fst snd]. split; [|split; [|done]].
    + destruct Hcur as [->|Hcur].
      * cbn [truthy app]. rewrite Hpt. by rewrite app_nil_r.
      * rewrite (tight_truthy _ Hcur).
        rewrite (tight_truthy _ (tight_between current [LF; LF] paragraph Hcur Hp)).
        by rewrite <-!app_assoc.
    + right. destruct Hcur as [->|Hcur]; [done|].
      rewrite (tight_truthy _ Hcur). by apply tight_between.
  - cbn zeta. destruct (MAX_PAGE_LENGTH <? length paragraph).
    + destruct (words_exact (split_space paragraph)
                  (if truthy current
                   then chunks ++ [(trim current, ParagraphEnd)] else chunks)
                  [] Hwords (or_introl eq_refl)) as (Heq & Hok & Hnil).
      cbn zeta in Heq, Hok, Hnil.
      destruct (fold_left word_step_cuts _ _) as [chunks2 wordChunk].
      cbn [fst snd] in *. rewrite fold_glue_split in Heq by done.
      destruct Hok as [->|Hok].
      { destruct Hnil as [_ Hsplit]; [done|].
        destruct (split_space_join paragraph) as (? & ? & Hs & _). congruence. }
      rewrite (tight_truthy _ Hok), (tight_trim _ Hok).
      unfold emitted at 1. cbn [fst snd truthy]. rewrite app_nil_r, flat_snoc.
      split; [|split; [by left | apply ends_paragraph_snoc]].
      cbn [separator]. rewrite app_assoc, Heq, Hpush. by rewrite <-!app_assoc.
    + unfold emitted at 1. cbn [fst snd]. rewrite Hpt, Hpush.
      split; [done|]. split; [by right | done].
Qed.

Lemma paragraphs_exact paragraphs : ∀ chunks current,
  forallb paragraph_ok paragraphs = true →
  chunk_ok current → ends_paragraph chunks →
  let st := fold_left paragraph_step_cuts paragraphs (chunks, current) in
  emitted st = emitted (chunks, current) ++ terminated paragraphs ∧
  chunk_ok st.2 ∧ ends_paragraph st.1.
Proof.
  induction paragraphs as [|p paragraphs IH]; intros chunks current Hps Hcur Hends.
  - cbn. by rewrite app_nil_r.
  - cbn [forallb] in Hps. apply andb_true_iff in Hps as [Hp Hps].
    cbn [fold_left].
    destruct (paragraph_step_exact chunks current p Hp Hcur Hends)
      as (Heq & Hcur1 & Hends1). cbn zeta in Heq, Hcur1, Hends1.
    destruct (paragraph_step_cuts (chunks, current) p) as [chunks1 current1].
    destruct (IH chunks1 current1 Hps Hcur1 Hends1) as (Heq' & Hcur2 & Hends2).
    split; [|done]. rewrite Heq', Heq. unfold terminated. cbn [map concat].
    by rewrite <-!app_assoc.
Qed.

Lemma terminated_blanked paragraphs : ∀ p,
  terminated (p :: paragraphs) = (p ++ blanked paragraphs) ++ [LF; LF].
Proof.
  induction paragraphs as [|q paragraphs IH]; intros p.
  - unfold terminated, blanked. cbn. by rewrite !app_nil_r.
  - replace (terminated (p :: q :: paragraphs))
      with (p ++ [LF; LF] ++ terminated (q :: paragraphs))
      by (unfold terminated; cbn [map concat]; by rewrite <-!app_assoc).
    rewrite IH, blanked_cons. by simplify_list_eq.
Qed.

Lemma flat_rejoin chunks : ∀ page b,
  flat (chunks ++ [(page, b)])
  = rejoin_with separator (chunks ++ [(page, b)]) ++ separator b.
Proof.
  induction chunks as [|[p c] chunks IH]; intros page b.
  - unfold flat. cbn. by rewrite app_nil_r.
  - rewrite <-app_comm_cons, flat_cons, IH. cbn [rejoin_with].
    destruct (chunks ++ [(page, b)]) as [|x rest] eqn:Hx;
      [by apply app_eq_nil in Hx as [_ ?]|].
    by rewrite <-!app_assoc.
Qed.

(** The pages of a text without artifacts, each followed by what was taken
    away after it, are the text. *)
Lemma split_pages_cuts_exact text :
  no_artifacts text = true →
  rejoin_with separator (split_pages_cuts text) = text.
Proof.
  intros Hclean. unfold split_pages_cuts.
  destruct (length text <=? MAX_PAGE_LENGTH) eqn:Hlen; [done|].
  apply Nat.leb_gt in Hlen.
  destruct (split_blank_line_join text) as (p & paragraphs & Hsplit & Htext).
  unfold no_artifacts in Hclean. rewrite Hsplit in *.
  destruct (paragraphs_exact (p :: paragraphs) [] [] Hclean (or_introl eq_refl))
    as (Heq & Hcur & Hends); [by intros ?? [=]|].
  cbn zeta in Heq, Hcur, Hends.
  destruct (fold_left paragraph_step_cuts _ _) as [chunks current].
  cbn [fst snd] in *. change (emitted ([], [])) with (@nil N) in Heq.
  unfold emitted in Heq. cbn [fst snd app] in Heq.
  rewrite terminated_blanked, <-Htext in Heq.
  destruct Hcur as [->|Hcur].
  - cbn [truthy] in *. rewrite app_nil_r in Heq.
    destruct chunks as [|x chunks _] using rev_ind.
    { cbn in Heq. by destruct text. }
    destruct x as [page b]. rewrite (Hends page b) in * by apply last_snoc.
    rewrite flat_rejoin in Heq. by apply app_inv_tail in Heq.
  - rewrite (tight_truthy _ Hcur) in *. rewrite (tight_trim _ Hcur).
    apply (app_inv_tail [LF; LF]). rewrite <-Heq.
    change [LF; LF] with (separator ParagraphEnd) at 1.
    by rewrite <-flat_rejoin, flat_snoc.
Qed.

(** *** Texts without a paragraph longer than a page *)

Lemma paragraph_step_cuts_whole chunks current paragraph :
  length paragraph ≤ MAX_PAGE_LENGTH →
  Forall (λ pb, pb.2 = ParagraphEnd) chunks →
  Forall (λ pb, pb.2 = ParagraphEnd)
    (paragraph_step_cuts (chunks, current) paragraph).1.
Proof.
  intros Hlen Hchunks. rewrite paragraph_step_cuts_unfold.
  destruct (length current + length paragraph + 2 <=? MAX_PAGE_LENGTH); [done|].
  cbn zeta. replace (MAX_PAGE_LENGTH <? length paragraph) with false
    by (symmetry; apply Nat.ltb_ge; lia).
  cbn [fst]. destruct (truthy current); [|done].
  apply Forall_app. split; [done|]. by constructor.
Qed.

Lemma paragraphs_cuts_whole paragraphs : ∀ chunks current,
  Forall (λ p, length p ≤ MAX_PAGE_LENGTH) paragraphs →
  Forall (λ pb, pb.2 = ParagraphEnd) chunks →
  Forall (λ pb, pb.2 = ParagraphEnd)
    (fold_left paragraph_step_cuts paragraphs (chunks, current)).1.
Proof.
  induction paragraphs as [|p paragraphs IH]; intros chunks current Hps Hchunks.
  - done.
  - apply Forall_cons in Hps as [Hp Hps]. cbn [fold_left].
    pose proof (paragraph_step_cuts_whole chunks current p Hp Hchunks) as H1.
    destruct (paragraph_step_cuts (chunks, current) p) as [chunks1 current1].
    by apply IH.
Qed.

(** No page of such a text ends inside a paragraph. *)
Lemma split_pages_cuts_whole text :
  Forall (λ p, length p ≤ MAX_PAGE_LENGTH) (split_blank_line text) →
  Forall (λ pb, pb.2 = ParagraphEnd) (split_pages_cuts text).
Proof.
  intros Hps. unfold split_pages_cuts.
  destruct (length text <=? MAX_PAGE_LENGTH); [by repeat constructor|].
  pose proof (paragraphs_cuts_whole (split_blank_line text) [] [] Hps
                (Forall_nil_2 _)) as H.
  destruct (fold_left paragraph_step_cuts _ _) as [chunks current].
  cbn [fst] in H. destruct (truthy current); [|done].
  apply Forall_app. split; [done|]. by constructor.
Qed.

Lemma rejoin_with_ext fill1 fill2 chunks :
  Forall (λ pb, fill1 pb.2 = fill2 pb.2) chunks →
  rejoin_with fill1 chunks = rejoin_with fill2 chunks.
Proof.
  induction 1 as [|[page b] chunks Hb _ IH]; [done|].
  cbn [rejoin_with]. destruct chunks; [done|]. cbn [snd] in Hb.
  by rewrite Hb, IH.
Qed.

End CutFacts.

(** ** The claims about pagination *)

Module PaginationClaims.
Import Js MessageService TextTerms CutTerms JsFacts FormatFacts PageFacts
  WordFacts CutFacts.

Local Open Scope nat_scope.

(** C6 as stated fails on the code: a word of 3501 units is not cut and is
    returned as one page of 3501 units; and a text of 3501 units that starts
    with a space gives one page, not two. *)
Lemma splitMessage_long_word_one_page :
  length long_word = 3501 ∧
  split_blank_line long_word = [long_word] ∧
  (splitMessage empty long_word).1 = [long_word] ∧
  ¬ Forall (λ p, length p ≤ MAX_PAGE_LENGTH) (splitMessage empty long_word).1 ∧
  length space_then_word = 3501 ∧
  (splitMessage empty space_then_word).1 = [repeat 97%N 3500].
Proof.
  split; [by vm_compute|]. split; [by vm_compute|].
  split; [by vm_compute|]. split; [|split; by vm_compute].
  intros H. destruct (splitMessage_spec empty long_word cache_ok_empty) as [Hp _].
  rewrite Hp in H. replace (split_pages long_word) with [long_word] in H
    by (by vm_compute).
  apply Forall_cons in H as [H _]. revert H.
  replace (length long_word) with (S MAX_PAGE_LENGTH) by (by vm_compute). lia.
Qed.

(** C6 (amended): no page is longer than 3500 units when no word of the
    text is (a word is what [split(' ')] makes of a paragraph); a text of
    exactly 3500 units is its own single page; and a text of 3501 units in
    one paragraph that has a space inside and none at either end gives
    exactly two pages, the trimmed parts before and after one of its
    spaces. *)
Theorem splitMessage_pages this text :
  cache_ok this →
  (Forall (λ p, Forall (λ w, length w ≤ MAX_PAGE_LENGTH) (split_space p))
     (split_blank_line text) →
   Forall (λ p, length p ≤ MAX_PAGE_LENGTH) (splitMessage this text).1) ∧
  (length text = MAX_PAGE_LENGTH → (splitMessage this text).1 = [text]) ∧
  (length text = S MAX_PAGE_LENGTH →
   split_blank_line text = [text] →
   SP ∈ text → head text ≠ Some SP → last text ≠ Some SP →
   ∃ a b, text = a ++ SP :: b ∧
          (splitMessage this text).1 = [trim a; trim b]).
Proof.
  intros Hok. destruct (splitMessage_spec this text Hok) as [-> _].
  split; [apply split_pages_fit|]. split; [|apply split_pages_one_more].
  intros Hlen. rewrite split_pages_unfold.
  by replace (length text <=? MAX_PAGE_LENGTH) with true
    by (symmetry; apply Nat.leb_le; lia).
Qed.

Lemma splitMessage_pages_witness :
  cache_ok empty ∧
  Forall (λ p, length p ≤ MAX_PAGE_LENGTH) (splitMessage empty two_words).1 ∧
  (splitMessage empty (repeat 97%N 3500)).1 = [repeat 97%N 3500] ∧
  ∃ a b, two_words = a ++ SP :: b ∧
         (splitMessage empty two_words).1 = [trim a; trim b].
Proof.
  split; [apply cache_ok_empty|].
  destruct (splitMessage_pages empty two_words cache_ok_empty)
    as (Hfit & _ & Htwo).
  destruct (splitMessage_pages empty (repeat 97%N 3500) cache_ok_empty)
    as (_ & Hone & _).
  split; [|split].
  - apply Hfit. replace (split_blank_line two_words) with [two_words]
      by (by vm_compute).
    constructor; [|constructor].
    replace (split_space two_words) with [repeat 97%N 1750; repeat 97%N 1750]
      by (by vm_compute).
    constructor; [|constructor; [|constructor]];
      apply Nat.leb_le; by vm_compute.
  - apply Hone. by vm_compute.
  - apply Htwo.
    + by vm_compute.
    + by vm_compute.
    + apply elem_of_app. right. by left.
    + by vm_compute.
    + by vm_compute.
Defined.

(** C5 as stated fails on the code.  The text of 1750 letters, a space and
    1750 letters has no white space at the end of a paragraph or word and is
    left as it is by the formatter; it gives two pages, cut at the space;
    and the two pages joined without a separator are one word of 3500
    letters, where the formatted text has two words and 3501 units. *)
Lemma pagination_word_join_loses_space :
  (formatResponse empty two_words).1 = two_words ∧
  no_artifacts two_words = true ∧
  (splitMessage (formatResponse empty two_words).2 two_words).1
  = [repeat 97%N 1750; repeat 97%N 1750] ∧
  split_pages_cuts two_words
  = [(repeat 97%N 1750, WordEnd); (repeat 97%N 1750, ParagraphEnd)] ∧
  rejoin_with blank_line_only (split_pages_cuts two_words) = repeat 97%N 3500 ∧
  length (split_space (repeat 97%N 3500)) = 1 ∧
  length (split_space two_words) = 2 ∧
  rejoin_with blank_line_only (split_pages_cuts two_words) ≠ two_words.
Proof.
  split; [by vm_compute|]. split; [by vm_compute|]. split; [by vm_compute|].
  split; [by vm_compute|]. split; [by vm_compute|].
  split; [by vm_compute|]. split; [by vm_compute|].
  intros H. apply (f_equal length) in H. vm_compute in H. discriminate H.
Qed.

(** C5 (amended): for a text whose formatted text has no white space where
    it can be cut (every paragraph, and every word of a paragraph longer
    than a page, is not empty and has no white space at either end), the
    pages of [splitMessage(formatResponse(text))], joined again with the
    blank line after a page that ends a paragraph and with one space after
    a page that ends inside a paragraph, are the formatted text.  When no
    paragraph is longer than a page, no page ends inside a paragraph, and
    the blank lines alone give the formatted text back. *)
Theorem pagination_round_trip this text :
  cache_ok this →
  no_artifacts (formatResponse this text).1 = true →
  let formatted := (formatResponse this text).1 in
  let pages := (splitMessage (formatResponse this text).2 formatted).1 in
  let cuts := split_pages_cuts formatted in
  cuts.*1 = pages ∧
  rejoin_with separator cuts = formatted ∧
  (Forall (λ p, length p ≤ MAX_PAGE_LENGTH) (split_blank_line formatted) →
   rejoin_with blank_line_only cuts = formatted).
Proof.
  intros Hok Hclean formatted pages cuts. subst formatted pages cuts.
  destruct (formatResponse_spec this text Hok) as [_ Hok1].
  destruct (splitMessage_spec _ (formatResponse this text).1 Hok1) as [-> _].
  split; [apply split_pages_cuts_pages|].
  split; [by apply split_pages_cuts_exact|].
  intros Hshort. rewrite <-(split_pages_cuts_exact _ Hclean) at 2.
  apply rejoin_with_ext.
  eapply Forall_impl; [by apply split_pages_cuts_whole|].
  intros [page b] Hb. cbn [snd] in *. by subst b.
Qed.

Lemma pagination_round_trip_witness :
  cache_ok empty ∧
  no_artifacts (formatResponse empty three_pages).1 = true ∧
  (splitMessage (formatResponse empty three_pages).2
     (formatResponse empty three_pages).1).1
  = [repeat 97%N 3000; repeat 98%N 2000; repeat 99%N 2000] ∧
  (split_pages_cuts (formatResponse empty three_pages).1).*2
  = [ParagraphEnd; WordEnd; ParagraphEnd] ∧
  rejoin_with separator (split_pages_cuts (formatResponse empty three_pages).1)
  = (formatResponse empty three_pages).1.
Proof.
  split; [apply cache_ok_empty|]. split; [by vm_compute|].
  split; [by vm_compute|]. split; [by vm_compute|].
  apply (pagination_round_trip empty three_pages cache_ok_empty).
  by vm_compute.
Defined.

End PaginationClaims.

(** ** The rate limiter: reports, sweeps and blocks *)

Module LimiterExtras.
Import Js RateLimitService KeyTerms KeyFacts RateLimitTerms RateLimitFacts
  LimiterTerms.

(** Two pairs of a user and an action have the same key only if they are
    the same pair, whatever the text of the action. *)
Lemma limit_key_inj userId action userId' action' :
  limit_key userId action = limit_key userId' action' →
  userId = userId' ∧ action = action'.
Proof.
  unfold limit_key. intros Heq.
  assert (pretty userId = pretty userId') as Hid.
  { eapply (separator_unique ":"%char _ _ action action').
    - intros Hin. apply colon_not_digit.
      by eapply (proj1 (Forall_forall _ _) (pretty_Z_chars userId)).
    - intros Hin. apply colon_not_digit.
      by eapply (proj1 (Forall_forall _ _) (pretty_Z_chars userId')).
    - exact Heq. }
  split; [by apply (inj pretty)|].
  rewrite Hid in Heq. apply (inj (String.app (pretty userId'))) in Heq.
  by injection Heq.
Qed.

(** What a check does to the state: nothing, or it writes the window of its
    key; rules and VIP set stay. *)
Lemma checkLimit_effect now this userId action r this' :
  checkLimit now this userId action = Some (r, this') →
  rules this' = rules this ∧ rules_prototype this' = rules_prototype this ∧
  vipUsers this' = vipUsers this ∧
  (this' = this ∨
   ∃ info', limits this' = <[limit_key userId action := info']> (limits this) ∧
     ∀ rule, rule_for this action = VRule rule →
       (match limits this !! limit_key userId action with
        | Some info => 0 ≤ count info ≤ Z.max 0 (maxRequests rule)
        | None => True
        end) →
       0 ≤ count info' ≤ Z.max 0 (maxRequests rule)).
Proof.
  unfold checkLimit. intros Hcheck.
  destruct (limits this !! limit_key userId action) as [old|] eqn:Hold.
  - destruct (blocked_at now (Some old)); [simplify_eq/=; by eauto 10|].
    destruct (rule_for this action) as [rule|n| |] eqn:Hrule; [| | |done];
      destruct (after now (resetTime old));
      cbn [default from_option id count resetTime blockedUntil violations
           at_least maxRequests_of] in Hcheck;
      try (destruct (maxRequests rule <=? _) eqn:Hfull); simplify_eq/=;
      (split; [done|]); (split; [done|]); (split; [done|]); right;
      eexists; (split; [by rewrite ?insert_insert_eq|]);
      intros rule' [= <-] Hb; cbn [count]; lia.
  - destruct (rule_for this action) as [rule|n| |] eqn:Hrule; [| | |done];
      cbn [count at_least maxRequests_of] in Hcheck;
      try (destruct (maxRequests rule <=? 0) eqn:Hfull); simplify_eq/=;
      (split; [done|]); (split; [done|]); (split; [done|]); right;
      eexists; (split; [by rewrite ?insert_insert_eq|]);
      intros rule' [= <-] Hb; cbn [count]; lia.
Qed.

Lemma counts_bounded_initial : counts_bounded initial.
Proof.
  intros userId action info rule H.
  change (limits initial) with (∅ : gmap string UserLimitInfo) in H.
  by rewrite lookup_empty in H.
Qed.

(** X1: a check keeps every count between zero and the maximum of its rule:
    [count] never exceeds [maxRequests], for any user, action and time, as
    long as the rules are not replaced. *)
Theorem checkLimit_keeps_counts_bounded now this userId action r this' :
  counts_bounded this →
  checkLimit now this userId action = Some (r, this') →
  counts_bounded this'.
Proof.
  intros Hinv Hcheck.
  destruct (checkLimit_effect _ _ _ _ _ _ Hcheck)
    as (Hrules & Hproto & _ & [->|Hw]); [done|].
  destruct Hw as (info' & Hlimits & Hcount).
  intros u a info rule Hinfo Hrule.
  assert (rule_for this a = VRule rule) as Hrule0.
  { revert Hrule. unfold rule_for, get_rule. by rewrite Hrules, Hproto. }
  rewrite Hlimits in Hinfo.
  destruct (decide (limit_key userId action = limit_key u a)) as [Heq|Hne].
  - rewrite Heq, lookup_insert_eq in Hinfo. simplify_eq.
    apply limit_key_inj in Heq as [-> ->]. apply Hcount; [done|].
    destruct (limits this !! limit_key u a) as [old|] eqn:Hold; [|done].
    by eapply Hinv.
  - rewrite lookup_insert_ne in Hinfo by done. by eapply Hinv.
Qed.

Lemma checkLimit_keeps_counts_bounded_witness :
  counts_bounded initial ∧
  ∃ r this', checkLimit 1000 initial 7 "command" = Some (r, this') ∧
             counts_bounded this'.
Proof.
  split; [apply counts_bounded_initial|].
  eexists _, _. split; [vm_compute; reflexivity|].
  eapply (checkLimit_keeps_counts_bounded 1000 initial 7 "command");
    [apply counts_bounded_initial | vm_compute; reflexivity].
Defined.

Lemma checkLimit_while_blocked later this userId action info b :
  limits this !! limit_key userId action = Some info →
  blockedUntil info = Some b → b ≠ 0 → later < b →
  checkLimit later this userId action
  = Some (mkResult false (Int 0) (resetTime info) (Some b)
            (Some (BlockedUntil b)), this).
Proof.
  intros Hinfo Hb Hnz Hlater. unfold checkLimit.
  rewrite Hinfo. unfold blocked_at. rewrite Hb. cbn [truthy_num].
  replace (b =? 0) with false by lia.
  by replace (later <? b) with true by lia.
Qed.

(** A check that is turned down under a rule with a block duration leaves a
    window that is blocked until the time it reports. *)
Lemma checkLimit_rejected_blocks now this userId action rule d r this1 :
  rule_for this action = VRule rule →
  blockDurationMs rule = Some d → 0 < d → 0 < now →
  checkLimit now this userId action = Some (r, this1) →
  allowed r = false →
  ∃ info b, limits this1 !! limit_key userId action = Some info ∧
            blockedUntil info = Some b ∧ b ≠ 0 ∧
            result_blockedUntil r = Some b ∧
            resetTime info = result_resetTime r.
Proof.
  intros Hrule Hd Hdpos Hnow Hcheck Hrej.
  assert (truthy_num (Some d) = true) as Htruthy
    by (cbn; by replace (d =? 0) with false by lia).
  unfold checkLimit in Hcheck. rewrite Hrule in Hcheck.
  cbn [blockDurationMs_of maxRequests_of windowMs_of at_least] in Hcheck.
  rewrite Hd, Htruthy in Hcheck.
  destruct (limits this !! limit_key userId action) as [old|] eqn:Hold.
  - destruct (blocked_at now (Some old)) eqn:Hbl.
    + simplify_eq/=. unfold blocked_at in Hbl.
      destruct (blockedUntil old) as [b|] eqn:Hb; [|done].
      cbn [truthy_num] in Hbl. exists old, b.
      repeat split; try done. lia.
    + destruct (after now (resetTime old));
        cbn [default from_option id count resetTime blockedUntil violations]
          in Hcheck;
        destruct (maxRequests rule <=? _); simplify_eq/=;
        (eexists _, (now + d); split; [apply lookup_insert_eq|]);
        repeat split; try done; lia.
  - cbn [count] in Hcheck.
    destruct (maxRequests rule <=? 0); simplify_eq/=.
    eexists _, (now + d). split; [apply lookup_insert_eq|].
    repeat split; try done; lia.
Qed.

(** X2: a block holds.  When a check is turned down under a rule with a
    block duration, it names the end of the block, and every later check
    before that end is turned down with the same end and changes nothing:
    no further violation is counted, the block is not extended, and the end
    of the window in between does not lift it. *)
Theorem block_holds now this userId action rule d r this1 :
  rule_for this action = VRule rule →
  blockDurationMs rule = Some d → 0 < d → 0 < now →
  checkLimit now this userId action = Some (r, this1) →
  allowed r = false →
  ∃ b, result_blockedUntil r = Some b ∧
    ∀ later, later < b →
      checkLimit later this1 userId action
      = Some (mkResult false (Int 0) (result_resetTime r) (Some b)
                (Some (BlockedUntil b)), this1).
Proof.
  intros Hrule Hd Hdpos Hnow Hcheck Hrej.
  destruct (checkLimit_rejected_blocks _ _ _ _ _ _ _ _ Hrule Hd Hdpos Hnow
              Hcheck Hrej) as (info & b & Hinfo & Hb & Hnz & Hrb & Hreset).
  exists b. split; [done|]. intros later Hlater. rewrite <-Hreset.
  by apply checkLimit_while_blocked.
Qed.

(** The spec's scenario: the sixth change of settings within a minute is
    turned down at 1005 with a block until 61005, and so is a check at
    11005. *)
Lemma block_holds_witness :
  ∃ r this1,
    checkLimit 1005
      (set_limit initial (limit_key 7 "settings_change")
         (mkInfo 5 (Int 61000) None 0)) 7 "settings_change" = Some (r, this1) ∧
    result_blockedUntil r = Some 61005 ∧
    checkLimit 11005 this1 7 "settings_change"
    = Some (mkResult false (Int 0) (Int 61000) (Some 61005) (Some (BlockedUntil 61005)),
            this1).
Proof.
  eexists _, _. split; [vm_compute; reflexivity|]. split; [done|].
  edestruct (block_holds 1005
               (set_limit initial (limit_key 7 "settings_change")
                  (mkInfo 5 (Int 61000) None 0)) 7 "settings_change"
               (mkRule 5 60000 (Some 60000)) 60000) as (b & Hb & Hlater);
    [by vm_compute | done | lia | lia | vm_compute; reflexivity | done |].
  injection Hb as <-. apply (Hlater 11005). lia.
Defined.

End LimiterExtras.

Module LimiterSweepExtras.
Import Js RateLimitService KeyTerms KeyFacts RateLimitTerms RateLimitFacts
  LimiterTerms.




(** X4: a reset lifts a block.  After the windows of a user are reset, all
    of them or the one of the action, the next check of that action starts
    a window and is allowed with [remaining = max - 1], whatever the count
    and the block were. *)
Theorem reset_lifts_block now this userId action which rule :
  rule_for this action = VRule rule →
  0 < maxRequests rule →
  which = None ∨ (which = Some action ∧ action ≠ ""%string) →
  ∃ this',
    checkLimit now (resetUserLimits this userId which) userId action
    = Some (mkResult true (Int (maxRequests rule - 1))
              (Int (now + windowMs rule)) None None, this').
Proof.
  intros Hrule Hmax Hwhich.
  assert (limits (resetUserLimits this userId which)
            !! limit_key userId action = None) as Hgone.
  { destruct Hwhich as [->|[-> Hne]].
    - rewrite resetUserLimits_lookup.
      by rewrite (proj2 (limit_key_prefix userId userId action)).
    - destruct action as [|a rest]; [done|].
      unfold resetUserLimits. cbn [limits]. apply lookup_delete_eq. }
  destruct (checkLimit_starts now (resetUserLimits this userId which)
              userId action rule) as (info & this' & Hcheck & _);
    [done | | done | by exists this'].
  unfold window_starts. by rewrite Hgone.
Qed.

Lemma reset_lifts_block_witness :
  ∃ this',
    checkLimit 2000 (resetUserLimits blocked_state 7 None) 7 "settings_change"
    = Some (mkResult true (Int 4) (Int 62000) None None, this').
Proof.
  apply (reset_lifts_block 2000 blocked_state 7 "settings_change" None
           (mkRule 5 60000 (Some 60000)));
    [by vm_compute | by vm_compute | by left].
Defined.

(** The window an allowed check leaves. *)
Lemma checkLimit_allowed_record now this userId action rule r this' :
  rule_for this action = VRule rule →
  checkLimit now this userId action = Some (r, this') →
  allowed r = true →
  rules this' = rules this ∧
  ∃ info, limits this' !! limit_key userId action = Some info ∧
          remaining r = Int (maxRequests rule - count info) ∧
          blocked_at now (Some info) = false.
Proof.
  intros Hrule Hcheck Hallowed.
  unfold checkLimit in Hcheck. rewrite Hrule in Hcheck.
  cbn [at_least minus maxRequests_of] in Hcheck.
  destruct (limits this !! limit_key userId action) as [old|] eqn:Hold.
  - destruct (blocked_at now (Some old)) eqn:Hbl; [by simplify_eq/=|].
    destruct (after now (resetTime old));
      cbn [default from_option id count resetTime blockedUntil violations]
        in Hcheck;
      destruct (maxRequests rule <=? _); simplify_eq;
      (split; [done|]); unfold set_limit; cbn [limits];
      rewrite lookup_insert_eq; eexists; (split; [done|]);
      cbn [count remaining]; (split; [done|]); done.
  - cbn [count] in Hcheck.
    destruct (maxRequests rule <=? 0); simplify_eq.
    split; [done|]. unfold set_limit; cbn [limits].
    rewrite lookup_insert_eq. eexists. split; [done|].
    cbn [count remaining]. split; [done|]. done.
Qed.

(** X5: the report agrees with the check.  After a check of an action with
    a rule of its own was allowed, the report of the user shows for that
    action the requests used, [current = max - remaining], and no block. *)
Theorem report_after_allowed_check now this userId action rule r this' :
  rules this !! action = Some rule →
  checkLimit now this userId action = Some (r, this') →
  allowed r = true →
  ∃ rep, getUserLimitInfo now this' userId !! action = Some rep ∧
         report_max rep = maxRequests rule ∧
         remaining r = Int (maxRequests rule - report_current rep) ∧
         report_blocked rep = false.
Proof.
  intros Hown Hcheck Hallowed.
  assert (rule_for this action = VRule rule) as Hrule
    by (unfold rule_for, get_rule; by rewrite Hown).
  destruct (checkLimit_allowed_record _ _ _ _ _ _ _ Hrule Hcheck Hallowed)
    as (Hrules & info & Hinfo & Hcount & Hfree).
  unfold getUserLimitInfo. rewrite map_lookup_imap, Hrules, Hown.
  eexists. split; [reflexivity|]. unfold report_for. rewrite Hinfo.
  cbn [report_max report_current report_blocked]. done.
Qed.

Lemma report_after_allowed_check_witness :
  ∃ r this', checkLimit 1000 initial 7 "command" = Some (r, this') ∧
    ∃ rep, getUserLimitInfo 1000 this' 7 !! "command"%string = Some rep ∧
           report_max rep = 20 ∧ remaining r = Int (20 - report_current rep) ∧
           report_blocked rep = false.
Proof.
  eexists _, _. split; [vm_compute; reflexivity|].
  eapply (report_after_allowed_check 1000 initial 7 "command"
            (mkRule 20 60000 None));
    [by vm_compute | vm_compute; reflexivity | done].
Defined.

End LimiterSweepExtras.

(** ** The rate limiter: actions named like inherited members *)

Module InheritedNameExtras.
Import Js RateLimitService KeyTerms KeyFacts RateLimitTerms RateLimitFacts
  LimiterTerms.

Lemma rule_for_inherited this action :
  action ∈ object_prototype_members →
  rules this !! action = None → rules_prototype this = None →
  rule_for this action = VBuiltin.
Proof.
  intros Hin Hown Hproto. unfold rule_for, get_rule. rewrite Hown, Hproto.
  cbn [mbind option_bind]. case_decide; [done|]. by rewrite decide_True.
Qed.

(** A check under a value that is no rule, of a window that is absent or
    was written by such a check. *)
Lemma checkLimit_no_rule now this userId action :
  rule_for this action = VBuiltin →
  (limits this !! limit_key userId action = None ∨
   ∃ info, limits this !! limit_key userId action = Some info ∧
           blockedUntil info = None ∧ resetTime info = NaN) →
  ∃ info',
    checkLimit now this userId action
    = Some (mkResult true NaN NaN None None,
            set_limit this (limit_key userId action) info') ∧
    blockedUntil info' = None ∧ resetTime info' = NaN.
Proof.
  intros Hrule Hwindow. unfold checkLimit. rewrite Hrule.
  destruct Hwindow as [->|(info & -> & Hb & Hr)].
  - exists (mkInfo 1 NaN None 0). split; [|done]. cbn. unfold set_limit. cbn.
    by rewrite insert_insert_eq.
  - unfold blocked_at. rewrite Hb, Hr. cbn. rewrite Hb, Hr.
    eexists. split; [reflexivity|]. done.
Qed.

Lemma check_many_no_rule times : ∀ this userId action,
  rule_for this action = VBuiltin →
  (limits this !! limit_key userId action = None ∨
   ∃ info, limits this !! limit_key userId action = Some info ∧
           blockedUntil info = None ∧ resetTime info = NaN) →
  ∃ rs this',
    check_many times this userId action = Some (rs, this') ∧
    rs = replicate (length times) (mkResult true NaN NaN None None).
Proof.
  induction times as [|now times IH]; intros this userId action Hrule Hwindow.
  - by exists [], this.
  - cbn [check_many].
    destruct (checkLimit_no_rule now this userId action Hrule Hwindow)
      as (info' & -> & Hb & Hr).
    destruct (IH (set_limit this (limit_key userId action) info') userId action)
      as (rs & this' & -> & ->).
    + by rewrite rule_for_set_limit.
    + right. exists info'. split; [apply lookup_insert_eq | done].
    + by eexists _, _.
Qed.

(** X6: an action named like a member that every object inherits
    ([toString], [constructor], ...) and without a rule of its own is never
    limited.  The look-up of its rule finds the inherited member, not the
    global rule; every check is allowed, whatever their number and times,
    and reports [NaN] for what is left and for the end of the window. *)
Theorem checkLimit_inherited_name_unlimited this userId action times :
  action ∈ object_prototype_members →
  rules this !! action = None → rules_prototype this = None →
  limits this !! limit_key userId action = None →
  ∃ rs this',
    check_many times this userId action = Some (rs, this') ∧
    rs = replicate (length times) (mkResult true NaN NaN None None).
Proof.
  intros Hin Hown Hproto Hnew. apply check_many_no_rule; [|by left].
  by apply rule_for_inherited.
Qed.

Lemma checkLimit_inherited_name_unlimited_witness :
  ∃ rs this',
    check_many (seqZ 1 60) initial 7 "toString" = Some (rs, this') ∧
    rs = replicate 60 (mkResult true NaN NaN None None).
Proof.
  apply (checkLimit_inherited_name_unlimited initial 7 "toString" (seqZ 1 60)).
  - unfold object_prototype_members. rewrite !elem_of_cons. tauto.
  - by vm_compute.
  - by vm_compute.
  - by vm_compute.
Defined.

End InheritedNameExtras.

(** ** The upstream client: budget of attempts, answers, draining *)

Module ClientExtras.
Import Js OpenRouterService OpenRouterTerms ClientTerms TextTerms JsFacts
  PoolFacts.


(** X8: what a call returns.  An answer is the content of the first attempt
    that succeeds, all attempts before it having failed; an error is thrown
    only after three failed attempts and carries the message of the third
    after a fixed text. *)
Theorem callOpenRouter_outcome fetch this :
  let rep := (callOpenRouter_operation fetch this).1 in
  match outcome rep with
  | inl content =>
      attempt_once (fetch (Z.of_nat (attempts rep) - 1)) = inl content ∧
      ∀ n, 0 ≤ n < Z.of_nat (attempts rep) - 1 →
           ∃ message, attempt_once (fetch n) = inr message
  | inr thrown =>
      ∃ m0 m1 m2,
        attempt_once (fetch 0) = inr m0 ∧ attempt_once (fetch 1) = inr m1 ∧
        attempt_once (fetch 2) = inr m2 ∧ thrown = exhausted_message m2
  end.
Proof.
  unfold callOpenRouter_operation. cbn [attempt_loop].
  change (0 <? 3) with true. cbn [Z.add Z.ltb Z.compare].
  destruct (attempt_once (fetch 0)) as [c0|m0] eqn:H0.
  { cbn. split; [done|]. intros n Hn. lia. }
  change (0 + 1) with 1. change (1 <? 3) with true.
  destruct (attempt_once (fetch 1)) as [c1|m1] eqn:H1.
  { cbn. split; [done|]. intros n Hn. assert (n = 0) as -> by lia. by eauto. }
  change (1 + 1) with 2. change (2 <? 3) with true.
  destruct (attempt_once (fetch 2)) as [c2|m2] eqn:H2.
  { cbn. split; [done|]. intros n Hn.
    assert (n = 0 ∨ n = 1) as [-> | ->] by lia; by eauto. }
  cbn. by exists m0, m1, m2.
Qed.

(** X9: what counts as an answer.  An attempt yields content only from a
    response with a status from 200 to 299 whose body has the shape of the
    schema, and the content is trimmed and not empty. *)
Theorem attempt_once_content (fetched : FetchOutcome) content :
  attempt_once fetched = inl content →
  truthy content = true ∧ trim content = content ∧
  ∃ status text parsed,
    fetched = Response status text (Parsed parsed) ∧ 200 ≤ status ≤ 299 ∧
    content = trim (extractContentText parsed).
Proof.
  unfold attempt_once. destruct fetched as [message|status text body]; [done|].
  destruct (response_ok status) eqn:Hok.
  2:{ cbn. by destruct ((status =? 429) || (500 <=? status)). }
  cbn [negb]. destruct body as [message|message|parsed]; [done | done |].
  destruct (truthy (trim (extractContentText parsed))) eqn:Htruthy; [|done].
  intros [= <-]. split; [done|]. split; [apply trim_idem|].
  exists status, text, parsed. split; [done|]. split; [|done].
  unfold response_ok in Hok. lia.
Qed.

Lemma attempt_once_content_witness :
  attempt_once hi_in_blocks = inl [104; 105]%N ∧
  truthy [104; 105]%N = true ∧ trim [104; 105]%N = [104; 105]%N.
Proof.
  split; [by vm_compute|].
  destruct (attempt_once_content hi_in_blocks [104; 105]%N) as (H1 & H2 & _);
    [by vm_compute | done].
Defined.

Lemma trimStart_all_ws s : all_ws s → trimStart s = [].
Proof.
  induction 1 as [|c s Hc _ IH]; [done|]. cbn [trimStart]. by rewrite Hc.
Qed.

Lemma all_ws_join_lines pieces :
  Forall all_ws pieces → all_ws (join_lines pieces).
Proof.
  induction 1 as [|p pieces Hp Hps IH]; [constructor|].
  cbn [join_lines]. destruct pieces as [|q pieces]; [done|].
  apply Forall_app. split; [done|]. constructor; [apply is_ws_LF | done].
Qed.

(** X10: a blank answer is an error.  A response with a good status and a
    valid body whose content is white space only (a blank string, or blocks
    whose texts are missing or blank) makes the attempt fail with the
    message that no content came back; so it is retried like any other
    failure. *)
Theorem attempt_once_blank status text content :
  response_ok status = true →
  match content with
  | ContentString s => all_ws s
  | ContentBlocks texts => Forall (λ t, all_ws (default [] t)) texts
  end →
  attempt_once (Response status text (Parsed content))
  = inr "OpenRouter не вернул содержимое ответа."%string.
Proof.
  intros Hok Hblank. unfold attempt_once. rewrite Hok. cbn [negb].
  assert (all_ws (extractContentText content)) as Hws.
  { destruct content as [s|texts]; [done|]. cbn [extractContentText].
    assert (all_ws (join_lines
              (filter (λ s, Is_true (truthy s)) (map (default []) texts))))
      as Hjoin.
    { apply all_ws_join_lines. apply Forall_forall. intros piece Hin.
      apply list_elem_of_filter in Hin as [_ Hin].
      apply list_elem_of_fmap in Hin as (t & -> & Hin).
      by apply (proj1 (Forall_forall _ _) Hblank). }
    unfold trim. rewrite (trimStart_all_ws _ Hjoin). constructor. }
  unfold trim at 1. by rewrite (trimStart_all_ws _ Hws).
Qed.

Lemma attempt_once_blank_witness :
  attempt_once
    (Response 200 "" (Parsed (ContentBlocks [None; Some [SP; LF]; Some []])))
  = inr "OpenRouter не вернул содержимое ответа."%string.
Proof.
  apply attempt_once_blank; [done|].
  repeat constructor.
Defined.

End ClientExtras.

(** ** The pool of the upstream client, drained *)

Module DrainFacts.
Import Js OpenRouterService OpenRouterTerms DrainTerms PoolFacts.

Lemma settle_pending sys id sys' :
  pool_inv sys → step sys (Settle id) = Some sys' →
  S (pending sys') = pending sys ∧ submitted sys' = submitted sys.
Proof.
  intros [Hcount Hcap Hfull Horder] Hstep. simpl in Hstep.
  case_bool_decide as Hrun; [|done].
  pose proof (length_remove_one id (running sys) Hrun) as Hlen.
  unfold execute_finally, processQueue, MAX_CONCURRENT_REQUESTS in Hstep.
  cbn [currentRequests requestQueue totalRequests totalErrors] in Hstep.
  unfold pending. destruct (requestQueue (service sys)) as [|q qs] eqn:Hq.
  - cbn [length] in Hstep. cbn in Hstep. simplify_eq. simpl.
    rewrite app_nil_r. split; [lia | done].
  - assert (currentRequests (service sys) = 5) as Hf by (by apply Hfull).
    cbn [length] in Hstep.
    replace (0 <? S (length qs))%nat with true in Hstep
      by (symmetry; apply Nat.ltb_lt; lia).
    replace (currentRequests (service sys) - 1 <? 5) with true in Hstep by lia.
    cbn in Hstep. simplify_eq. simpl. rewrite length_app. simpl.
    split; [lia | done].
Qed.

Lemma settles_pending settles : ∀ sys sys',
  pool_inv sys → forallb is_settle settles = true →
  run sys settles = Some sys' →
  (pending sys' + length settles)%nat = pending sys ∧
  submitted sys' = submitted sys ∧ pool_inv sys'.
Proof.
  induction settles as [|ev settles IH]; intros sys sys' Hinv Hall Hrun.
  - simpl in Hrun. simplify_eq. simpl. split; [lia | done].
  - cbn [forallb] in Hall. apply andb_prop in Hall as [Hev Hall].
    destruct ev as [id|id]; [done|].
    cbn [run] in Hrun. destruct (step sys (Settle id)) as [sys1|] eqn:Hstep; [|done].
    destruct (settle_pending _ _ _ Hinv Hstep) as [Hone Hsub].
    destruct (IH sys1 sys' (pool_inv_step _ _ _ Hinv Hstep) Hall Hrun)
      as (Hrest & Hsub' & Hinv').
    cbn [length]. split; [lia|]. split; [congruence | done].
Qed.

Lemma drain_exists n : ∀ sys,
  pool_inv sys → pending sys = n →
  ∃ settles sys', forallb is_settle settles = true ∧ length settles = n ∧
                  run sys settles = Some sys'.
Proof.
  induction n as [|n IH]; intros sys Hinv Hn.
  - exists [], sys. done.
  - destruct (running sys) as [|id ids] eqn:Hrunning.
    + destruct Hinv as [Hcount Hcap Hfull Horder]. unfold pending in Hn.
      rewrite Hrunning in *. simpl in *.
      destruct (requestQueue (service sys)) as [|q qs] eqn:Hq; [done|].
      assert (currentRequests (service sys) = MAX_CONCURRENT_REQUESTS) as Hf
        by (by apply Hfull).
      unfold MAX_CONCURRENT_REQUESTS in Hf. lia.
    + assert (∃ sys1, step sys (Settle id) = Some sys1) as [sys1 Hstep].
      { simpl. rewrite bool_decide_eq_true_2 by (rewrite Hrunning; left).
        destruct (execute_finally (service sys)). by eexists. }
      destruct (settle_pending _ _ _ Hinv Hstep) as [Hone _].
      destruct (IH sys1 (pool_inv_step _ _ _ Hinv Hstep) ltac:(lia))
        as (settles & sys' & Hall & Hlen & Hrun).
      exists (Settle id :: settles), sys'. cbn [forallb is_settle run length].
      rewrite Hstep. split; [done|]. split; [by f_equal | done].
Qed.

(** X11: no call waits while a slot is free.  After any schedule of
    submissions and completions, calls wait in the queue only while exactly
    five calls run. *)
Theorem queue_only_when_full evs sys :
  run start evs = Some sys →
  requestQueue (service sys) ≠ [] → length (running sys) = 5%nat.
Proof.
  intros Hrun Hq.
  pose proof (pool_inv_run evs start sys pool_inv_start Hrun)
    as [Hcount Hcap Hfull Horder].
  specialize (Hfull Hq). unfold MAX_CONCURRENT_REQUESTS in Hfull. lia.
Qed.

Lemma queue_only_when_full_witness :
  ∃ sys, run start busy_schedule = Some sys ∧
         requestQueue (service sys) ≠ [] ∧ length (running sys) = 5%nat.
Proof.
  eexists. split; [vm_compute; reflexivity|]. split; [by vm_compute|].
  eapply (queue_only_when_full busy_schedule); by vm_compute.
Defined.

(** X12: every queued call is started.  From a state that the pool can
    reach, each completion takes exactly one call off those that run or
    wait, whichever call completes; so once as many calls have completed as
    were running or waiting, nothing runs, nothing waits and every call
    submitted has been dispatched.  The completions can always be had: such
    a schedule exists. *)
Theorem queue_drains evs sys :
  run start evs = Some sys →
  (∀ settles sys',
     forallb is_settle settles = true → run sys settles = Some sys' →
     (pending sys' + length settles)%nat = pending sys ∧
     (length settles = pending sys →
      running sys' = [] ∧ requestQueue (service sys') = [] ∧
      currentRequests (service sys') = 0 ∧
      dispatched sys' = submitted sys)) ∧
  (∃ settles sys',
     forallb is_settle settles = true ∧ length settles = pending sys ∧
     run sys settles = Some sys').
Proof.
  intros Hrun.
  pose proof (pool_inv_run evs start sys pool_inv_start Hrun) as Hinv.
  split; [|by eapply drain_exists].
  intros settles sys' Hall Hrun'.
  destruct (settles_pending settles sys sys' Hinv Hall Hrun')
    as (Hpending & Hsub & [Hcount Hcap Hfull Horder]).
  split; [done|]. intros Hlen.
  assert (pending sys' = 0%nat) as Hzero by lia. unfold pending in Hzero.
  destruct (running sys') as [|??] eqn:Hr; [|simpl in Hzero; lia].
  destruct (requestQueue (service sys')) as [|??] eqn:Hq; [|simpl in Hzero; lia].
  split; [done|]. split; [done|]. split; [by rewrite Hcount|].
  rewrite app_nil_r in Horder. congruence.
Qed.

Lemma queue_drains_witness :
  ∃ sys sys',
    run start seven_submitted = Some sys ∧
    forallb is_settle seven_settled = true ∧
    run sys seven_settled = Some sys' ∧
    running sys' = [] ∧ requestQueue (service sys') = [] ∧
    dispatched sys' = submitted sys.
Proof.
  assert (∃ sys, run start seven_submitted = Some sys) as [sys Hsys]
    by (eexists; vm_compute; reflexivity).
  assert (∃ sys', run sys seven_settled = Some sys') as [sys' Hsys'].
  { vm_compute in Hsys. injection Hsys as <-. eexists. vm_compute. reflexivity. }
  exists sys, sys'. split; [done|]. split; [by vm_compute|]. split; [done|].
  destruct (queue_drains seven_submitted sys Hsys) as [Hall _].
  destruct (Hall seven_settled sys' ltac:(by vm_compute) Hsys') as [_ Hdone].
  destruct Hdone as (H1 & H2 & _ & H4); [|done].
  vm_compute in Hsys. injection Hsys as <-. by vm_compute.
Defined.

End DrainFacts.

(** ** Image jobs: success, time-out and the counters *)

Module JobFacts.
Import Js ImageProcessor ImageTerms JobTerms ImageFacts KeyTerms KeyFacts.

Lemma retry_loop_succeeds cfg world startTime k reply (fuel : nat) :
  ∀ attempt lastError made slept clock,
  attempt ≤ k ≤ maxRetries cfg →
  k - attempt < Z.of_nat fuel →
  (∀ i, attempt ≤ i < k → ∃ th, (race cfg (world i)).2 = inr th) →
  (race cfg (world k)).2 = inl reply →
  let e := retry_loop fuel cfg world startTime attempt lastError made slept clock in
  returned e = mkResult true (Some reply) None (finished_at e - startTime) ∧
  attempts e = (made + Z.to_nat (k - attempt + 1))%nat ∧
  backoffs e = slept ++ map backoff (seqZ attempt (k - attempt)).
Proof.
  induction fuel as [|fuel IH];
    intros attempt lastError made slept clock Hk Hfuel Hfail Hok; [lia|].
  cbn [retry_loop]. replace (attempt <=? maxRetries cfg) with true by lia.
  destruct (decide (attempt = k)) as [->|Hne].
  - destruct (race cfg (world k)) as [elapsed settled]. simpl in Hok. subst settled.
    cbn. replace (k - k) with 0 by lia. rewrite seqZ_nil by lia.
    rewrite app_nil_r. split; [done|]. split; [|done].
    replace (k - k + 1) with 1 by lia. simpl. lia.
  - destruct (Hfail attempt) as [th Hth]; [lia|].
    destruct (race cfg (world attempt)) as [elapsed settled]. simpl in Hth.
    subst settled. replace (attempt <? maxRetries cfg) with true by lia.
    specialize (IH (attempt + 1) (Some th) (S made)
                  (slept ++ [1000 * 2 ^ (attempt - 1)])
                  (clock + elapsed + 1000 * 2 ^ (attempt - 1) +
                   sleep_overshoot (world attempt))).
    destruct IH as (Hr & Hn & Hb); [lia | lia | | done |].
    { intros i Hi. apply Hfail. lia. }
    split; [done|]. split.
    + rewrite Hn. replace (k - attempt + 1) with (Z.succ (k - (attempt + 1) + 1))
        by lia. rewrite Z2Nat.inj_succ by lia. lia.
    + rewrite Hb, <-app_assoc. f_equal.
      rewrite (seqZ_cons attempt) by lia. simpl. unfold backoff at 2.
      do 3 f_equal; lia.
Qed.

(** X13: the first answer is the result.  When the calls of the attempts
    before [k] fail or run into the time-out and the call of attempt [k]
    answers in time, the job returns that answer as a success after exactly
    [k] attempts, having slept [1000 * 2 ^ (i - 1)] ms after each failed
    attempt [i]; later attempts are not made. *)
Theorem executeImageProcessing_first_answer cfg world startTime k reply :
  1 ≤ k ≤ maxRetries cfg →
  (∀ i, 1 ≤ i < k → ∃ th, (race cfg (world i)).2 = inr th) →
  (race cfg (world k)).2 = inl reply →
  let e := executeImageProcessing cfg world startTime in
  returned e = mkResult true (Some reply) None (finished_at e - startTime) ∧
  attempts e = Z.to_nat k ∧
  backoffs e = map backoff (seqZ 1 (k - 1)).
Proof.
  intros Hk Hfail Hok e. subst e. unfold executeImageProcessing.
  destruct (retry_loop_succeeds cfg world startTime k reply
              (Z.to_nat (maxRetries cfg)) 1 None 0%nat [] startTime)
    as (Hr & Hn & Hb); [lia | lia | done | done |].
  split; [done|]. split; [|done]. rewrite Hn. f_equal. lia.
Qed.

Lemma executeImageProcessing_first_answer_witness :
  let e := executeImageProcessing config boom_then_ok 100 in
  returned e = mkResult true (Some [111; 107]%N) None (finished_at e - 100) ∧
  attempts e = 2%nat ∧ backoffs e = [1000].
Proof.
  apply (executeImageProcessing_first_answer config boom_then_ok 100 2).
  - by vm_compute.
  - intros i Hi. assert (i = 1) as -> by lia. by eexists.
  - by vm_compute.
Defined.

Lemma race_times_out cfg w :
  requestTimeout cfg ≤ call_duration w →
  race cfg w = (requestTimeout cfg, inr (JsError "Таймаут обработки изображения")).
Proof. intros H. unfold race. by replace (_ <? _) with false by lia. Qed.

Lemma retry_loop_times_out cfg world startTime (fuel : nat) :
  ∀ attempt lastError made slept clock,
  0 ≤ requestTimeout cfg →
  Z.of_nat fuel = maxRetries cfg - attempt + 1 → 1 ≤ attempt →
  (∀ i, attempt ≤ i ≤ maxRetries cfg →
        requestTimeout cfg ≤ call_duration (world i) ∧
        0 ≤ sleep_overshoot (world i)) →
  (attempt - 1) * requestTimeout cfg ≤ clock - startTime →
  let e := retry_loop fuel cfg world startTime attempt lastError made slept clock in
  attempts e = (made + fuel)%nat ∧
  returned e
  = mkResult false None
      (Some ("Не удалось обработать изображение после " +:+
             pretty (maxRetries cfg) +:+ " попыток: " +:+
             error_message
               (match fuel with
                | O => lastError
                | S _ => Some (JsError "Таймаут обработки изображения")
                end))%string)
      (finished_at e - startTime) ∧
  maxRetries cfg * requestTimeout cfg ≤ finished_at e - startTime.
Proof.
  induction fuel as [|fuel IH];
    intros attempt lastError made slept clock Htimeout Hfuel Hattempt Hlate Hclock.
  - cbn [retry_loop]. cbn. rewrite Nat.add_0_r.
    split; [done|]. split; [done|]. nia.
  - cbn [retry_loop]. replace (attempt <=? maxRetries cfg) with true by lia.
    destruct (Hlate attempt) as [Hdur Hover]; [lia|].
    rewrite (race_times_out cfg (world attempt) Hdur).
    pose proof (backoff_nonneg attempt) as Hback. unfold backoff in Hback.
    destruct (attempt <? maxRetries cfg) eqn:Hmore.
    + specialize (IH (attempt + 1)
                    (Some (JsError "Таймаут обработки изображения")) (S made)
                    (slept ++ [1000 * 2 ^ (attempt - 1)])
                    (clock + requestTimeout cfg + 1000 * 2 ^ (attempt - 1) +
                     sleep_overshoot (world attempt))).
      destruct IH as (Hn & Hr & Ht); [done | lia | lia | | nia |].
      { intros i Hi. apply Hlate. lia. }
      split; [rewrite Hn; lia|]. split; [|done].
      rewrite Hr. by destruct fuel.
    + assert (fuel = O) as -> by lia. cbn [retry_loop]. cbn.
      split; [lia|]. split; [done|]. nia.
Qed.

(** X14: a call that does not answer is cut off.  When no call answers before
    [requestTimeout], whatever it would have answered later, the job gives
    up after [maxRetries] attempts with the message of the time-out, and has
    then run for at least [maxRetries] time-outs. *)
Theorem executeImageProcessing_times_out cfg world startTime :
  1 ≤ maxRetries cfg →
  0 ≤ requestTimeout cfg →
  (∀ i, 1 ≤ i ≤ maxRetries cfg →
        requestTimeout cfg ≤ call_duration (world i) ∧
        0 ≤ sleep_overshoot (world i)) →
  let e := executeImageProcessing cfg world startTime in
  attempts e = Z.to_nat (maxRetries cfg) ∧
  returned e
  = mkResult false None
      (Some ("Не удалось обработать изображение после " +:+
             pretty (maxRetries cfg) +:+
             " попыток: Таймаут обработки изображения")%string)
      (finished_at e - startTime) ∧
  maxRetries cfg * requestTimeout cfg ≤ processingTime (returned e).
Proof.
  intros Hmax Htimeout Hlate e. subst e. unfold executeImageProcessing.
  destruct (retry_loop_times_out cfg world startTime
              (Z.to_nat (maxRetries cfg)) 1 None 0%nat [] startTime)
    as (Hn & Hr & Ht); [done | lia | lia | done | lia |].
  split; [done|]. rewrite Hr. cbn [processingTime]. split; [|done].
  by destruct (Z.to_nat (maxRetries cfg)) eqn:Hz; [lia|].
Qed.

Lemma executeImageProcessing_times_out_witness :
  let e := executeImageProcessing config never_answers 100 in
  attempts e = 2%nat ∧
  returned e
  = mkResult false None
      (Some "Не удалось обработать изображение после 2 попыток: Таймаут обработки изображения"%string)
      (finished_at e - 100) ∧
  2 * 180000 ≤ processingTime (returned e).
Proof.
  apply (executeImageProcessing_times_out config never_answers 100).
  - by vm_compute.
  - by vm_compute.
  - intros i _. by vm_compute.
Defined.

(** *** The counters *)

Lemma count_of_cons {A} (test : A → bool) x l :
  count_of test (x :: l) = (if test x then 1 else 0) + count_of test l.
Proof.
  unfold count_of. rewrite filter_cons. destruct (test x).
  - rewrite decide_True by done. cbn [length]. lia.
  - rewrite decide_False by (by intros []). lia.
Qed.

Lemma settle_stats this jobId settled :
  let st := stats (processImageAsync_settle this jobId settled).2 in
  totalSuccess st
  = totalSuccess (stats this) + (if resolved (jobId, settled) then 1 else 0) ∧
  totalFailed st
  = totalFailed (stats this) + (if answered (jobId, settled) then 0 else 1) ∧
  totalProcessed st
  = totalProcessed (stats this) + (if resolved (jobId, settled) then 1 else 0)
    + (if answered (jobId, settled) then 0 else 1).
Proof.
  unfold processImageAsync_settle, resolved, answered. cbn [fst snd].
  destruct settled as [res|thrown].
  - destruct (success res && truthy (default [] (result res))); cbn; lia.
  - cbn. lia.
Qed.

(** X15: every job whose promise resolves is counted as a success.
    [executeImageProcessing] reports a failure by returning a result, not
    by throwing, so after any series of jobs [totalSuccess] has grown by the
    number of jobs that returned a result, failed ones included; a job that
    failed is counted in [totalFailed] as well and twice in
    [totalProcessed]. *)
Theorem every_resolved_job_counts_as_success settled : ∀ this,
  let st := stats (settle_all this settled) in
  totalSuccess st = totalSuccess (stats this) + count_of resolved settled ∧
  totalFailed st
  = totalFailed (stats this) + count_of (λ job, negb (answered job)) settled ∧
  totalProcessed st
  = totalProcessed (stats this) + count_of resolved settled
    + count_of (λ job, negb (answered job)) settled.
Proof.
  induction settled as [|[jobId job] settled IH]; intros this.
  - cbn. unfold count_of. simpl. lia.
  - cbn zeta. unfold settle_all. cbn [foldl fst snd].
    destruct (IH (processImageAsync_settle this jobId job).2) as (Hs & Hf & Hp).
    unfold settle_all in Hs, Hf, Hp. cbn zeta in Hs, Hf, Hp.
    destruct (settle_stats this jobId job) as (Hs1 & Hf1 & Hp1).
    cbn zeta in Hs1, Hf1, Hp1.
    rewrite Hs, Hf, Hp, Hs1, Hf1, Hp1, !count_of_cons.
    destruct (resolved (jobId, job)), (answered (jobId, job)); cbn [negb]; lia.
Qed.

(** *** The table of jobs *)







End JobFacts.

(** ** Turning pages *)

Module NavigationFacts.
Import Js MessageService Keyboards Pagination NavigationTerms TextTerms
  KeyTerms KeyFacts RateLimitFacts JsFacts FormatFacts PageFacts.

Lemma handlePagination_found this chatId messageId direction state :
  paginationStates this !! state_key chatId messageId = Some state →
  let nextIndex :=
    match direction with
    | next => currentIndex state + 1
    | prev => currentIndex state - 1
    end in
  handlePagination this (Some (chatId, messageId)) direction
  = if (nextIndex <? 0) || (Z.of_nat (length (pages state)) <=? nextIndex)
    then (NoFurtherPages, this)
    else (Shown (pages state !! Z.to_nat nextIndex)
            (buildPaginationKeyboard (Z.of_nat (length (pages state)))
               nextIndex chatId messageId),
          {| service := service this;
             paginationStates :=
               <[state_key chatId messageId := mkState (pages state) nextIndex]>
                 (paginationStates this) |}).
Proof. intros Hstate. unfold handlePagination. by rewrite Hstate. Qed.

(** X17: a turn stays inside the pages.  Whatever button is pressed on
    whatever message, every stored state still points at one of its pages
    afterwards, and a turn that is carried out shows the page that the state
    then points at. *)
Theorem handlePagination_stays_inside this message direction :
  states_ok this →
  let answer := (handlePagination this message direction).1 in
  let this' := (handlePagination this message direction).2 in
  states_ok this' ∧
  ∀ page keyboard, answer = Shown page keyboard →
    ∃ chatId messageId state shown,
      message = Some (chatId, messageId) ∧
      paginationStates this' !! state_key chatId messageId = Some state ∧
      page = Some shown ∧
      pages state !! Z.to_nat (currentIndex state) = Some shown.
Proof.
  intros Hok. destruct message as [[chatId messageId]|]; [|by split].
  destruct (paginationStates this !! state_key chatId messageId)
    as [state|] eqn:Hstate.
  2:{ unfold handlePagination. rewrite Hstate. by split. }
  rewrite (handlePagination_found _ _ _ direction _ Hstate). cbn zeta.
  set (nextIndex := match direction with
                    | next => currentIndex state + 1
                    | prev => currentIndex state - 1
                    end).
  destruct ((nextIndex <? 0) || (Z.of_nat (length (pages state)) <=? nextIndex))
    eqn:Hout; [by split|].
  apply orb_false_iff in Hout as [Hlow Hhigh].
  destruct (lookup_lt_is_Some_2 (pages state) (Z.to_nat nextIndex)) as [shown Hshown];
    [lia|].
  cbn [fst snd]. split.
  - intros key st. cbn [paginationStates].
    destruct (decide (key = state_key chatId messageId)) as [->|Hne].
    + rewrite lookup_insert_eq. intros [= <-]. cbn. lia.
    + rewrite lookup_insert_ne by done. apply Hok.
  - intros page keyboard [= <- _].
    exists chatId, messageId, (mkState (pages state) nextIndex), shown.
    cbn [paginationStates]. rewrite lookup_insert_eq. done.
Qed.

Lemma handlePagination_stays_inside_witness :
  states_ok three_page_state ∧
  (handlePagination three_page_state (Some (-5, 9)) next).1
  = Shown (Some [99%N])
      (buildPaginationKeyboard 3 2 (-5) 9) ∧
  states_ok (handlePagination three_page_state (Some (-5, 9)) next).2.
Proof.
  assert (states_ok three_page_state) as Hok.
  { intros key state. unfold three_page_state. cbn [paginationStates].
    intros [<- <-]%lookup_singleton_Some. cbn. lia. }
  split; [done|]. split; [by vm_compute|].
  by apply (handlePagination_stays_inside three_page_state (Some (-5, 9)) next).
Defined.

(** X18: forward and back again.  After a turn to the next page that was
    carried out, the turn to the previous page is carried out as well,
    shows the page that was shown before, and leaves the instance in the
    state it had before the two turns. *)
Theorem next_then_prev this chatId messageId state page keyboard this1 :
  paginationStates this !! state_key chatId messageId = Some state →
  0 ≤ currentIndex state →
  handlePagination this (Some (chatId, messageId)) next
  = (Shown page keyboard, this1) →
  handlePagination this1 (Some (chatId, messageId)) prev
  = (Shown (pages state !! Z.to_nat (currentIndex state))
       (buildPaginationKeyboard (Z.of_nat (length (pages state)))
          (currentIndex state) chatId messageId),
     this).
Proof.
  intros Hstate Hlow Hnext.
  rewrite (handlePagination_found _ _ _ next _ Hstate) in Hnext. cbn zeta in Hnext.
  destruct ((currentIndex state + 1 <? 0) ||
            (Z.of_nat (length (pages state)) <=? currentIndex state + 1))
    eqn:Hout; [done|].
  apply orb_false_iff in Hout as [_ Hhigh]. injection Hnext as _ _ <-.
  erewrite (handlePagination_found _ _ _ prev); cycle 1.
  { cbn [paginationStates]. apply lookup_insert_eq. }
  cbn zeta. cbn [currentIndex pages paginationStates service].
  replace (currentIndex state + 1 - 1) with (currentIndex state) by lia.
  replace (currentIndex state <? 0) with false by lia.
  replace (Z.of_nat (length (pages state)) <=? currentIndex state) with false
    by lia.
  cbn [orb]. f_equal. rewrite insert_insert_eq.
  destruct state as [ps i]. cbn [pages currentIndex] in *.
  rewrite insert_id by done. by destruct this.
Qed.

Lemma next_then_prev_witness :
  ∃ page keyboard this1,
    handlePagination three_page_state (Some (-5, 9)) next
    = (Shown page keyboard, this1) ∧
    handlePagination this1 (Some (-5, 9)) prev
    = (Shown (Some [98%N]) (buildPaginationKeyboard 3 1 (-5) 9),
       three_page_state).
Proof.
  eexists _, _, _. split; [vm_compute; reflexivity|].
  eapply (next_then_prev three_page_state (-5) 9 (mkState [[97]; [98]; [99]]%N 1));
    [apply lookup_singleton_eq | by vm_compute | vm_compute; reflexivity].
Defined.

(** *** The buttons *)

Lemma prev_is_not_next a b :
  ("page:prev:" +:+ a)%string ≠ ("page:next:" +:+ b)%string.
Proof. intros H. cbn in H. discriminate H. Qed.

Lemma close_is_no_turn a b c :
  ("noop:" +:+ a)%string ≠ ("page:prev:" +:+ b)%string ∧
  ("noop:" +:+ a)%string ≠ ("page:next:" +:+ c)%string.
Proof. split; intros H; cbn in H; discriminate H. Qed.

(** X19: the buttons are the turns that can be made.  The keyboard under a
    page offers the button "back" exactly when a turn to the previous page
    is carried out, and the button "next" exactly when a turn to the next
    page is. *)
Theorem buttons_match_turns this chatId messageId state :
  paginationStates this !! state_key chatId messageId = Some state →
  0 ≤ currentIndex state < Z.of_nat (length (pages state)) →
  let keyboard :=
    buildPaginationKeyboard (Z.of_nat (length (pages state)))
      (currentIndex state) chatId messageId in
  (offers keyboard
     ("page:prev:" +:+ pretty chatId +:+ ":" +:+ pretty messageId) ↔
   turns (handlePagination this (Some (chatId, messageId)) prev).1) ∧
  (offers keyboard
     ("page:next:" +:+ pretty chatId +:+ ":" +:+ pretty messageId) ↔
   turns (handlePagination this (Some (chatId, messageId)) next).1).
Proof.
  intros Hstate Hin keyboard. subst keyboard.
  rewrite !(handlePagination_found _ _ _ _ _ Hstate). cbn zeta.
  unfold buildPaginationKeyboard, offers, turns.
  destruct (close_is_no_turn (pretty chatId)
              (pretty chatId +:+ ":" +:+ pretty messageId)
              (pretty chatId +:+ ":" +:+ pretty messageId)) as [Hc1 Hc2].
  pose proof (prev_is_not_next (pretty chatId +:+ ":" +:+ pretty messageId)
                (pretty chatId +:+ ":" +:+ pretty messageId)) as Hpn.
  split.
  - destruct (0 <? currentIndex state) eqn:Hprev.
    + replace (currentIndex state - 1 <? 0) with false by lia.
      replace (Z.of_nat (length (pages state)) <=? currentIndex state - 1)
        with false by lia.
      cbn [orb fst].
      destruct (lookup_lt_is_Some_2 (pages state)
                  (Z.to_nat (currentIndex state - 1))) as [shown ->]; [lia|].
      split; [by eauto|]. intros _.
      destruct (currentIndex state <? Z.of_nat (length (pages state)) - 1);
        cbn [app]; eexists _, _;
        (split; [by left|]); (split; [by left|]); done.
    + replace (currentIndex state - 1 <? 0) with true by lia. cbn [orb fst].
      split; [|by intros (? & ? & ?)].
      intros (row & button & Hrow & Hbutton & Hdata). exfalso.
      destruct (currentIndex state <? Z.of_nat (length (pages state)) - 1);
        cbn [app] in Hrow;
        apply list_elem_of_singleton in Hrow as ->;
        apply list_elem_of_singleton in Hbutton as ->; cbn [data] in Hdata;
        [by apply Hpn | by apply Hc1].
  - replace (currentIndex state + 1 <? 0) with false by lia. cbn [orb].
    destruct (currentIndex state <? Z.of_nat (length (pages state)) - 1) eqn:Hnext.
    + replace (Z.of_nat (length (pages state)) <=? currentIndex state + 1)
        with false by lia.
      cbn [fst].
      destruct (lookup_lt_is_Some_2 (pages state)
                  (Z.to_nat (currentIndex state + 1))) as [shown ->]; [lia|].
      split; [by eauto|]. intros _.
      destruct (0 <? currentIndex state); cbn [app].
      * eexists _, (mkButton _ _). split; [by left|].
        split; [right; left | done].
      * eexists _, _. split; [by left|]. split; [by left | done].
    + replace (Z.of_nat (length (pages state)) <=? currentIndex state + 1)
        with true by lia.
      cbn [fst]. split; [|by intros (? & ? & ?)].
      intros (row & button & Hrow & Hbutton & Hdata). exfalso.
      destruct (0 <? currentIndex state); cbn [app] in Hrow;
        apply list_elem_of_singleton in Hrow as ->;
        apply list_elem_of_singleton in Hbutton as ->; cbn [data] in Hdata.
      * by apply Hpn.
      * by apply Hc2.
Qed.

Lemma buttons_match_turns_witness :
  offers (buildPaginationKeyboard 3 1 (-5) 9) "page:prev:-5:9" ∧
  turns (handlePagination three_page_state (Some (-5, 9)) prev).1.
Proof.
  destruct (buttons_match_turns three_page_state (-5) 9
              (mkState [[97]; [98]; [99]]%N 1)) as [Hprev _];
    [apply lookup_singleton_eq | by vm_compute |].
  split; [|apply Hprev]; eexists _, _;
    (split; [by left|]); (split; [by left|]); by vm_compute.
Defined.

(** *** Forgetting the pages of a chat *)

Lemma lookup_foldl_delete_keys {A} (m : gmap string A) (keys : list string) key :
  foldl (λ m key, delete key m) m keys !! key
  = if decide (key ∈ keys) then None else m !! key.
Proof.
  revert m. induction keys as [|k keys IH]; intros m; simpl; [done|].
  rewrite IH.
  destruct (decide (key ∈ keys)) as [Hin|Hnin];
    destruct (decide (key ∈ k :: keys)) as [Hin'|Hnin']; try done.
  - exfalso. apply Hnin'. by right.
  - apply elem_of_cons in Hin' as [->|?]; [apply lookup_delete_eq | done].
  - apply lookup_delete_ne. intros ->. apply Hnin'. by left.
Qed.

(** A key belongs to chat [chatId] exactly when it starts with the id and a
    colon. *)
Lemma state_key_prefix chatId other messageId :
  startsWith (state_key other messageId) (pretty chatId +:+ ":") = true ↔
  other = chatId.
Proof.
  unfold state_key. split.
  - intros H. symmetry. by eapply id_prefix_eq; [apply colon_not_digit|].
  - intros ->. rewrite <-append_assoc. apply startsWith_app.
Qed.

Lemma clearChatPaginationStates_lookup this chatId key :
  paginationStates (clearChatPaginationStates this chatId) !! key
  = if startsWith key (pretty chatId +:+ ":") then None
    else paginationStates this !! key.
Proof.
  unfold clearChatPaginationStates. cbn [paginationStates].
  rewrite lookup_foldl_delete_keys.
  destruct (startsWith key (pretty chatId +:+ ":")) eqn:Hp.
  - destruct (paginationStates this !! key) as [state|] eqn:Hk.
    + rewrite decide_True; [done|].
      apply list_elem_of_filter. split; [by rewrite Hp|].
      apply list_elem_of_fmap. exists (key, state). split; [done|].
      by apply elem_of_map_to_list.
    + by case_decide.
  - rewrite decide_False; [done|].
    rewrite list_elem_of_filter, Hp. by intros [? _].
Qed.

(** X20: clearing a chat forgets the pages of that chat and of no other.
    Afterwards no message of the chat has pages to turn, and every message
    of every other chat, groups with their negative ids included, has the
    pages it had: chat 12 does not lose its pages when chat 1 is cleared. *)
Theorem clearChatPaginationStates_exact this chatId :
  let this' := clearChatPaginationStates this chatId in
  (∀ messageId, getPaginationState this' chatId messageId = None) ∧
  (∀ other messageId, other ≠ chatId →
     getPaginationState this' other messageId
     = getPaginationState this other messageId) ∧
  service this' = service this.
Proof.
  cbn zeta. unfold getPaginationState. split; [|split; [|done]].
  - intros messageId. rewrite clearChatPaginationStates_lookup.
    by rewrite (proj2 (state_key_prefix chatId chatId messageId)).
  - intros other messageId Hother. rewrite clearChatPaginationStates_lookup.
    destruct (startsWith (state_key other messageId) (pretty chatId +:+ ":"))
      eqn:Hp; [|done].
    by apply state_key_prefix in Hp.
Qed.

End NavigationFacts.

(** ** Delivering an answer *)

Module DeliveryFacts.
Import Js MessageService Keyboards Pagination NavigationTerms DeliveryTerms
  TextTerms JsFacts FormatFacts PageFacts NavigationFacts.

(** *** The pages of a formatted text *)

Lemma trimStart_white s : all_ws s → trimStart s = [].
Proof.
  induction 1 as [|c s Hc _ IH]; [done|]. cbn [trimStart]. by rewrite Hc.
Qed.

(** A trimmed text has at least one page. *)
Lemma split_pages_not_empty text : trim text = text → split_pages text ≠ [].
Proof.
  intros Htrim Hnil. pose proof (split_pages_cover text) as Hcover.
  rewrite Hnil in Hcover. inversion Hcover as [gap Hgap|]; subst.
  assert (text = []) as ->.
  { rewrite <-Htrim. unfold trim. by rewrite (trimStart_white _ Hgap). }
  by vm_compute in Hnil.
Qed.

Lemma sendAnswer_unfold this text chatId messageId edited :
  let formatted := (formatResponse (service this) text).1 in
  let service1 := (formatResponse (service this) text).2 in
  let pages := (splitMessage service1 formatted).1 in
  let service2 := (splitMessage service1 formatted).2 in
  let keyboard :=
    buildPaginationKeyboard (Z.of_nat (length pages)) 0 chatId messageId in
  sendAnswer this text chatId messageId edited
  = if (length pages =? 1)%nat then
      ((EditMessage chatId messageId (pages !! 0%nat) None ::
        if edited then []
        else [DeleteMessage chatId messageId; ReplyWithMenu (pages !! 0%nat)]),
       {| service := service2;
          paginationStates :=
            delete (state_key chatId messageId) (paginationStates this) |})
    else
      ((EditMessage chatId messageId (pages !! 0%nat) (Some keyboard) ::
        if edited then []
        else [DeleteMessage chatId messageId;
              ReplyWithKeyboard (pages !! 0%nat) keyboard]),
       {| service := service2;
          paginationStates :=
            <[state_key chatId messageId := mkState pages 0]>
              (paginationStates this) |}).
Proof.
  unfold sendAnswer. destruct (formatResponse (service this) text) as [f s1].
  cbn [fst snd]. by destruct (splitMessage s1 f) as [ps s2].
Qed.

(** What [sendAnswer] splits: the pages of the formatted text, of which
    there is at least one. *)
Lemma sendAnswer_pages this text :
  cache_ok (service this) →
  let formatted := (formatResponse (service this) text).1 in
  let service1 := (formatResponse (service this) text).2 in
  (splitMessage service1 formatted).1 = split_pages (stripDecor (trim text)) ∧
  (splitMessage service1 formatted).1 ≠ [] ∧
  cache_ok (splitMessage service1 formatted).2.
Proof.
  intros Hok. cbn zeta.
  destruct (formatResponse_spec (service this) text Hok) as [Hf Hok1].
  destruct (splitMessage_spec _ (formatResponse (service this) text).1 Hok1)
    as [Hs Hok2].
  split; [by rewrite Hs, Hf|]. split; [|done].
  rewrite Hs, Hf. apply split_pages_not_empty, stripDecor_trimmed.
Qed.

(** X21: an answer is delivered with pages that exist.  [sendAnswer] keeps
    the memo tables consistent and every stored state pointing at one of
    its pages; it stores the pages of the answer under the status message,
    the first being shown, exactly when the answer has more than one page,
    and forgets what was stored under that message when it has one. *)
Theorem sendAnswer_stores_pages this text chatId messageId edited :
  cache_ok (service this) → states_ok this →
  let this' := (sendAnswer this text chatId messageId edited).2 in
  let pages := split_pages (stripDecor (trim text)) in
  cache_ok (service this') ∧ states_ok this' ∧
  getPaginationState this' chatId messageId
  = (if (length pages =? 1)%nat then None else Some (mkState pages 0)) ∧
  (∀ key, key ≠ state_key chatId messageId →
     paginationStates this' !! key = paginationStates this !! key).
Proof.
  intros Hcache Hok. cbn zeta.
  rewrite sendAnswer_unfold. cbn zeta.
  destruct (sendAnswer_pages this text Hcache) as (Hpages & Hne & Hcache2).
  cbn zeta in Hpages, Hne, Hcache2. rewrite Hpages in *.
  set (pages := split_pages (stripDecor (trim text))) in *.
  unfold getPaginationState.
  destruct (length pages =? 1)%nat eqn:Hone; cbn [snd service paginationStates].
  - split; [done|]. split; [|split].
    + intros key state Hstate. cbn [paginationStates] in Hstate.
      apply lookup_delete_Some in Hstate as [_ Hkey]. by eapply Hok.
    + apply lookup_delete_eq.
    + intros key Hkey. by apply lookup_delete_ne.
  - split; [done|]. split; [|split].
    + intros key state. cbn [paginationStates].
      destruct (decide (key = state_key chatId messageId)) as [->|Hkey].
      * rewrite lookup_insert_eq. intros [= <-]. cbn.
        destruct pages; [done | simpl; lia].
      * rewrite lookup_insert_ne by done. apply Hok.
    + apply lookup_insert_eq.
    + intros key Hkey. by apply lookup_insert_ne.
Qed.

Lemma sendAnswer_stores_pages_witness :
  getPaginationState
    (sendAnswer Pagination.empty two_words 1 7 true).2 1 7
  = Some (mkState [repeat 97%N 1750; repeat 97%N 1750] 0).
Proof.
  destruct (sendAnswer_stores_pages Pagination.empty two_words 1 7 true)
    as (_ & _ & Hstate & _).
  - apply cache_ok_empty.
  - intros key state H.
    change (paginationStates Pagination.empty)
      with (∅ : gmap string PaginationState) in H.
    by rewrite lookup_empty in H.
  - rewrite Hstate. by vm_compute.
Defined.

(** X22: the pages of a replaced message cannot be turned.  When the status
    message cannot be edited, an answer of several pages is sent as a new
    message that carries the keyboard, and the status message is deleted;
    but the pages are stored under the id of the status message.  A press
    of a button on the new message, whose id is another, finds no pages. *)
Theorem replaced_message_has_no_pages this text chatId messageId newId direction :
  cache_ok (service this) →
  (length (split_pages (stripDecor (trim text))) ≠ 1)%nat →
  newId ≠ messageId →
  getPaginationState this chatId newId = None →
  let sent := sendAnswer this text chatId messageId false in
  (∃ page keyboard,
     sent.1 = [EditMessage chatId messageId page (Some keyboard);
               DeleteMessage chatId messageId;
               ReplyWithKeyboard page keyboard] ∧
     offers keyboard
       ("page:next:" +:+ pretty chatId +:+ ":" +:+ pretty messageId)) ∧
  handlePagination sent.2 (Some (chatId, newId)) direction = (NotFound, sent.2).
Proof.
  intros Hcache Hmany Hnew Hfree. cbn zeta.
  rewrite sendAnswer_unfold. cbn zeta.
  destruct (sendAnswer_pages this text Hcache) as (Hpages & Hne & _).
  cbn zeta in Hpages, Hne. rewrite Hpages in *.
  set (pages := split_pages (stripDecor (trim text))) in *.
  replace (length pages =? 1)%nat with false
    by (symmetry; by apply Nat.eqb_neq).
  cbn [fst snd]. split.
  - eexists _, _. split; [reflexivity|].
    unfold buildPaginationKeyboard, offers. cbn [Z.ltb Z.compare app].
    assert (2 ≤ length pages)%nat as Htwo.
    { destruct pages as [|p [|q ps]]; [done | done | simpl; lia]. }
    replace (0 <? Z.of_nat (length pages) - 1) with true by lia.
    eexists _, _. split; [by left|]. split; [by left | done].
  - unfold handlePagination. cbn [paginationStates].
    rewrite lookup_insert_ne.
    + unfold getPaginationState in Hfree. by rewrite Hfree.
    + intros Heq. apply Hnew. unfold state_key in Heq.
      apply (inj (String.app (pretty chatId))) in Heq.
      injection Heq as Heq. symmetry. by apply (inj pretty).
Qed.

Lemma replaced_message_has_no_pages_witness :
  handlePagination (sendAnswer Pagination.empty two_words 1 7 false).2
    (Some (1, 8)) next
  = (NotFound, (sendAnswer Pagination.empty two_words 1 7 false).2).
Proof.
  apply (replaced_message_has_no_pages Pagination.empty two_words 1 7 8 next).
  - apply cache_ok_empty.
  - by vm_compute.
  - lia.
  - done.
Defined.

(** *** The memo tables *)

Lemma size_insert_new {A} (m : gmap jsstr A) key value :
  m !! key = None → size (<[key := value]> m) = S (size m).
Proof. apply map_size_insert_None. Qed.

(** X23: the memo tables stay small.  Neither [formatResponse] nor
    [splitMessage] lets a table grow beyond [MAX_CACHE_SIZE] entries, and
    what they return does not depend on what the tables hold. *)
Theorem caches_stay_bounded this text :
  cache_ok this → caches_bounded this →
  (formatResponse this text).1 = stripDecor (trim text) ∧
  (splitMessage this text).1 = split_pages text ∧
  caches_bounded (formatResponse this text).2 ∧
  caches_bounded (splitMessage this text).2.
Proof.
  intros Hok [Hr Hs].
  split; [by apply formatResponse_spec|]. split; [by apply splitMessage_spec|].
  unfold caches_bounded, formatResponse, splitMessage. split.
  - destruct (responseCache this !! text) eqn:Hc; [done|].
    destruct (size (responseCache this) <? MAX_CACHE_SIZE)%nat eqn:Hroom;
      [|done].
    cbn [snd responseCache splitCache]. split; [|done].
    rewrite size_insert_new by done. apply Nat.ltb_lt in Hroom. lia.
  - destruct (splitCache this !! text) eqn:Hc; [done|].
    destruct (size (splitCache this) <? MAX_CACHE_SIZE)%nat eqn:Hroom;
      [|done].
    cbn [snd responseCache splitCache]. split; [done|].
    rewrite size_insert_new by done. apply Nat.ltb_lt in Hroom. lia.
Qed.

Lemma caches_stay_bounded_witness :
  caches_bounded (formatResponse MessageService.empty decorated).2.
Proof.
  apply (caches_stay_bounded MessageService.empty decorated).
  - apply cache_ok_empty.
  - split; cbn; rewrite map_size_empty; unfold MAX_CACHE_SIZE; lia.
Defined.

End DeliveryFacts.

(** ** What formatting and splitting keep *)

Module TextExtras.
Import Js MessageService TextTerms JsFacts FormatFacts PageFacts DeliveryFacts.

Local Open Scope nat_scope.

Lemma trimStart_sublist s : trimStart s `sublist_of` s.
Proof.
  induction s as [|c s IH]; [done|]. cbn [trimStart].
  destruct (is_ws c); [by apply sublist_cons | done].
Qed.

Lemma trimEnd_sublist s : trimEnd s `sublist_of` s.
Proof.
  induction s as [|c s IH]; [done|]. cbn [trimEnd].
  destruct (trimEnd s) as [|d t].
  - destruct (is_ws c); [apply sublist_nil_l|].
    apply sublist_skip, sublist_nil_l.
  - by apply sublist_skip.
Qed.

Lemma trim_sublist s : trim s `sublist_of` s.
Proof. unfold trim. etrans; [apply trimEnd_sublist | apply trimStart_sublist]. Qed.

Lemma replace_sparkles_sublist s : ∀ bol eating,
  replace_sparkles bol eating s `sublist_of` s.
Proof.
  induction s as [|c s IH]; intros bol eating; [done|]. cbn [replace_sparkles].
  destruct (eating && is_ws c); [by apply sublist_cons|].
  destruct (bol && (c =? SPARKLES)%N); [by apply sublist_cons|].
  by apply sublist_skip.
Qed.

Lemma replace_rules_sublist s : replace_rules s `sublist_of` s.
Proof.
  unfold replace_rules. induction s as [|c s IH]; [done|].
  rewrite filter_cons. case_decide; [by apply sublist_skip | by apply sublist_cons].
Qed.

Lemma replace_blank_runs_sublist s : ∀ run,
  replace_blank_runs run s `sublist_of` s.
Proof.
  induction s as [|c s IH]; intros run; [done|]. cbn [replace_blank_runs].
  destruct (c =? LF)%N; [|by apply sublist_skip].
  destruct (2 <=? run); [by apply sublist_cons | by apply sublist_skip].
Qed.

(** X24: formatting only deletes.  The formatted text is the input with some
    units taken out: nothing is added, replaced or moved.  It has no white
    space at either end, no rule glyph and no run of three line feeds. *)
Theorem formatResponse_only_deletes this text :
  cache_ok this →
  let formatted := (formatResponse this text).1 in
  (formatted `sublist_of` text) ∧
  trim formatted = formatted ∧
  (HEAVY_RULE ∉ formatted) ∧
  runs_short 0 formatted = true.
Proof.
  intros Hok. cbn zeta. destruct (formatResponse_spec this text Hok) as [-> _].
  split; [|split; [apply stripDecor_trimmed|split;
    [apply stripDecor_no_rules | apply stripDecor_runs_short]]].
  unfold stripDecor.
  etrans; [apply trim_sublist|]. etrans; [apply replace_blank_runs_sublist|].
  etrans; [apply replace_rules_sublist|].
  etrans; [apply replace_sparkles_sublist|]. apply trim_sublist.
Qed.

Lemma formatResponse_only_deletes_witness :
  ((formatResponse empty decorated).1 `sublist_of` decorated) ∧
  (formatResponse empty decorated).1
  = [104; 105; LF; LF; 116; 104; 101; 114; 101]%N.
Proof.
  split; [|by vm_compute].
  by apply (formatResponse_only_deletes empty decorated), cache_ok_empty.
Defined.

(** *** Pages *)

Local Abbreviation trimmed := (λ p : jsstr, trim p = p).

Lemma push_truthy_trimmed chunks chunk :
  Forall trimmed chunks → Forall trimmed (push_truthy chunks chunk).
Proof.
  intros Hchunks. unfold push_truthy. destruct (truthy chunk); [|done].
  apply Forall_app. split; [done|]. constructor; [apply trim_idem | done].
Qed.

Lemma words_trimmed words : ∀ chunks wordChunk,
  Forall trimmed chunks →
  Forall trimmed (fold_left word_step words (chunks, wordChunk)).1.
Proof.
  induction words as [|w words IH]; intros chunks wordChunk Hchunks; [done|].
  cbn [fold_left]. rewrite word_step_unfold.
  destruct (length wordChunk + length w + 1 <=? MAX_PAGE_LENGTH);
    apply IH; [done | by apply push_truthy_trimmed].
Qed.

Lemma paragraphs_trimmed paragraphs : ∀ chunks current,
  Forall trimmed chunks →
  Forall trimmed (fold_left paragraph_step paragraphs (chunks, current)).1.
Proof.
  induction paragraphs as [|p paragraphs IH]; intros chunks current Hchunks;
    [done|].
  cbn [fold_left]. rewrite paragraph_step_unfold.
  destruct (length current + length p + 2 <=? MAX_PAGE_LENGTH); [by apply IH|].
  destruct (MAX_PAGE_LENGTH <? length p); apply IH.
  - apply push_truthy_trimmed, words_trimmed. by apply push_truthy_trimmed.
  - by apply push_truthy_trimmed.
Qed.

(** X25: splitting loses white space only.  For every text, the pages in
    their order hold the units of the text that are not white space, all of
    them and in the same order.  The pages of a text that has no white
    space at its ends have none at theirs, and there is at least one. *)
Theorem splitMessage_keeps_text this text :
  cache_ok this →
  let pages := (splitMessage this text).1 in
  strip_ws (concat pages) = strip_ws text ∧
  (trim text = text → pages ≠ [] ∧ Forall (λ p, trim p = p) pages).
Proof.
  intros Hok. cbn zeta. destruct (splitMessage_spec this text Hok) as [-> _].
  split; [symmetry; apply covers_strip_ws, split_pages_cover|].
  intros Htrim. split; [by apply split_pages_not_empty|].
  rewrite split_pages_unfold.
  destruct (length text <=? MAX_PAGE_LENGTH); [by repeat constructor|].
  apply push_truthy_trimmed.
  by apply (paragraphs_trimmed (split_blank_line text) [] []).
Qed.

Lemma splitMessage_keeps_text_witness :
  cache_ok empty ∧
  strip_ws (concat (splitMessage empty space_then_word).1)
  = strip_ws space_then_word.
Proof.
  split; [apply cache_ok_empty|].
  by apply (splitMessage_keeps_text empty space_then_word), cache_ok_empty.
Defined.

End TextExtras.

(** ** Admission and the report of an error *)

Module BotExtras.
Import Js Bot BotTerms OpenRouterService ClientTerms KeyFacts JobFacts.

Lemma includes_start sub rest : includes (sub +:+ rest) sub = true.
Proof.
  destruct (sub +:+ rest) eqn:Hs; cbn [includes];
    rewrite <-Hs, startsWith_app; done.
Qed.

Lemma includes_app before s sub :
  includes s sub = true → includes (before +:+ s) sub = true.
Proof.
  intros Hin. induction before as [|a before IH]; [done|].
  rewrite append_cons. cbn [includes]. rewrite IH. apply orb_true_r.
Qed.

(** X26: a refused key is reported as such.  When the upstream answers every
    attempt with status 401, the call fails after its three attempts and
    the message of its error makes the bot tell the user that the
    authorization failed, whatever the body of the answers. *)
Theorem refused_key_is_reported fetch this :
  (∀ n, 0 ≤ n < 3 → ∃ text body, fetch n = Response 401 text body) →
  ∃ message,
    outcome (callOpenRouter_operation fetch this).1 = inr message ∧
    attempts (callOpenRouter_operation fetch this).1 = 3%nat ∧
    getFriendlyErrorMessage message = authorization_notice.
Proof.
  intros Hfetch.
  destruct (Hfetch 0) as (t0 & b0 & H0); [lia|].
  destruct (Hfetch 1) as (t1 & b1 & H1); [lia|].
  destruct (Hfetch 2) as (t2 & b2 & H2); [lia|].
  unfold callOpenRouter_operation. cbn [attempt_loop].
  change (0 <? 3) with true. cbn [Z.add Z.ltb Z.compare].
  rewrite H0. cbn [attempt_once]. change (response_ok 401) with false.
  change (401 =? 429) with false. change (500 <=? 401) with false.
  cbn [negb orb]. change (0 + 1) with 1. change (1 <? 3) with true.
  rewrite H1. cbn [attempt_once]. change (response_ok 401) with false.
  change (401 =? 429) with false. change (500 <=? 401) with false.
  cbn [negb orb]. change (1 + 1) with 2. change (2 <? 3) with true.
  rewrite H2. cbn [attempt_once]. change (response_ok 401) with false.
  change (401 =? 429) with false. change (500 <=? 401) with false.
  cbn [negb orb attempt_loop outcome attempts default from_option id fst].
  eexists. split; [reflexivity|]. split; [done|].
  unfold getFriendlyErrorMessage.
  replace (pretty 401) with "401"%string by (by vm_compute).
  rewrite includes_app; [done|]. apply includes_app. apply includes_start.
Qed.

Lemma refused_key_is_reported_witness :
  ∃ message,
    outcome (callOpenRouter_operation always_401 initial).1 = inr message ∧
    attempts (callOpenRouter_operation always_401 initial).1 = 3%nat ∧
    getFriendlyErrorMessage message = authorization_notice.
Proof.
  apply refused_key_is_reported. intros n _. by eexists _, _.
Defined.





End BotExtras.

(** ** Histories and tracked messages *)

Module UserFacts.
Import Js UserService UserTerms.

Section messages.
Context {Message : Type}.
Implicit Types this : t Message.

Lemma forget_histories this userId other :
  userHistories (forget this userId) !! other
  = if decide (other = userId) then None else userHistories this !! other.
Proof.
  unfold forget. cbn [userHistories]. case_decide as H.
  - subst. apply lookup_delete_eq.
  - by apply lookup_delete_ne.
Qed.

(** What the eviction leaves of a history: the history, or nothing. *)
Lemma foldl_forget_histories (victims : list (Z * Z)) : ∀ this other,
  userHistories (foldl (λ st entry, forget st entry.1) this victims) !! other
  = userHistories this !! other ∨
  userHistories (foldl (λ st entry, forget st entry.1) this victims) !! other
  = None.
Proof.
  induction victims as [|v victims IH]; intros this other; [by left|].
  cbn [foldl]. destruct (IH (forget this v.1) other) as [-> | ->]; [|by right].
  rewrite forget_histories. case_decide; [by right | by left].
Qed.

Lemma foldl_forget_tracked (victims : list (Z * Z)) : ∀ this,
  (∀ userId, getUserBotMessages this userId ⊆ getUserAllMessages this userId) →
  ∀ userId,
    getUserBotMessages (foldl (λ st entry, forget st entry.1) this victims) userId
    ⊆ getUserAllMessages (foldl (λ st entry, forget st entry.1) this victims) userId.
Proof.
  induction victims as [|v victims IH]; intros this Hok; [done|].
  cbn [foldl]. apply IH. intros userId.
  unfold getUserBotMessages, getUserAllMessages, forget.
  cbn [userBotMessages userAllMessages].
  destruct (decide (userId = v.1)) as [->|Hne].
  - rewrite !lookup_delete_eq. done.
  - rewrite !lookup_delete_ne by done. apply Hok.
Qed.

Lemma updateUserAccess_histories now lucky this userId other :
  userHistories (updateUserAccess now lucky this userId) !! other
  = userHistories this !! other ∨
  userHistories (updateUserAccess now lucky this userId) !! other = None.
Proof.
  unfold updateUserAccess. destruct lucky; [|by left].
  set (this1 := {| userHistories := userHistories this;
                   userBotMessages := userBotMessages this;
                   userAllMessages := userAllMessages this;
                   userAccessTime := map_set userId now (userAccessTime this) |}).
  change (userHistories this !! other) with (userHistories this1 !! other).
  unfold cleanupOldUsers.
  destruct (size (userHistories this1) <=? MAX_USERS_IN_MEMORY)%nat; [by left|].
  apply foldl_forget_histories.
Qed.

Lemma updateUserAccess_ok now lucky this userId :
  tables_ok this → tables_ok (updateUserAccess now lucky this userId).
Proof.
  intros [Hshort Htracked]. split.
  - intros other history Hh.
    destruct (updateUserAccess_histories now lucky this userId other) as [H|H];
      rewrite H in Hh; [by eapply Hshort | done].
  - unfold updateUserAccess. destruct lucky; [|done].
    unfold cleanupOldUsers.
    destruct (size _ <=? MAX_USERS_IN_MEMORY)%nat; [done|].
    by apply foldl_forget_tracked.
Qed.

Lemma set_history_ok this userId history :
  tables_ok this → (length history ≤ MAX_HISTORY)%nat →
  tables_ok (set_history this userId history).
Proof.
  intros [Hshort Htracked] Hlen. split; [|done].
  intros other h. unfold set_history. cbn [userHistories].
  destruct (decide (other = userId)) as [->|Hne].
  - rewrite lookup_insert_eq. by intros [= <-].
  - rewrite lookup_insert_ne by done. apply Hshort.
Qed.

Lemma buildHistory_ok now lucky this userId :
  tables_ok this →
  tables_ok (buildHistory now lucky this userId).2 ∧
  (length (buildHistory now lucky this userId).1 ≤ MAX_HISTORY)%nat ∧
  userHistories (buildHistory now lucky this userId).2 !! userId
  = Some (buildHistory now lucky this userId).1.
Proof.
  intros Hok. pose proof (updateUserAccess_ok now lucky this userId Hok) as Hok1.
  unfold buildHistory.
  destruct (userHistories (updateUserAccess now lucky this userId) !! userId)
    as [history|] eqn:Hh; cbn [fst snd].
  - split; [done|]. split; [|done]. destruct Hok1 as [Hshort _]. by eapply Hshort.
  - split; [apply set_history_ok; [done | simpl; lia]|].
    split; [simpl; lia|]. unfold set_history. cbn [userHistories].
    apply lookup_insert_eq.
Qed.

Lemma length_kept (pushed : list Message) :
  (length (if (MAX_HISTORY <? length pushed)%nat
           then drop (length pushed - MAX_HISTORY) pushed else pushed)
   ≤ MAX_HISTORY)%nat.
Proof.
  destruct (MAX_HISTORY <? length pushed)%nat eqn:Hlong.
  - rewrite length_drop. apply Nat.ltb_lt in Hlong. unfold MAX_HISTORY in *. lia.
  - apply Nat.ltb_ge in Hlong. lia.
Qed.

Lemma appendToHistory_ok now lucky this userId message :
  tables_ok this → tables_ok (appendToHistory now lucky this userId message).
Proof.
  intros Hok. unfold appendToHistory.
  destruct (buildHistory_ok now lucky this userId Hok) as (Hok1 & _ & _).
  destruct (buildHistory now lucky this userId) as [history this1].
  apply set_history_ok; [done | apply length_kept].
Qed.

Lemma track_ok this userId messageId :
  tables_ok this →
  tables_ok (trackUserMessage this userId messageId) ∧
  tables_ok (trackBotMessage this userId messageId) ∧
  tables_ok (clearUserMessages this userId).
Proof.
  intros [Hshort Htracked]. split; [|split]; (split; [done|]); intros other;
    unfold getUserBotMessages, getUserAllMessages, trackUserMessage,
      trackBotMessage, clearUserMessages;
    cbn [userBotMessages userAllMessages];
    (destruct (decide (other = userId)) as [->|Hne];
      [rewrite ?lookup_insert_eq | rewrite ?lookup_insert_ne by done;
                                   apply Htracked]);
    cbn [default from_option id].
  - specialize (Htracked userId). unfold getUserBotMessages, getUserAllMessages in *.
    intros x Hx. apply elem_of_union. right. by apply Htracked.
  - specialize (Htracked userId). unfold getUserBotMessages, getUserAllMessages in *.
    intros x [Hx|Hx]%elem_of_union; apply elem_of_union; [by left|].
    right. by apply Htracked.
  - done.
Qed.

(** X29: the tables stay in order.  Whatever calls are made, in whatever
    order and at whatever times, with or without the sweep of old users, no
    history is ever longer than [MAX_HISTORY] messages, and every message
    tracked as sent by the bot is among the tracked messages of its user. *)
Theorem calls_keep_tables_ok (calls : list (Call Message)) this :
  tables_ok this → tables_ok (foldl call this calls).
Proof.
  revert this. induction calls as [|c calls IH]; intros this Hok; [done|].
  cbn [foldl]. apply IH. destruct c; cbn [call].
  - by apply buildHistory_ok.
  - by apply appendToHistory_ok.
  - unfold resetHistory. apply set_history_ok; [|simpl; lia].
    by apply updateUserAccess_ok.
  - by apply track_ok.
  - by apply track_ok.
  - by apply track_ok.
Qed.

(** X30: a history holds the last ten messages.  After
    [appendToHistory(userId, message)] the history of the user ends with the
    message and has at most ten messages; when the sweep of old users does
    not run it is the last ten of the old history followed by the message;
    and the history of another user is what it was, or was swept. *)
Theorem appendToHistory_keeps_last_ten now lucky this userId message :
  let this' := appendToHistory now lucky this userId message in
  (∃ history,
     userHistories this' !! userId = Some history ∧
     last history = Some message ∧
     (length history ≤ MAX_HISTORY)%nat ∧
     (lucky = false →
      history
      = last_n MAX_HISTORY
          (default [] (userHistories this !! userId) ++ [message]))) ∧
  ∀ other, other ≠ userId →
    userHistories this' !! other = userHistories this !! other ∨
    userHistories this' !! other = None.
Proof.
  cbn zeta. unfold appendToHistory.
  assert (∀ pushed : list Message,
            (if (MAX_HISTORY <? length pushed)%nat
             then drop (length pushed - MAX_HISTORY) pushed else pushed)
            = last_n MAX_HISTORY pushed) as Hkept.
  { intros pushed. unfold last_n.
    destruct (MAX_HISTORY <? length pushed)%nat eqn:Hlong; [done|].
    apply Nat.ltb_ge in Hlong. unfold MAX_HISTORY in *.
    by replace (length pushed - 10)%nat with 0%nat by lia. }
  assert (∀ old : list Message,
            last (last_n MAX_HISTORY (old ++ [message])) = Some message) as Hlast.
  { intros old. unfold last_n, MAX_HISTORY. rewrite length_app. cbn [length].
    rewrite drop_app_le by lia. apply last_snoc. }
  split.
  - unfold buildHistory.
    destruct (userHistories (updateUserAccess now lucky this userId) !! userId)
      as [old|] eqn:Hold.
    + eexists. unfold set_history. cbn [userHistories].
      split; [apply lookup_insert_eq|]. rewrite Hkept.
      split; [apply Hlast|]. split; [rewrite <-Hkept; apply length_kept|].
      intros ->. unfold updateUserAccess in Hold. cbn [userHistories] in Hold.
      by rewrite Hold.
    + eexists. unfold set_history. cbn [userHistories].
      split; [apply lookup_insert_eq|]. rewrite Hkept.
      split; [apply Hlast|]. split; [rewrite <-Hkept; apply length_kept|].
      intros ->. unfold updateUserAccess in Hold. cbn [userHistories] in Hold.
      by rewrite Hold.
  - intros other Hother.
    assert (userHistories
              (set_history (buildHistory now lucky this userId).2 userId
                 (if (MAX_HISTORY <? length ((buildHistory now lucky this userId).1 ++ [message]))%nat
                  then drop (length ((buildHistory now lucky this userId).1 ++ [message]) - MAX_HISTORY)
                         ((buildHistory now lucky this userId).1 ++ [message])
                  else (buildHistory now lucky this userId).1 ++ [message])) !! other
            = userHistories (updateUserAccess now lucky this userId) !! other) as Heq.
    { unfold set_history, buildHistory. cbn [userHistories].
      rewrite lookup_insert_ne by done.
      destruct (userHistories (updateUserAccess now lucky this userId) !! userId);
        cbn [snd]; [done|].
      unfold set_history. cbn [userHistories]. by rewrite lookup_insert_ne. }
    destruct (buildHistory now lucky this userId) as [history this1].
    cbn [fst snd] in Heq. rewrite Heq.
    apply updateUserAccess_histories.
Qed.

End messages.

Lemma calls_keep_tables_ok_witness :
  tables_ok (empty (Message := Z)) ∧
  tables_ok
    (foldl call empty
       [AppendToHistory 1 true 7 5; TrackBotMessage 7 3; ClearUserMessages 7]).
Proof.
  assert (tables_ok (empty (Message := Z))) as Hok.
  { split.
    - intros userId history H. cbn [empty userHistories] in H.
      by rewrite lookup_empty in H.
    - intros userId. done. }
  split; [done|]. by apply calls_keep_tables_ok.
Defined.

Lemma appendToHistory_keeps_last_ten_witness :
  userHistories (appendToHistory 12 false eleven_appended 7 12) !! 7
  = Some (seqZ 3 10).
Proof.
  destruct (appendToHistory_keeps_last_ten 12 false eleven_appended 7 12)
    as [(history & -> & _ & _ & Hhistory) _].
  rewrite Hhistory by done. by vm_compute.
Defined.

End UserFacts.
